(** * Battle Checkers: rule engine, state machine and computer opponent

    A shallow embedding of [gameLogic.ts], [GameContext.tsx], [aiService.ts]
    and the type declarations of [game.ts], together with the properties the
    specification states about them.

    Conventions of the embedding.
    - JavaScript numbers used as coordinates and counters are integers, [Z].
    - A board is an array of rows, a row an array of cells; arrays are lists.
      Reading an array outside its indices yields [undefined]; reading a
      property of [undefined] raises a [TypeError].  Both are kept apart:
      a cell read returns a [cell], which may be [Undef], inside the [js]
      result type, whose [Throw] is the [TypeError].
    - Functions are given in the order of the source and keep its names. *)

From Stdlib Require Import String ZArith List Bool Lia DecimalString DecimalNat.
From Stdlib Require Import Permutation Sorted.
Import ListNotations.
Open Scope Z_scope.

Set Implicit Arguments.

(** ** Results of JavaScript computations *)

Inductive js (A : Type) : Type :=
| Ret (a : A)          (* normal completion with a value *)
| Throw                (* TypeError: a property of undefined was read or set *)
| NonElementWrite.     (* an assignment [arr[i] = v] with [i < 0]: the source
                          attaches a property that is no array element; rows
                          as lists do not hold it and the embedding stops *)

Arguments Throw {A}.
Arguments NonElementWrite {A}.

Definition bind {A B : Type} (m : js A) (k : A -> js B) : js B :=
  match m with
  | Ret a => k a
  | Throw => Throw
  | NonElementWrite => NonElementWrite
  end.

Notation "x <- m ;; k" := (bind m (fun x => k))
  (at level 61, m at next level, right associativity).

(** [for (const x of xs) if (cond(x)) out.push(f(x))] *)
Fixpoint pushWhen {A B : Type} (cond : A -> js bool) (f : A -> B)
         (xs : list A) : js (list B) :=
  match xs with
  | [] => Ret []
  | x :: rest =>
      c <- cond x ;;
      out <- pushWhen cond f rest ;;
      Ret (if c then f x :: out else out)
  end.

(** ** game.ts *)

Inductive PlayerColor : Type := red | blue.

Inductive PieceType : Type :=
| normal | bagel | pancake | bomb | vinyl | flying_disk.

Inductive GamePhase : Type := Menu | Draft | Placement | Play | GameOver.

Record Square : Type := mkSquare { row : Z; col : Z }.

Record Piece : Type := mkPiece {
  id : string;
  type : PieceType;
  player : PlayerColor;
  crowned : bool;
  position : Square
}.

Record Move : Type := mkMove {
  piece : Piece;
  from : Square;
  to : Square;
  captured : option Piece
}.

Record WinResult : Type := mkWinResult {
  gameOver : bool;
  winner : option PlayerColor
}.

Record CaptureResult : Type := mkCaptureResult {
  capturedPiece : option Piece;
  capturedSquare : option Square
}.

Record PieceSelection : Type := mkPieceSelection {
  sel_type : PieceType;
  count : Z;
  max : Z
}.

(** [Record<PlayerColor, A>] *)
Record PerPlayer (A : Type) : Type := mkPerPlayer { ofRed : A; ofBlue : A }.

Definition perPlayer {A : Type} (r : PerPlayer A) (c : PlayerColor) : A :=
  match c with red => ofRed r | blue => ofBlue r end.

Definition setPlayer {A : Type} (r : PerPlayer A) (c : PlayerColor) (a : A)
  : PerPlayer A :=
  match c with
  | red => mkPerPlayer a (ofBlue r)
  | blue => mkPerPlayer (ofRed r) a
  end.

(** What an array read [board[r][c]] can produce. *)
Inductive cell : Type :=
| Undef                (* undefined: no such element *)
| Null                 (* null: an empty square *)
| Pc (p : Piece).      (* a piece *)

Definition Board : Type := list (list cell).

Record GameState : Type := mkGameState {
  phase : GamePhase;
  currentPlayer : PlayerColor;
  board : Board;
  scores : PerPlayer Z;
  capturedPieces : PerPlayer (list Piece);
  moveHistory : list Move;
  pieceCounts : PerPlayer Z;
  gameActive : bool
}.

(** *** Equality tests ([===] and [!==]) *)

Definition PlayerColor_eqb (a b : PlayerColor) : bool :=
  match a, b with
  | red, red | blue, blue => true
  | _, _ => false
  end.

Definition PieceType_eqb (a b : PieceType) : bool :=
  match a, b with
  | normal, normal | bagel, bagel | pancake, pancake
  | bomb, bomb | vinyl, vinyl | flying_disk, flying_disk => true
  | _, _ => false
  end.

Definition GamePhase_eqb (a b : GamePhase) : bool :=
  match a, b with
  | Menu, Menu | Draft, Draft | Placement, Placement
  | Play, Play | GameOver, GameOver => true
  | _, _ => false
  end.

Definition opponent (c : PlayerColor) : PlayerColor :=
  match c with red => blue | blue => red end.

(** *** Array reads *)

Definition nthZ {A : Type} (l : list A) (i : Z) : option A :=
  if i <? 0 then None else nth_error l (Z.to_nat i).

(** [rw[c]] *)
Definition rowGet (rw : list cell) (c : Z) : cell :=
  match nthZ rw c with
  | Some x => x
  | None => Undef
  end.

(** [board[r][c]] *)
Definition boardGet (b : Board) (r c : Z) : js cell :=
  match nthZ b r with
  | Some rw => Ret (rowGet rw c)
  | None => Throw
  end.

Definition isNull (c : cell) : bool :=
  match c with Null => true | _ => false end.

(** truthiness of a cell value: [if (x)], [!x] *)
Definition truthy (c : cell) : bool :=
  match c with Pc _ => true | _ => false end.

(** ** gameLogic.ts *)

Definition inBounds (r c : Z) : bool :=
  (0 <=? r) && (r <? 8) && (0 <=? c) && (c <? 8).

Definition isForwardMove (p : Piece) (rowDiff : Z) : bool :=
  match player p with
  | red => 0 <? rowDiff
  | blue => rowDiff <? 0
  end.

Definition isValidNormalMove (board : Board) (from to : Square) (piece : Piece)
  : js bool :=
  let rowDiff := row to - row from in
  let colDiff := col to - col from in
  let absRowDiff := Z.abs rowDiff in
  let absColDiff := Z.abs colDiff in
  let isForward := isForwardMove piece rowDiff in
  if (absRowDiff =? 1) && (absColDiff =? 1) then
    Ret (crowned piece || isForward)
  else if (absRowDiff =? 2) && (absColDiff =? 2) then
    let midRow := row from + rowDiff / 2 in
    let midCol := col from + colDiff / 2 in
    midPiece <- boardGet board midRow midCol ;;
    if crowned piece || isForward then
      match midPiece with
      | Null => Ret false
      | Undef => Throw                       (* midPiece.player *)
      | Pc q => Ret (negb (PlayerColor_eqb (player q) (player piece)))
      end
    else Ret false
  else Ret false.

Definition isValidBagelMove (board : Board) (from to : Square) (piece : Piece)
  : js bool :=
  v <- isValidNormalMove board from to piece ;;
  if v then Ret true else Ret false.

Definition isValidPancakeMove (board : Board) (from to : Square) (piece : Piece)
  : js bool :=
  let rowDiff := row to - row from in
  let colDiff := col to - col from in
  let absRowDiff := Z.abs rowDiff in
  let absColDiff := Z.abs colDiff in
  v <- isValidNormalMove board from to piece ;;
  if v then Ret true else
  lateral <-
    (if (absRowDiff =? 0) && (absColDiff =? 1)
     then (c <- boardGet board (row to) (col to) ;; Ret (isNull c))
     else Ret false) ;;
  if lateral then Ret true else
  if (absRowDiff =? 0) && (absColDiff =? 2) then
    let midCol := col from + colDiff / 2 in
    midPiece <- boardGet board (row from) midCol ;;
    match midPiece with
    | Null => Ret false
    | Undef => Throw                         (* midPiece.player *)
    | Pc q => Ret (negb (PlayerColor_eqb (player q) (player piece)))
    end
  else Ret false.

Definition isValidMove (board : Board) (from to : Square) (piece : Piece)
  : js bool :=
  dest <- boardGet board (row to) (col to) ;;
  if negb (isNull dest) then Ret false else
  if (row to <? 0) || (7 <? row to) || (col to <? 0) || (7 <? col to)
  then Ret false else
  match type piece with
  | normal => isValidNormalMove board from to piece
  | bagel => isValidBagelMove board from to piece
  | pancake => isValidPancakeMove board from to piece
  | _ => Ret false
  end.

(** A jump candidate: the square jumped over and the landing square. *)
Record Jump : Type := mkJump { midRow : Z; midCol : Z; endRow : Z; endCol : Z }.

Definition endSquare (j : Jump) : Square := mkSquare (endRow j) (endCol j).

(** The test of the first loop of the generators: in bounds and empty. *)
Definition stepOk (board : Board) (move : Square) : js bool :=
  if inBounds (row move) (col move) then
    c <- boardGet board (row move) (col move) ;;
    Ret (isNull c)
  else Ret false.

(** [x?.player !== who] *)
Definition playerDiffers (c : cell) (who : PlayerColor) : bool :=
  match c with
  | Pc q => negb (PlayerColor_eqb (player q) who)
  | _ => true
  end.

(** The test of the second loop of the generators. *)
Definition jumpOk (board : Board) (piece : Piece) (j : Jump) : js bool :=
  if inBounds (endRow j) (endCol j) then
    m <- boardGet board (midRow j) (midCol j) ;;
    if isNull m then Ret false else
    m' <- boardGet board (midRow j) (midCol j) ;;
    if negb (playerDiffers m' (player piece)) then Ret false else
    e <- boardGet board (endRow j) (endCol j) ;;
    Ret (isNull e)
  else Ret false.

Definition direction (piece : Piece) : Z :=
  match player piece with red => 1 | blue => -1 end.

(** The candidate lists of [getNormalMoves]. *)
Definition diagonalMoves (piece : Piece) : list Square :=
  let r := row (position piece) in
  let c := col (position piece) in
  let d := direction piece in
  [mkSquare (r + d) (c - 1); mkSquare (r + d) (c + 1)] ++
  (if crowned piece
   then [mkSquare (r - d) (c - 1); mkSquare (r - d) (c + 1)]
   else []).

Definition captureMoves (piece : Piece) : list Jump :=
  let r := row (position piece) in
  let c := col (position piece) in
  let d := direction piece in
  [mkJump (r + d) (c - 1) (r + 2 * d) (c - 2);
   mkJump (r + d) (c + 1) (r + 2 * d) (c + 2)] ++
  (if crowned piece
   then [mkJump (r - d) (c - 1) (r - 2 * d) (c - 2);
         mkJump (r - d) (c + 1) (r - 2 * d) (c + 2)]
   else []).

Definition getNormalMoves (board : Board) (piece : Piece) : js (list Square) :=
  steps <- pushWhen (stepOk board) (fun m => m) (diagonalMoves piece) ;;
  jumps <- pushWhen (jumpOk board piece) endSquare (captureMoves piece) ;;
  Ret (steps ++ jumps).

Definition isValidDiagonalMove (from to : Square) (crowned : bool)
           (player : PlayerColor) : bool :=
  let rowDiff := row to - row from in
  let colDiff := col to - col from in
  let absRowDiff := Z.abs rowDiff in
  let absColDiff := Z.abs colDiff in
  if negb (absRowDiff =? absColDiff) then false
  else if negb crowned && PlayerColor_eqb player red && (rowDiff <? 0) then false
  else if negb crowned && PlayerColor_eqb player blue && (0 <? rowDiff) then false
  else true.

(** [moveHistory[moveHistory.length - 1]] of a non-empty history *)
Definition lastMoveOf (moveHistory : list Move) : option Move :=
  last (map Some moveHistory) None.

Definition getBagelMoves (board : Board) (piece : Piece)
           (moveHistory : list Move) : js (list Square) :=
  normalMoves <- getNormalMoves board piece ;;
  specialMoves <-
    match lastMoveOf moveHistory with
    | None => Ret []
    | Some (mkMove lastPiece lastFrom _ _) =>
        if negb (PlayerColor_eqb (player lastPiece) (player piece))
        then
          let targetSquare := lastFrom in
          if isValidDiagonalMove (position piece) targetSquare
               (crowned piece) (player piece)
          then
            c <- boardGet board (row targetSquare) (col targetSquare) ;;
            Ret (if isNull c then [targetSquare] else [])
          else Ret []
        else Ret []
    end ;;
  Ret (normalMoves ++ specialMoves).

(** The candidate lists of [getPancakeMoves]. *)
Definition possibleMoves (piece : Piece) : list Square :=
  let r := row (position piece) in
  let c := col (position piece) in
  [mkSquare (r + 1) (c + 1); mkSquare (r + 1) (c - 1);
   mkSquare (r - 1) (c + 1); mkSquare (r - 1) (c - 1);
   mkSquare r (c + 1); mkSquare r (c - 1)].

Definition captureDirections (piece : Piece) : list Jump :=
  let r := row (position piece) in
  let c := col (position piece) in
  [mkJump (r + 1) (c + 1) (r + 2) (c + 2);
   mkJump (r + 1) (c - 1) (r + 2) (c - 2);
   mkJump (r - 1) (c + 1) (r - 2) (c + 2);
   mkJump (r - 1) (c - 1) (r - 2) (c - 2);
   mkJump r (c + 1) r (c + 2);
   mkJump r (c - 1) r (c - 2)].

Definition getPancakeMoves (board : Board) (piece : Piece) : js (list Square) :=
  steps <- pushWhen (stepOk board) (fun m => m) (possibleMoves piece) ;;
  jumps <- pushWhen (jumpOk board piece) endSquare (captureDirections piece) ;;
  Ret (steps ++ jumps).

Definition noCapture : CaptureResult := mkCaptureResult None None.

Definition handleCapture (board : Board) (from to : Square) (piece : Piece)
  : js CaptureResult :=
  let rowDiff := row to - row from in
  let colDiff := col to - col from in
  let absRowDiff := Z.abs rowDiff in
  let absColDiff := Z.abs colDiff in
  if ((absRowDiff =? 2) && (absColDiff =? 2)) ||
     (PieceType_eqb (type piece) pancake && (absRowDiff =? 0) && (absColDiff =? 2))
  then
    let midRow := row from + Z.sgn rowDiff * (if 0 <? absRowDiff then 1 else 0) in
    let midCol := col from + Z.sgn colDiff * 1 in
    got <- boardGet board midRow midCol ;;
    match got with
    | Pc q =>
        if negb (PlayerColor_eqb (player q) (player piece))
        then Ret (mkCaptureResult (Some q) (Some (mkSquare midRow midCol)))
        else Ret noCapture
    | _ => Ret noCapture
    end
  else Ret noCapture.

(** The [switch] inside the scan of [checkWinCondition]; a bagel is asked
    for its moves with an empty history, other variants have none. *)
Definition scanMoves (board : Board) (piece : Piece) : js (list Square) :=
  match type piece with
  | normal => getNormalMoves board piece
  | bagel => getBagelMoves board piece []
  | pancake => getPancakeMoves board piece
  | _ => Ret []
  end.

Definition nonEmpty {A : Type} (l : list A) : bool :=
  match l with [] => false | _ :: _ => true end.

Definition won (c : PlayerColor) : WinResult := mkWinResult true (Some c).
Definition ongoing : WinResult := mkWinResult false None.

(** The statements after the scan. *)
Definition afterScan (redHasMoves blueHasMoves : bool) : WinResult :=
  if negb redHasMoves then won blue
  else if negb blueHasMoves then won red
  else ongoing.

(** The two nested loops, over the squares still to visit. *)
Fixpoint scan (board : Board) (squares : list Square)
         (redHasMoves blueHasMoves : bool) : js WinResult :=
  match squares with
  | [] => Ret (afterScan redHasMoves blueHasMoves)
  | sq :: rest =>
      c <- boardGet board (row sq) (col sq) ;;
      match c with
      | Pc piece =>
          moves <- scanMoves board piece ;;
          let redNow := PlayerColor_eqb (player piece) red && nonEmpty moves in
          let redHasMoves' := if redNow then true else redHasMoves in
          let blueHasMoves' :=
            if redNow then blueHasMoves
            else if PlayerColor_eqb (player piece) blue && nonEmpty moves
                 then true else blueHasMoves in
          if redHasMoves' && blueHasMoves' then Ret ongoing
          else scan board rest redHasMoves' blueHasMoves'
      | _ => scan board rest redHasMoves blueHasMoves
      end
  end.

Definition indices : list Z := [0; 1; 2; 3; 4; 5; 6; 7].

(** The squares in the order the loops visit them. *)
Definition allSquares : list Square :=
  flat_map (fun r => map (fun c => mkSquare r c) indices) indices.

Definition checkWinCondition (board : Board) (pieceCounts : PerPlayer Z)
  : js WinResult :=
  if ofRed pieceCounts =? 0 then Ret (won blue)
  else if ofBlue pieceCounts =? 0 then Ret (won red)
  else scan board allSquares false false.

(** ** GameContext.tsx *)

Record Context : Type := mkContext {
  gameState : GameState;
  selectedPiece : option Piece;
  validMoves : list Square;
  pieceSelections : PerPlayer (list PieceSelection)
}.

Definition TOTAL_PIECES_PER_PLAYER : Z := 12.

Definition initialSelections : list PieceSelection :=
  [mkPieceSelection normal 0 12;
   mkPieceSelection bagel 0 6;
   mkPieceSelection pancake 0 6].

Definition initializeEmptyBoard : Board := repeat (repeat Null 8) 8.

Definition setupBoardForPlacement : Board := initializeEmptyBoard.

(** [arr[c] = v] on a row *)
Definition rowSet (rw : list cell) (c : Z) (v : cell) : js (list cell) :=
  if c <? 0 then NonElementWrite
  else
    let n := Z.to_nat c in
    if (n <? length rw)%nat
    then Ret (firstn n rw ++ v :: skipn (S n) rw)
    else Ret (rw ++ repeat Undef (n - length rw) ++ [v]).

(** [board[r][c] = v] on a copy of the board *)
Definition boardSet (b : Board) (r c : Z) (v : cell) : js Board :=
  match nthZ b r with
  | None => Throw
  | Some rw =>
      rw' <- rowSet rw c v ;;
      Ret (firstn (Z.to_nat r) b ++ rw' :: skipn (S (Z.to_nat r)) b)
  end.

Definition startGame (ctx : Context) : Context :=
  let gs := gameState ctx in
  mkContext
    (mkGameState Draft red (board gs) (mkPerPlayer 0 0) (mkPerPlayer [] [])
                 [] (mkPerPlayer 0 0) false)
    (selectedPiece ctx) (validMoves ctx)
    (mkPerPlayer initialSelections initialSelections).

Definition resetGame (ctx : Context) : Context :=
  mkContext
    (mkGameState Menu red initializeEmptyBoard (mkPerPlayer 0 0)
                 (mkPerPlayer [] []) [] (mkPerPlayer 0 0) false)
    None [] (pieceSelections ctx).

Definition selectionTotal (sels : list PieceSelection) : Z :=
  fold_left (fun sum selection => sum + count selection) sels 0.

Definition finishDraft (ctx : Context) : Context :=
  let gs := gameState ctx in
  let redTotal := selectionTotal (ofRed (pieceSelections ctx)) in
  let blueTotal := selectionTotal (ofBlue (pieceSelections ctx)) in
  if negb (redTotal =? TOTAL_PIECES_PER_PLAYER) ||
     negb (blueTotal =? TOTAL_PIECES_PER_PLAYER)
  then ctx
  else
    mkContext
      (mkGameState Placement (currentPlayer gs) setupBoardForPlacement
                   (scores gs) (capturedPieces gs) (moveHistory gs)
                   (mkPerPlayer redTotal blueTotal) true)
      (selectedPiece ctx) (validMoves ctx) (pieceSelections ctx).

Definition withBoard (gs : GameState) (b : Board) : GameState :=
  mkGameState (phase gs) (currentPlayer gs) b (scores gs) (capturedPieces gs)
              (moveHistory gs) (pieceCounts gs) (gameActive gs).

Definition withPosition (p : Piece) (sq : Square) : Piece :=
  mkPiece (id p) (type p) (player p) (crowned p) sq.

Definition placePiece (ctx : Context) (piece : Piece) (r c : Z) : js Context :=
  let gs := gameState ctx in
  if negb (GamePhase_eqb (phase gs) Placement) then Ret ctx
  else
    let placedPiece := withPosition piece (mkSquare r c) in
    newBoard <- boardSet (board gs) r c (Pc placedPiece) ;;
    Ret (mkContext (withBoard gs newBoard)
                   (selectedPiece ctx) (validMoves ctx) (pieceSelections ctx)).

Definition finishPlacement (ctx : Context) : Context :=
  let gs := gameState ctx in
  mkContext
    (mkGameState Play red (board gs) (scores gs) (capturedPieces gs)
                 (moveHistory gs) (pieceCounts gs) (gameActive gs))
    (selectedPiece ctx) (validMoves ctx) (pieceSelections ctx).

Definition getValidMovesForPiece (gs : GameState) (piece : Piece)
  : js (list Square) :=
  match type piece with
  | normal => getNormalMoves (board gs) piece
  | bagel => getBagelMoves (board gs) piece (moveHistory gs)
  | pancake => getPancakeMoves (board gs) piece
  | _ => Ret []
  end.

Definition selectPiece (ctx : Context) (piece : Piece) : js Context :=
  let gs := gameState ctx in
  if negb (PlayerColor_eqb (player piece) (currentPlayer gs)) ||
     negb (gameActive gs)
  then Ret ctx
  else
    moves <- getValidMovesForPiece gs piece ;;
    Ret (mkContext gs (Some piece) moves (pieceSelections ctx)).

Definition deselectPiece (ctx : Context) : Context :=
  mkContext (gameState ctx) None [] (pieceSelections ctx).

Definition isSome {A : Type} (o : option A) : bool :=
  match o with Some _ => true | None => false end.

(** The crowning test of [movePiece]. *)
Definition reachesFarRank (currentPlayer : PlayerColor) (r : Z) : bool :=
  (PlayerColor_eqb currentPlayer red && (r =? 7)) ||
  (PlayerColor_eqb currentPlayer blue && (r =? 0)).

Definition movePiece (ctx : Context) (r c : Z) : js Context :=
  let gs := gameState ctx in
  match selectedPiece ctx with
  | None => Ret ctx
  | Some selected =>
      if negb (gameActive gs) then Ret ctx
      else
        let cur := currentPlayer gs in
        let pieceRow := row (position selected) in
        let pieceCol := col (position selected) in
        if negb (existsb (fun move => (row move =? r) && (col move =? c))
                         (validMoves ctx))
        then Ret ctx
        else
          captureResult <- handleCapture (board gs) (mkSquare pieceRow pieceCol)
                                         (mkSquare r c) selected ;;
          let newScores :=
            match capturedPiece captureResult with
            | Some _ => setPlayer (scores gs) cur (perPlayer (scores gs) cur + 1)
            | None => scores gs
            end in
          let newCapturedPieces :=
            match capturedPiece captureResult with
            | Some q => setPlayer (capturedPieces gs) cur
                                  (perPlayer (capturedPieces gs) cur ++ [q])
            | None => capturedPieces gs
            end in
          cleared <- boardSet (board gs) pieceRow pieceCol Null ;;
          let movedPiece :=
            mkPiece (id selected) (type selected) (player selected)
                    (if reachesFarRank cur r then true else crowned selected)
                    (mkSquare r c) in
          newBoard <- boardSet cleared r c (Pc movedPiece) ;;
          let newMoveHistory :=
            moveHistory gs ++
            [mkMove selected (mkSquare pieceRow pieceCol) (mkSquare r c)
                    (capturedPiece captureResult)] in
          let hit := isSome (capturedPiece captureResult) in
          let newPieceCounts :=
            mkPerPlayer
              (ofRed (pieceCounts gs) -
               (if PlayerColor_eqb cur blue && hit then 1 else 0))
              (ofBlue (pieceCounts gs) -
               (if PlayerColor_eqb cur red && hit then 1 else 0)) in
          winResult <- checkWinCondition newBoard newPieceCounts ;;
          let newPhase := if gameOver winResult then GameOver else phase gs in
          let nextPlayer := opponent cur in
          Ret (mkContext
                 (mkGameState newPhase nextPlayer newBoard newScores
                              newCapturedPieces newMoveHistory newPieceCounts
                              (gameActive gs))
                 None [] (pieceSelections ctx))
  end.

(** [findIndex] *)
Fixpoint findIndex {A : Type} (f : A -> bool) (l : list A) : option nat :=
  match l with
  | [] => None
  | x :: rest =>
      if f x then Some 0%nat
      else match findIndex f rest with
           | Some i => Some (S i)
           | None => None
           end
  end.

Fixpoint updateAt {A : Type} (f : A -> A) (i : nat) (l : list A) : list A :=
  match l, i with
  | [], _ => []
  | x :: rest, O => f x :: rest
  | x :: rest, S j => x :: updateAt f j rest
  end.

Definition addCount (d : Z) (s : PieceSelection) : PieceSelection :=
  mkPieceSelection (sel_type s) (count s + d) (max s).

Definition togglePieceSelection (ctx : Context) (who : PlayerColor)
           (pieceType : PieceType) (idx : Z) : js Context :=
  let sels := perPlayer (pieceSelections ctx) who in
  let currentTotal := selectionTotal sels in
  match findIndex (fun s => PieceType_eqb (sel_type s) pieceType) sels with
  | None => Throw                     (* newSelections[player][-1].count *)
  | Some i =>
      match nth_error sels i with
      | None => Throw
      | Some s =>
          let sels' :=
            if (count s <? max s) && (currentTotal <? TOTAL_PIECES_PER_PLAYER)
            then updateAt (addCount 1) i sels
            else if 0 <? count s then updateAt (addCount (-1)) i sels
                 else sels in
          Ret (mkContext (gameState ctx) (selectedPiece ctx) (validMoves ctx)
                         (setPlayer (pieceSelections ctx) who sels'))
      end
  end.

(** The state the provider starts with. *)
Definition initialContext : Context :=
  mkContext
    (mkGameState Menu red initializeEmptyBoard (mkPerPlayer 0 0)
                 (mkPerPlayer [] []) [] (mkPerPlayer 0 0) false)
    None []
    (mkPerPlayer initialSelections initialSelections).

(** [for (let row = startRow; row < endRow; row++)] *)
Definition rowsFrom (startRow endRow : Z) : list Z :=
  map (fun i => startRow + Z.of_nat i) (seq 0 (Z.to_nat (endRow - startRow))).

(** [(row + col) % 2 !== 0] *)
Definition isDark (r c : Z) : bool := negb (Z.rem (r + c) 2 =? 0).

Definition getInitialPlacementSquares (player : PlayerColor) : list Square :=
  let startRow := match player with red => 0 | blue => 5 end in
  let endRow := match player with red => 3 | blue => 8 end in
  flat_map
    (fun r =>
       flat_map (fun c => if isDark r c then [mkSquare r c] else []) indices)
    (rowsFrom startRow endRow).

Definition colorName (c : PlayerColor) : string :=
  match c with red => "red" | blue => "blue" end.

Definition typeName (t : PieceType) : string :=
  match t with
  | normal => "normal"
  | bagel => "bagel"
  | pancake => "pancake"
  | bomb => "bomb"
  | vinyl => "vinyl"
  | flying_disk => "flying disk"
  end.

(** The template string of the piece id: player, type and index joined by
    dashes. *)
Definition pieceId (player : PlayerColor) (t : PieceType) (i : nat) : string :=
  (colorName player ++ "-" ++ typeName t ++ "-" ++
   NilEmpty.string_of_uint (Nat.to_uint i))%string.

Definition generatePiecesFromSelection (ctx : Context) (player : PlayerColor)
  : list Piece :=
  flat_map
    (fun selection =>
       map (fun i => mkPiece (pieceId player (sel_type selection) i)
                             (sel_type selection) player false (mkSquare 0 0))
           (seq 0 (Z.to_nat (count selection))))
    (perPlayer (pieceSelections ctx) player).

(** The squares of the rows from [startRow] up to [endRow], in the order
    the two loops visit them. *)
Definition rowSquares (startRow endRow : Z) : list Square :=
  flat_map (fun r => map (fun c => mkSquare r c) indices)
           (rowsFrom startRow endRow).

(** One pair of nested loops of [setupBoardWithSelectedPieces], over the
    squares still to visit: the next piece goes on the next dark square. *)
Fixpoint placeInRows (pieces : list Piece) (squares : list Square)
         (b : Board) (pieceIndex : nat) : js Board :=
  match squares with
  | [] => Ret b
  | s :: rest =>
      if isDark (row s) (col s) && (pieceIndex <? List.length pieces)%nat then
        match nth_error pieces pieceIndex with
        | Some p =>
            b' <- boardSet b (row s) (col s) (Pc (withPosition p s)) ;;
            placeInRows pieces rest b' (S pieceIndex)
        | None => Throw
        end
      else placeInRows pieces rest b pieceIndex
  end.

Definition setupBoardWithSelectedPieces (ctx : Context) : js Board :=
  let redPieces := generatePiecesFromSelection ctx red in
  let bluePieces := generatePiecesFromSelection ctx blue in
  b <- placeInRows redPieces (rowSquares 0 3) initializeEmptyBoard 0 ;;
  placeInRows bluePieces (rowSquares 5 8) b 0.

(** The commands the provider exposes, and one transition of the state
    machine. *)
Inductive Command : Type :=
| StartGame
| ResetGame
| FinishDraft
| FinishPlacement
| SelectPiece (piece : Piece)
| DeselectPiece
| MovePiece (r c : Z)
| TogglePieceSelection (who : PlayerColor) (pieceType : PieceType) (idx : Z)
| PlacePiece (piece : Piece) (r c : Z).

Definition run (ctx : Context) (cmd : Command) : js Context :=
  match cmd with
  | StartGame => Ret (startGame ctx)
  | ResetGame => Ret (resetGame ctx)
  | FinishDraft => Ret (finishDraft ctx)
  | FinishPlacement => Ret (finishPlacement ctx)
  | SelectPiece piece => selectPiece ctx piece
  | DeselectPiece => Ret (deselectPiece ctx)
  | MovePiece r c => movePiece ctx r c
  | TogglePieceSelection who pieceType idx =>
      togglePieceSelection ctx who pieceType idx
  | PlacePiece piece r c => placePiece ctx piece r c
  end.

(** ** aiService.ts *)

Module aiService.

(** The helper at the top of the file: every square of the grid is offered
    to [isValidMove]. *)
Definition getValidMovesForPiece (piece : Piece) (board : Board)
  : js (list Square) :=
  pushWhen
    (fun targetSquare =>
       targetPiece <- boardGet board (row targetSquare) (col targetSquare) ;;
       if truthy targetPiece && negb (playerDiffers targetPiece (player piece))
       then Ret false                                           (* continue *)
       else isValidMove board (position piece) targetSquare piece)
    (fun targetSquare => targetSquare)
    allSquares.

Inductive AIDifficulty : Type := Easy | Medium | Hard.

(** [BaseAI.playerColor] *)
Definition playerColor : PlayerColor := blue.

(** An entry of [allPossibleMoves]: [{piece, move}] *)
Definition Candidate : Type := (Piece * Square)%type.

Definition getAIPieces (gs : GameState) : list Piece :=
  flat_map
    (fun rw =>
       flat_map
         (fun c =>
            match c with
            | Pc p => if PlayerColor_eqb (player p) playerColor then [p] else []
            | _ => []
            end)
         rw)
    (board gs).

(** [Math.floor(Math.random() * n)] for a positive [n]: an index below [n],
    fixed by the draw [rnd]. *)
Definition randomIndex (rnd n : nat) : nat := Nat.modulo rnd n.

Definition pickRandom (rnd : nat) (l : list Candidate) : option Candidate :=
  nth_error l (randomIndex rnd (List.length l)).

Definition getPieceValue (t : PieceType) : Z :=
  match t with
  | flying_disk => 5
  | pancake => 4
  | bomb => 3
  | vinyl => 2
  | bagel => 1
  | normal => 0
  end.

(** [Array.prototype.sort] with the comparator of [HardAI]: a stable sort
    by ascending piece value. *)
Fixpoint insertByValue (x : Candidate) (l : list Candidate) : list Candidate :=
  match l with
  | [] => [x]
  | y :: rest =>
      if getPieceValue (type (fst y)) <=? getPieceValue (type (fst x))
      then y :: insertByValue x rest
      else x :: l
  end.

Definition sortByValue (l : list Candidate) : list Candidate :=
  fold_left (fun acc x => insertByValue x acc) l [].

(** The capture test shared by [MediumAI] and [HardAI]. *)
Definition looksLikeCapture (m : Candidate) : bool :=
  Z.abs (col (snd m) - col (position (fst m))) =? 2.

Definition selectMoveEasy (rnd : nat) (possibleMoves : list Candidate)
  : option Candidate :=
  match possibleMoves with
  | [] => None
  | _ => pickRandom rnd possibleMoves
  end.

Definition selectMoveMedium (rnd : nat) (possibleMoves : list Candidate)
  : option Candidate :=
  match possibleMoves with
  | [] => None
  | _ =>
      let capturingMoves := filter looksLikeCapture possibleMoves in
      if nonEmpty capturingMoves then pickRandom rnd capturingMoves
      else pickRandom rnd possibleMoves
  end.

Definition selectMoveHard (rnd : nat) (possibleMoves : list Candidate)
  : option Candidate :=
  match possibleMoves with
  | [] => None
  | _ =>
      let capturingMoves := filter looksLikeCapture possibleMoves in
      if nonEmpty capturingMoves then hd_error (sortByValue capturingMoves)
      else
        let forwardMoves :=
          filter (fun m => negb (crowned (fst m)) &&
                           (row (snd m) <? row (position (fst m))))
                 possibleMoves in
        if nonEmpty forwardMoves then
          let crowningMoves := filter (fun m => row (snd m) =? 0) forwardMoves in
          if nonEmpty crowningMoves then hd_error crowningMoves
          else
            let centerMoves :=
              filter (fun m => (2 <=? col (snd m)) && (col (snd m) <=? 5))
                     forwardMoves in
            if nonEmpty centerMoves then hd_error centerMoves
            else hd_error forwardMoves
        else pickRandom rnd possibleMoves
  end.

(** [selectMove], overridden per class; the class is named by its tier. *)
Definition selectMove (difficulty : AIDifficulty) (rnd : nat)
           (possibleMoves : list Candidate) : option Candidate :=
  match difficulty with
  | Easy => selectMoveEasy rnd possibleMoves
  | Medium => selectMoveMedium rnd possibleMoves
  | Hard => selectMoveHard rnd possibleMoves
  end.

(** The loop of [getNextMove] that fills [allPossibleMoves]. *)
Fixpoint collectMoves (board : Board) (aiPieces : list Piece)
  : js (list Candidate) :=
  match aiPieces with
  | [] => Ret []
  | piece :: rest =>
      validMoves <- getValidMovesForPiece piece board ;;
      others <- collectMoves board rest ;;
      Ret (map (fun move => (piece, move)) validMoves ++ others)
  end.

Definition getNextMove (difficulty : AIDifficulty) (rnd : nat)
           (gameState : GameState) : js (option Move) :=
  if negb (PlayerColor_eqb (currentPlayer gameState) playerColor) then Ret None
  else
    let aiPieces := getAIPieces gameState in
    if negb (nonEmpty aiPieces) then Ret None
    else
      allPossibleMoves <- collectMoves (board gameState) aiPieces ;;
      if negb (nonEmpty allPossibleMoves) then Ret None
      else
        match selectMove difficulty rnd allPossibleMoves with
        | None => Ret None
        | Some selectedMove =>
            Ret (Some (mkMove (fst selectedMove)
                              (position (fst selectedMove))
                              (snd selectedMove)
                              None))
        end.

(** *** Draft and placement of the computer opponent *)

(** [BaseAI.getDraftSelections], used by the Easy and Medium classes. *)
Definition getDraftSelectionsBase (difficulty : AIDifficulty)
  : list (PieceType * Z) :=
  [(normal, 6); (bagel, 2); (vinyl, 2)] ++
  match difficulty with
  | Easy => [(bomb, 1); (pancake, 4)]
  | Medium => [(bomb, 2); (pancake, 2); (flying_disk, 1)]
  | Hard => [(bomb, 1); (pancake, 1); (flying_disk, 2)]
  end.

(** [getDraftSelections] of the class of each tier; [HardAI] overrides
    it. *)
Definition getDraftSelections (difficulty : AIDifficulty)
  : list (PieceType * Z) :=
  match difficulty with
  | Hard => [(normal, 5); (bagel, 1); (vinyl, 1); (bomb, 1); (pancake, 2);
             (flying_disk, 2)]
  | _ => getDraftSelectionsBase difficulty
  end.

Definition getValidPlacementSquares : list Square :=
  flat_map
    (fun r =>
       flat_map
         (fun c => if Z.rem (r + c) 2 =? 1 then [mkSquare r c] else [])
         indices)
    (rowsFrom 5 8).

(** An entry of the placement decisions: [{piece, position}] *)
Definition Decision : Type := (Piece * Square)%type.

Definition centerColumns : list Z := [2; 3; 4; 5].
Definition edgeColumns : list Z := [0; 1; 6; 7].

(** [columns.includes(x)] *)
Definition includes (columns : list Z) (x : Z) : bool :=
  existsb (fun y => y =? x) columns.

(** The sort of [BaseAI.getPlacementDecisions]: stable, by descending
    piece value. *)
Fixpoint insertByValueDesc (x : Piece) (l : list Piece) : list Piece :=
  match l with
  | [] => [x]
  | y :: rest =>
      if getPieceValue (type x) <=? getPieceValue (type y)
      then y :: insertByValueDesc x rest
      else x :: l
  end.

Definition sortByValueDesc (l : list Piece) : list Piece :=
  fold_left (fun acc x => insertByValueDesc x acc) l [].

(** The loop of [BaseAI.getPlacementDecisions] over the pieces still to
    place. *)
Fixpoint assignSquares (edgeSquares : list Square) (pieces : list Piece)
         (currentSquares : list Square) (squareIndex : nat) : list Decision :=
  match pieces with
  | [] => []
  | piece :: rest =>
      if (List.length currentSquares <=? squareIndex)%nat then
        if (List.length edgeSquares =? 0)%nat then []            (* break *)
        else
          match nth_error edgeSquares 0 with
          | Some position =>
              (piece, position) :: assignSquares edgeSquares rest edgeSquares 1
          | None => []
          end
      else
        match nth_error currentSquares squareIndex with
        | Some position =>
            (piece, position)
              :: assignSquares edgeSquares rest currentSquares (S squareIndex)
        | None => []
        end
  end.

Definition getPlacementDecisionsBase (availablePieces : list Piece)
  : list Decision :=
  let validSquares := getValidPlacementSquares in
  let piecesToPlace := sortByValueDesc availablePieces in
  let centerSquares :=
    filter (fun sq => includes centerColumns (col sq)) validSquares in
  let edgeSquares :=
    filter (fun sq => includes edgeColumns (col sq)) validSquares in
  let currentSquares :=
    if nonEmpty centerSquares then centerSquares else edgeSquares in
  assignSquares edgeSquares piecesToPlace currentSquares 0.

(** [getNextPosition] of [HardAI.getPlacementDecisions]: the first of the
    squares that is not among the used positions. *)
Definition getNextPosition (usedPositions squares : list Square)
  : option Square :=
  hd_error
    (filter
       (fun sq =>
          negb (existsb (fun pos => (row pos =? row sq) && (col pos =? col sq))
                        usedPositions))
       squares).

(** [piecesByType[t]] *)
Definition piecesOfType (t : PieceType) (availablePieces : list Piece)
  : list Piece :=
  filter (fun piece => PieceType_eqb (type piece) t) availablePieces.

(** One of the six loops of [HardAI.getPlacementDecisions]; the state is
    the decisions made and the positions used so far. *)
Fixpoint placeGroup (choose : list Square -> option Square)
         (pieces : list Piece) (st : list Decision * list Square)
  : list Decision * list Square :=
  match pieces with
  | [] => st
  | piece :: rest =>
      match choose (snd st) with
      | Some position =>
          placeGroup choose rest
                     (fst st ++ [(piece, position)], snd st ++ [position])
      | None => placeGroup choose rest st
      end
  end.

Definition getPlacementDecisionsHard (availablePieces : list Piece)
  : list Decision :=
  let validSquares := getValidPlacementSquares in
  let centerSquares :=
    filter (fun sq => includes centerColumns (col sq)) validSquares in
  let edgeSquares :=
    filter (fun sq => includes edgeColumns (col sq)) validSquares in
  let backRow := filter (fun sq => row sq =? 7) validSquares in
  let st := placeGroup (fun used => getNextPosition used backRow)
                       (piecesOfType flying_disk availablePieces) ([], []) in
  let st := placeGroup (fun used => getNextPosition used centerSquares)
                       (piecesOfType pancake availablePieces) st in
  let frontRowSquares := filter (fun sq => row sq =? 5) validSquares in
  let st := placeGroup (fun used => getNextPosition used frontRowSquares)
                       (piecesOfType bomb availablePieces) st in
  let st := placeGroup (fun used => getNextPosition used edgeSquares)
                       (piecesOfType vinyl availablePieces) st in
  let st := placeGroup
              (fun used =>
                 match getNextPosition used centerSquares with
                 | Some position => Some position
                 | None => getNextPosition used validSquares
                 end)
              (piecesOfType bagel availablePieces) st in
  let st := placeGroup (fun used => getNextPosition used validSquares)
                       (piecesOfType normal availablePieces) st in
  fst st.

(** [getPlacementDecisions] of the class of each tier. *)
Definition getPlacementDecisions (difficulty : AIDifficulty)
           (availablePieces : list Piece) : list Decision :=
  match difficulty with
  | Hard => getPlacementDecisionsHard availablePieces
  | _ => getPlacementDecisionsBase availablePieces
  end.

End aiService.

(** ** Sample positions *)

Definition emptyBoard : Board := initializeEmptyBoard.

(** The board with the given pieces, each on the square of its position. *)
Definition put (b : Board) (p : Piece) : Board :=
  match boardSet b (row (position p)) (col (position p)) (Pc p) with
  | Ret b' => b'
  | _ => b
  end.

Definition boardOf (ps : list Piece) : Board := fold_left put ps emptyBoard.

Definition sq (r c : Z) : Square := mkSquare r c.

(** * Vocabulary of the properties *)

(** ** Boards of the declared type

    A [Board] of [game.ts] has eight rows of eight cells, each [null] or a
    piece; a piece records a square of the grid as its position. *)

Definition onBoard (s : Square) : bool := inBounds (row s) (col s).

Definition isUndef (c : cell) : bool :=
  match c with Undef => true | _ => false end.

Definition wfRow (rw : list cell) : bool :=
  (List.length rw =? 8)%nat && forallb (fun c => negb (isUndef c)) rw.

Definition wfBoard (b : Board) : bool :=
  (List.length b =? 8)%nat && forallb wfRow b.

Definition positioned (c : cell) : bool :=
  match c with
  | Pc p => onBoard (position p)
  | _ => true
  end.

Definition piecesOnBoard (b : Board) : bool := forallb (forallb positioned) b.

(** The content of a square, [Undef] outside the arrays. *)
Definition cellAt (b : Board) (r c : Z) : cell :=
  match nthZ b r with
  | Some rw => rowGet rw c
  | None => Undef
  end.

(** The loop tests of the generators, without the array reads. *)
Definition stepFree (b : Board) (m : Square) : bool :=
  inBounds (row m) (col m) && isNull (cellAt b (row m) (col m)).

Definition jumpFree (b : Board) (p : Piece) (j : Jump) : bool :=
  inBounds (endRow j) (endCol j) &&
  negb (isNull (cellAt b (midRow j) (midCol j))) &&
  playerDiffers (cellAt b (midRow j) (midCol j)) (player p) &&
  isNull (cellAt b (endRow j) (endCol j)).

Definition normalMoves (b : Board) (p : Piece) : list Square :=
  filter (stepFree b) (diagonalMoves p) ++
  map endSquare (filter (jumpFree b p) (captureMoves p)).

Definition pancakeMoves (b : Board) (p : Piece) : list Square :=
  filter (stepFree b) (possibleMoves p) ++
  map endSquare (filter (jumpFree b p) (captureDirections p)).

(** ** What a Normal destination is

    A destination of a Normal piece lies [k] steps along a diagonal, [k]
    being one or two, in a row direction [dr] the piece may take and a
    column direction [dc]; two steps need an opposing piece on the square
    in between. *)

Definition mayHead (p : Piece) (dr : Z) : Prop :=
  dr = direction p \/ (crowned p = true /\ dr = - direction p).

Definition normalDestination (b : Board) (p : Piece) (s : Square) : Prop :=
  exists dr dc k,
    mayHead p dr /\ (dc = 1 \/ dc = -1) /\ (k = 1 \/ k = 2) /\
    row s = row (position p) + k * dr /\
    col s = col (position p) + k * dc /\
    (k = 2 ->
     exists q, cellAt b (row (position p) + dr) (col (position p) + dc) = Pc q
               /\ player q <> player p).

(** ** What a Pancake destination is

    As a Normal destination, but in all four diagonal directions whatever
    the crown, and along the row ([dr = 0]) as well. *)

Definition pancakeDestination (b : Board) (p : Piece) (s : Square) : Prop :=
  exists dr dc k,
    (dr = 1 \/ dr = -1 \/ dr = 0) /\ (dc = 1 \/ dc = -1) /\ (k = 1 \/ k = 2) /\
    row s = row (position p) + k * dr /\
    col s = col (position p) + k * dc /\
    (k = 2 ->
     exists q, cellAt b (row (position p) + dr) (col (position p) + dc) = Pc q
               /\ player q <> player p).

(** ** Captures *)

(** The geometry that triggers a capture: two squares along a diagonal, or,
    for a pancake, two squares along the row. *)
Definition qualifyingJump (from to : Square) (p : Piece) : Prop :=
  (Z.abs (row to - row from) = 2 /\ Z.abs (col to - col from) = 2) \/
  (type p = pancake /\
   Z.abs (row to - row from) = 0 /\ Z.abs (col to - col from) = 2).

(** The square half-way between two squares. *)
Definition midpoint (from to : Square) : Square :=
  mkSquare ((row from + row to) / 2) ((col from + col to) / 2).

Definition contentOf (b : Board) (s : Square) : cell :=
  cellAt b (row s) (col s).

(** ** The win evaluator *)

(** The moves the scan of [checkWinCondition] finds for a piece, without
    the array reads. *)
Definition scanMovesOf (b : Board) (p : Piece) : list Square :=
  match type p with
  | normal => normalMoves b p
  | bagel => normalMoves b p
  | pancake => pancakeMoves b p
  | _ => []
  end.

(** The square holds a piece of the player, and the piece can move. *)
Definition canMove (b : Board) (c : PlayerColor) (s : Square) : bool :=
  match cellAt b (row s) (col s) with
  | Pc q => PlayerColor_eqb (player q) c && nonEmpty (scanMovesOf b q)
  | _ => false
  end.

(** The state with another move history. *)
Definition withHistory (gs : GameState) (h : list Move) : GameState :=
  mkGameState (phase gs) (currentPlayer gs) (board gs) (scores gs)
              (capturedPieces gs) h (pieceCounts gs) (gameActive gs).

(** Some piece of the player on the board has a legal move: the Move
    Generator, as the game asks it for the valid moves of a piece (a bagel
    with the move history of the state), lists a square. *)
Definition hasLegalMove (gs : GameState) (c : PlayerColor) : Prop :=
  exists r k q ms,
    cellAt (board gs) r k = Pc q /\ player q = c /\
    getValidMovesForPiece gs q = Ret ms /\ ms <> [].

(** Some bagel of the player on the board has a legal move under the
    history of the state and none without history. *)
Definition movesByHistoryAlone (gs : GameState) (c : PlayerColor) : Prop :=
  exists r k q ms,
    cellAt (board gs) r k = Pc q /\ player q = c /\ type q = bagel /\
    getBagelMoves (board gs) q (moveHistory gs) = Ret ms /\ ms <> [] /\
    getBagelMoves (board gs) q [] = Ret [].

(** ** The bagel's extra square *)

(** The extra square lies on a diagonal of the bagel, at any distance. *)
Definition onDiagonal (a t : Square) : Prop :=
  Z.abs (row t - row a) = Z.abs (col t - col a).

(** The row of the square is not behind the piece. *)
Definition notBackward (p : Piece) (t : Square) : Prop :=
  0 <= direction p * (row t - row (position p)).

Definition bagelReach (p : Piece) (t : Square) : Prop :=
  onDiagonal (position p) t /\ (crowned p = true \/ notBackward p t).

(** ** Crowns *)




(** The piece [movePiece] writes on the destination. *)
Definition movedPieceOf (cur : PlayerColor) (sel : Piece) (r c : Z) : Piece :=
  mkPiece (id sel) (type sel) (player sel)
          (if reachesFarRank cur r then true else crowned sel)
          (mkSquare r c).

(** ** The computer opponent *)

(** The history names a square of the grid as the origin of its last
    move. *)
Definition lastOriginOnBoard (h : list Move) : bool :=
  match lastMoveOf h with
  | Some m => onBoard (from m)
  | None => true
  end.

(** The verdict of the validator, [false] when it throws. *)
Definition accepts (b : Board) (p : Piece) (t : Square) : bool :=
  match isValidMove b (position p) t p with
  | Ret v => v
  | _ => false
  end.

(** The candidates the computer opponent collects for its pieces. *)
Definition candidatesOf (b : Board) (ps : list Piece)
  : list aiService.Candidate :=
  flat_map (fun p => map (fun t => (p, t)) (filter (accepts b p) allSquares)) ps.

(** Some piece of the computer opponent is listed a move by the generator
    of its variant. *)
Definition aiCanMove (gs : GameState) : Prop :=
  exists p ms,
    In p (aiService.getAIPieces gs) /\
    getValidMovesForPiece gs p = Ret ms /\ ms <> [].

(** The validator accepts a square of the grid for some piece of the
    computer opponent. *)
Definition aiIsAccepted (gs : GameState) : Prop :=
  exists p t,
    In p (aiService.getAIPieces gs) /\ onBoard t = true /\
    isValidMove (board gs) (position p) t p = Ret true.

(** ** The positions of the specification's scenarios, and others *)

(** One red Normal piece at (2,3), one blue Normal piece at (3,4). *)
Definition redNormal23 : Piece := mkPiece "red-normal-0" normal red false (sq 2 3).
Definition blueNormal34 : Piece := mkPiece "blue-normal-0" normal blue false (sq 3 4).
Definition scenarioBoard : Board := boardOf [redNormal23; blueNormal34].

Definition stateOf (ph : GamePhase) (cur : PlayerColor) (b : Board)
           (h : list Move) : GameState :=
  mkGameState ph cur b (mkPerPlayer 0 0) (mkPerPlayer [] []) h
              (mkPerPlayer 12 12) true.

(** Red has selected its piece on the scenario board. *)
Definition ctxScenario : Context :=
  mkContext (stateOf Play red scenarioBoard []) (Some redNormal23)
            [sq 3 2; sq 4 5]
            (mkPerPlayer initialSelections initialSelections).

(** A red bagel without crown at (0,1); blue has just moved a piece from
    (3,4) to (2,5). *)
Definition bagelA : Piece := mkPiece "red-bagel-0" bagel red false (sq 0 1).
Definition blueBefore : Piece := mkPiece "blue-normal-0" normal blue false (sq 3 4).
Definition blueAfter : Piece := mkPiece "blue-normal-0" normal blue false (sq 2 5).
Definition boardA : Board := boardOf [bagelA; blueAfter].
Definition historyA : list Move := [mkMove blueBefore (sq 3 4) (sq 2 5) None].

(** Placement has begun on an empty board. *)
Definition ctxPlacement : Context :=
  mkContext (stateOf Placement red emptyBoard []) None []
            (mkPerPlayer initialSelections initialSelections).
Definition redNew : Piece := mkPiece "red-normal-0" normal red false (sq 0 0).
Definition blueNew : Piece := mkPiece "blue-normal-0" normal blue false (sq 0 0).

(** A blue pancake without crown in the corner (0,7), a blue Normal piece
    beside it at (0,6); blue is to move. *)
Definition bluePancake07 : Piece := mkPiece "blue-pancake-0" pancake blue false (sq 0 7).
Definition blueNormal06 : Piece := mkPiece "blue-normal-1" normal blue false (sq 0 6).
Definition stateStuck : GameState :=
  stateOf Play blue (boardOf [bluePancake07; blueNormal06]) [].

(** Draft with red at twelve Normal pieces and blue at eleven. *)
Definition ctxDraft : Context :=
  mkContext (stateOf Draft red emptyBoard []) None []
            (mkPerPlayer
               [mkPieceSelection normal 12 12; mkPieceSelection bagel 0 6;
                mkPieceSelection pancake 0 6]
               [mkPieceSelection normal 11 12; mkPieceSelection bagel 0 6;
                mkPieceSelection pancake 0 6]).

(** A red Normal piece at (6,1), selected, with its moves listed. *)
Definition redNormal61 : Piece := mkPiece "red-normal-0" normal red false (sq 6 1).
Definition ctxCrowning : Context :=
  mkContext (stateOf Play red (boardOf [redNormal61]) [])
            (Some redNormal61) [sq 7 0; sq 7 2]
            (mkPerPlayer initialSelections initialSelections).

(** The red bagel at (0,1) hemmed in by blue pieces at (1,0), (1,2) and
    (2,3); blue has just moved the last of them there from (3,4).  Red is
    to move. *)
Definition blueNormal10 : Piece := mkPiece "blue-normal-1" normal blue false (sq 1 0).
Definition blueNormal12 : Piece := mkPiece "blue-normal-0" normal blue false (sq 1 2).
Definition blueNormal23 : Piece := mkPiece "blue-normal-2" normal blue false (sq 2 3).
Definition stateHemmed : GameState :=
  stateOf Play red (boardOf [bagelA; blueNormal10; blueNormal12; blueNormal23])
          [mkMove (mkPiece "blue-normal-2" normal blue false (sq 3 4))
                  (sq 3 4) (sq 2 3) None].

(** The scenario board before a piece is selected, with red and with blue
    to move. *)
Definition ctxRedToMove : Context :=
  mkContext (stateOf Play red scenarioBoard []) None []
            (mkPerPlayer initialSelections initialSelections).
Definition ctxBlueToMove : Context :=
  mkContext (stateOf Play blue scenarioBoard []) None []
            (mkPerPlayer initialSelections initialSelections).
Definition blueBomb50 : Piece := mkPiece "blue-bomb-0" bomb blue false (sq 5 0).

(** ** States the provider can reach *)

Inductive reachable : Context -> Prop :=
| reach_initial : reachable initialContext
| reach_step (ctx : Context) (cmd : Command) (ctx' : Context) :
    reachable ctx -> run ctx cmd = Ret ctx' -> reachable ctx'.

(** The counts of a draft list are within their maxima and the total is at
    most the roster size. *)
Definition selectionsOk (sels : list PieceSelection) : Prop :=
  Forall (fun s => 0 <= count s <= max s) sels /\
  selectionTotal sels <= TOTAL_PIECES_PER_PLAYER.

(** The variants a draft list offers, in its order. *)
Definition offered (sels : list PieceSelection) : list PieceType :=
  map sel_type sels.

(** The arguments of a command name squares of the grid, and a variant the
    draft lists offer. *)
Definition onGrid (cmd : Command) : Prop :=
  match cmd with
  | PlacePiece _ r c => inBounds r c = true
  | SelectPiece p => onBoard (position p) = true
  | TogglePieceSelection _ t _ => In t [normal; bagel; pancake]
  | _ => True
  end.

(** The state is in order: the board is an 8x8 grid of empty squares and
    pieces positioned on the grid, the selected piece and the listed moves
    are on the grid, the history ends with a move that started on the grid,
    and the draft lists offer the three variants with rules. *)
Definition stateOk (ctx : Context) : Prop :=
  wfBoard (board (gameState ctx)) = true /\
  piecesOnBoard (board (gameState ctx)) = true /\
  (forall sel, selectedPiece ctx = Some sel -> onBoard (position sel) = true) /\
  Forall (fun s => onBoard s = true) (validMoves ctx) /\
  lastOriginOnBoard (moveHistory (gameState ctx)) = true /\
  (forall who, offered (perPlayer (pieceSelections ctx) who)
               = [normal; bagel; pancake]).

(** The books balance: each player's list of captures is as long as the
    player's score, and the history holds as many capturing moves as the
    two scores sum to. *)
Definition booksBalance (gs : GameState) : Prop :=
  (forall who,
      Z.of_nat (List.length (perPlayer (capturedPieces gs) who))
      = perPlayer (scores gs) who) /\
  Z.of_nat (List.length (filter (fun m => isSome (captured m))
                                (moveHistory gs)))
  = ofRed (scores gs) + ofBlue (scores gs).

(** A session: the commands one after the other. *)
Fixpoint runAll (ctx : Context) (cmds : list Command) : js Context :=
  match cmds with
  | [] => Ret ctx
  | cmd :: rest => ctx' <- run ctx cmd ;; runAll ctx' rest
  end.

(** A session up to the first capture: both players draft twelve normal
    pieces, one piece of each is placed, and red jumps over blue. *)
Definition sessionWithCapture : list Command :=
  [StartGame] ++
  repeat (TogglePieceSelection red normal 0) 12 ++
  repeat (TogglePieceSelection blue normal 0) 12 ++
  [FinishDraft;
   PlacePiece (mkPiece "red-normal-0" normal red false (mkSquare 0 0)) 2 3;
   PlacePiece (mkPiece "blue-normal-0" normal blue false (mkSquare 0 0)) 3 4;
   FinishPlacement;
   SelectPiece (mkPiece "red-normal-0" normal red false (mkSquare 2 3));
   MovePiece 4 5].



Definition ctxAfterCapture : Context :=
  Eval vm_compute in
    match runAll initialContext sessionWithCapture with
    | Ret ctx => ctx
    | _ => initialContext
    end.

(** ** Placement by the computer opponent *)

(** [a] is worth at least as much as [b]. *)
Definition worthAtLeast (a b : Piece) : Prop :=
  aiService.getPieceValue (type b) <= aiService.getPieceValue (type a).

(** The positions the loop of [BaseAI.getPlacementDecisions] hands out to
    [n] pieces. *)
Fixpoint slots (edgeSquares : list Square) (n : nat)
         (currentSquares : list Square) (squareIndex : nat) : list Square :=
  match n with
  | O => []
  | S k =>
      if (List.length currentSquares <=? squareIndex)%nat then
        match nth_error edgeSquares 0 with
        | Some position => position :: slots edgeSquares k edgeSquares 1
        | None => []
        end
      else
        match nth_error currentSquares squareIndex with
        | Some position =>
            position :: slots edgeSquares k currentSquares (S squareIndex)
        | None => []
        end
  end.

(** The center and edge squares of the computer's territory. *)
Definition centerSquares : list Square :=
  filter (fun sq => aiService.includes aiService.centerColumns (col sq))
         aiService.getValidPlacementSquares.

Definition edgeSquares : list Square :=
  filter (fun sq => aiService.includes aiService.edgeColumns (col sq))
         aiService.getValidPlacementSquares.

(** The zone [HardAI.getPlacementDecisions] keeps for a variant. *)
Definition inZone (t : PieceType) (s : Square) : Prop :=
  match t with
  | flying_disk => row s = 7
  | pancake => 2 <= col s <= 5
  | bomb => row s = 5
  | vinyl => col s <= 1 \/ 6 <= col s
  | _ => True
  end.

(** The number of placement squares in the zone of a variant. *)
Definition zoneCapacity (t : PieceType) : nat :=
  match t with
  | flying_disk | bomb => 4
  | pancake | vinyl => 6
  | _ => 12
  end.

(** A decision takes a piece of the input to a placement square in the
    zone of its variant. *)
Definition decisionOk (availablePieces : list Piece)
           (d : aiService.Decision) : Prop :=
  In (fst d) availablePieces /\
  In (snd d) aiService.getValidPlacementSquares /\
  inZone (type (fst d)) (snd d).

(** The decisions and the used positions go together. *)
Definition tidy (availablePieces : list Piece)
           (st : list aiService.Decision * list Square) : Prop :=
  snd st = map snd (fst st) /\
  NoDup (snd st) /\
  Forall (decisionOk availablePieces) (fst st).

(** The choice of [HardAI.getPlacementDecisions] for a bagel and for a
    normal piece. *)
Definition chooseAnywhere (used : list Square) : option Square :=
  aiService.getNextPosition used aiService.getValidPlacementSquares.

Definition chooseCenterFirst (used : list Square) : option Square :=
  match aiService.getNextPosition used centerSquares with
  | Some position => Some position
  | None => aiService.getNextPosition used aiService.getValidPlacementSquares
  end.

(** ** The automatic set-up *)

(** [(row + col) % 2 !== 0] of a square. *)
Definition darkSquare (s : Square) : bool := isDark (row s) (col s).

(** The number of pieces a draft asks for. *)
Definition draftTotal (selections : list (PieceType * Z)) : Z :=
  fold_right (fun selection sum => snd selection + sum) 0 selections.

(** * Properties *)

(** ** Proof steps that recur *)

Ltac bool_to_prop :=
  repeat match goal with
  | H : _ && _ = true |- _ => apply andb_true_iff in H; destruct H
  | H : _ || _ = false |- _ => apply orb_false_iff in H; destruct H
  | H : negb _ = true |- _ => apply negb_true_iff in H
  | H : negb _ = false |- _ => apply negb_false_iff in H
  | H : (_ <=? _) = true |- _ => apply Z.leb_le in H
  | H : (_ <=? _) = false |- _ => apply Z.leb_gt in H
  | H : (_ <? _) = true |- _ => apply Z.ltb_lt in H
  | H : (_ <? _) = false |- _ => apply Z.ltb_ge in H
  | H : (_ =? _) = true |- _ => apply Z.eqb_eq in H
  | H : (_ =? _) = false |- _ => apply Z.eqb_neq in H
  end.

Ltac jump_shape :=
  split; [first [left; lia | right; split; [assumption | lia]] |];
  split; [first [left; lia | right; lia] |];
  repeat split; lia.

Ltac pick_member :=
  cbn [app In];
  repeat first [ solve [left; f_equal; lia] | right ].

Ltac step_shape :=
  split; [lia |]; split; [lia |]; split; [left; reflexivity |];
  cbn [row col]; split; [lia |]; split; [lia |]; intro; lia.

Ltac pancake_jump_shape :=
  split; [lia |]; split; [lia |]; repeat split; lia.

(** Case analysis on an integer in a range of literals. *)
Ltac split_range H :=
  match type of H with
  | ?a <= ?x <= ?b =>
      first
        [ exfalso; lia
        | let K := fresh in
          assert (K : x = a \/ a + 1 <= x <= b) by lia;
          clear H; destruct K as [-> | H]; [| cbn in H; split_range H] ]
  end.

(** ** Reading well-formed boards *)

Lemma inBounds_spec (r c : Z) :
  inBounds r c = true <-> 0 <= r < 8 /\ 0 <= c < 8.
Proof.
  unfold inBounds. split.
  - intros H. bool_to_prop. lia.
  - intros [[? ?] [? ?]].
    repeat (apply andb_true_iff; split);
      first [apply Z.leb_le | apply Z.ltb_lt]; lia.
Qed.

Lemma nthZ_in_range {A : Type} (l : list A) (i : Z) :
  0 <= i < Z.of_nat (List.length l) -> exists x, nthZ l i = Some x /\ In x l.
Proof.
  intros Hi. unfold nthZ.
  destruct (i <? 0) eqn:E; [apply Z.ltb_lt in E; lia |].
  destruct (nth_error l (Z.to_nat i)) eqn:N.
  - exists a. split; [reflexivity | eapply nth_error_In; eassumption].
  - apply nth_error_None in N. lia.
Qed.

Lemma nthZ_Some_range {A : Type} (l : list A) (i : Z) (x : A) :
  nthZ l i = Some x -> 0 <= i < Z.of_nat (List.length l) /\ In x l.
Proof.
  unfold nthZ. destruct (i <? 0) eqn:E; [discriminate |].
  apply Z.ltb_ge in E. intros N. split.
  - assert (Z.to_nat i < List.length l)%nat
      by (apply nth_error_Some; congruence). lia.
  - eapply nth_error_In; eassumption.
Qed.

Lemma cellAt_positioned (b : Board) (r c : Z) (p : Piece) :
  piecesOnBoard b = true -> cellAt b r c = Pc p -> onBoard (position p) = true.
Proof.
  unfold piecesOnBoard, cellAt. intros P.
  destruct (nthZ b r) as [rw |] eqn:E; [| discriminate].
  apply nthZ_Some_range in E. destruct E as [_ Hin].
  rewrite forallb_forall in P. specialize (P rw Hin).
  unfold rowGet. destruct (nthZ rw c) as [x |] eqn:Ex; [| discriminate].
  apply nthZ_Some_range in Ex. destruct Ex as [_ Hx]. intros ->.
  rewrite forallb_forall in P. exact (P _ Hx).
Qed.

Lemma pushWhen_pure {A B : Type} (cond : A -> js bool) (g : A -> bool)
      (f : A -> B) (xs : list A) :
  (forall x, In x xs -> cond x = Ret (g x)) ->
  pushWhen cond f xs = Ret (map f (filter g xs)).
Proof.
  induction xs as [| x rest IH]; intros H; simpl; [reflexivity |].
  rewrite (H x (or_introl eq_refl)). simpl.
  rewrite IH by (intros y Hy; apply H; now right). simpl.
  now destruct (g x).
Qed.

Lemma direction_cases (p : Piece) :
  (player p = red /\ direction p = 1) \/ (player p = blue /\ direction p = -1).
Proof. unfold direction. destruct (player p); auto. Qed.

(** Facts about one well-formed board, shared by all that follows. *)
Section WellFormedBoard.

Variable b : Board.
Hypothesis W : wfBoard b = true.

Lemma wfBoard_length : List.length b = 8%nat.
Proof.
  pose proof W as H. unfold wfBoard in H.
  apply andb_true_iff in H. destruct H as [H _].
  now apply Nat.eqb_eq in H.
Qed.

Lemma wfBoard_row (rw : list cell) :
  In rw b ->
  List.length rw = 8%nat /\ forall c, In c rw -> c <> Undef.
Proof.
  intros Hin. pose proof W as H. unfold wfBoard in H.
  apply andb_true_iff in H. destruct H as [_ H].
  rewrite forallb_forall in H. specialize (H rw Hin). unfold wfRow in H.
  apply andb_true_iff in H. destruct H as [L F]. apply Nat.eqb_eq in L.
  split; [exact L |]. intros c Hc ->. rewrite forallb_forall in F.
  specialize (F Undef Hc). discriminate.
Qed.

Lemma boardGet_cellAt (r c : Z) :
  0 <= r < 8 -> boardGet b r c = Ret (cellAt b r c).
Proof.
  intros Hr. unfold boardGet, cellAt.
  destruct (@nthZ_in_range _ b r) as [rw [E _]].
  - rewrite wfBoard_length. lia.
  - now rewrite E.
Qed.

Lemma cellAt_defined (r c : Z) :
  inBounds r c = true -> cellAt b r c <> Undef.
Proof.
  intros B. apply inBounds_spec in B. destruct B as [Hr Hc].
  unfold cellAt.
  destruct (@nthZ_in_range _ b r) as [rw [E Hin]].
  { rewrite wfBoard_length. lia. }
  rewrite E. destruct (wfBoard_row _ Hin) as [L F].
  unfold rowGet. destruct (@nthZ_in_range _ rw c) as [x [Ex Hx]].
  { rewrite L. lia. }
  rewrite Ex. now apply F.
Qed.

Lemma cellAt_inBounds (r c : Z) :
  cellAt b r c <> Undef -> inBounds r c = true.
Proof.
  unfold cellAt. destruct (nthZ b r) as [rw |] eqn:E; [| congruence].
  apply nthZ_Some_range in E. destruct E as [Hr Hin].
  destruct (wfBoard_row _ Hin) as [L _].
  unfold rowGet. destruct (nthZ rw c) as [x |] eqn:Ex; [| congruence].
  apply nthZ_Some_range in Ex. destruct Ex as [Hc _]. intros _.
  rewrite wfBoard_length in Hr. rewrite L in Hc.
  apply inBounds_spec. lia.
Qed.

(** The generators on the board. *)

Lemma stepOk_pure (m : Square) : stepOk b m = Ret (stepFree b m).
Proof.
  unfold stepOk, stepFree.
  destruct (inBounds (row m) (col m)) eqn:B; [| reflexivity].
  apply inBounds_spec in B. rewrite boardGet_cellAt by tauto. reflexivity.
Qed.

Lemma jumpOk_pure (p : Piece) (j : Jump) :
  (inBounds (endRow j) (endCol j) = true -> 0 <= midRow j < 8) ->
  jumpOk b p j = Ret (jumpFree b p j).
Proof.
  intros M. unfold jumpOk, jumpFree.
  destruct (inBounds (endRow j) (endCol j)) eqn:B; [| reflexivity].
  specialize (M eq_refl). apply inBounds_spec in B.
  rewrite !boardGet_cellAt by tauto. simpl.
  destruct (isNull (cellAt b (midRow j) (midCol j))); [reflexivity |].
  simpl.
  now destruct (playerDiffers (cellAt b (midRow j) (midCol j)) (player p)).
Qed.

Lemma getNormalMoves_pure (p : Piece) :
  onBoard (position p) = true ->
  getNormalMoves b p = Ret (normalMoves b p).
Proof.
  intros O. unfold getNormalMoves, normalMoves.
  rewrite (@pushWhen_pure _ _ (stepOk b) (stepFree b))
    by (intros; now apply stepOk_pure).
  cbn [bind]. rewrite map_id.
  rewrite (@pushWhen_pure _ _ (jumpOk b p) (jumpFree b p)); [reflexivity |].
  intros j Hj. apply jumpOk_pure. intros B.
  apply inBounds_spec in B. apply inBounds_spec in O.
  unfold captureMoves in Hj.
  destruct (direction_cases p) as [[_ D] | [_ D]]; rewrite D in Hj;
    destruct (crowned p); simpl in Hj;
    repeat (destruct Hj as [<- | Hj]; [simpl in *; lia |]);
    contradiction.
Qed.

Lemma getPancakeMoves_pure (p : Piece) :
  onBoard (position p) = true ->
  getPancakeMoves b p = Ret (pancakeMoves b p).
Proof.
  intros O. unfold getPancakeMoves, pancakeMoves.
  rewrite (@pushWhen_pure _ _ (stepOk b) (stepFree b))
    by (intros; now apply stepOk_pure).
  cbn [bind]. rewrite map_id.
  rewrite (@pushWhen_pure _ _ (jumpOk b p) (jumpFree b p)); [reflexivity |].
  intros j Hj. apply jumpOk_pure. intros B.
  apply inBounds_spec in B. apply inBounds_spec in O.
  unfold captureDirections in Hj. simpl in Hj.
  repeat (destruct Hj as [<- | Hj]; [simpl in *; lia |]).
  contradiction.
Qed.

End WellFormedBoard.

(** ** Normal destinations *)

Lemma PlayerColor_eqb_eq (a b : PlayerColor) :
  PlayerColor_eqb a b = true <-> a = b.
Proof. destruct a, b; simpl; split; congruence. Qed.

Lemma PlayerColor_eqb_neq (a b : PlayerColor) :
  PlayerColor_eqb a b = false <-> a <> b.
Proof. destruct a, b; simpl; split; congruence. Qed.

Lemma isNull_eq (c : cell) : isNull c = true <-> c = Null.
Proof. destruct c; simpl; split; congruence. Qed.

(** A cell that passes the middle tests of a jump holds an opposing piece,
    provided it is a cell of the grid. *)
Lemma opposing_cell (c : cell) (who : PlayerColor) :
  c <> Undef -> isNull c = false -> playerDiffers c who = true ->
  exists q, c = Pc q /\ player q <> who.
Proof.
  destruct c as [| | q]; simpl; try congruence. intros _ _ H.
  exists q. split; [reflexivity |].
  apply negb_true_iff in H. now apply PlayerColor_eqb_neq.
Qed.

Lemma jumpFree_spec (b : Board) (p : Piece) (j : Jump) :
  wfBoard b = true -> inBounds (midRow j) (midCol j) = true ->
  (jumpFree b p j = true <->
   inBounds (endRow j) (endCol j) = true /\
   cellAt b (endRow j) (endCol j) = Null /\
   exists q, cellAt b (midRow j) (midCol j) = Pc q /\ player q <> player p).
Proof.
  intros W M. unfold jumpFree. split.
  - intros H. apply andb_true_iff in H. destruct H as [H E].
    apply andb_true_iff in H. destruct H as [H D].
    apply andb_true_iff in H. destruct H as [B N].
    apply negb_true_iff in N. apply isNull_eq in E.
    repeat split; try assumption.
    apply opposing_cell; try assumption. now apply cellAt_defined.
  - intros [B [E [q [Q D]]]]. rewrite B, E, Q. simpl.
    apply PlayerColor_eqb_neq in D. now rewrite D.
Qed.

Lemma In_normalMoves (b : Board) (p : Piece) (s : Square) :
  wfBoard b = true -> onBoard (position p) = true ->
  (In s (normalMoves b p) <->
   onBoard s = true /\ cellAt b (row s) (col s) = Null /\
   normalDestination b p s).
Proof.
  intros W O. pose proof O as O'. apply inBounds_spec in O'.
  unfold normalMoves. rewrite in_app_iff, filter_In, in_map_iff. split.
  - intros [[Hin F] | [j [<- Hj]]].
    + unfold stepFree in F. apply andb_true_iff in F. destruct F as [B N].
      apply isNull_eq in N. split; [exact B |]. split; [exact N |].
      unfold diagonalMoves in Hin. apply in_app_iff in Hin.
      destruct Hin as [Hin | Hin].
      * simpl in Hin. destruct Hin as [<- | [<- | []]].
        -- exists (direction p), (-1), 1. unfold mayHead. cbn [row col].
           repeat split; auto; try lia; intro; lia.
        -- exists (direction p), 1, 1. unfold mayHead. cbn [row col].
           repeat split; auto; try lia; intro; lia.
      * destruct (crowned p) eqn:C; simpl in Hin; [| contradiction].
        destruct Hin as [<- | [<- | []]].
        -- exists (- direction p), (-1), 1. unfold mayHead. cbn [row col].
           repeat split; auto; try lia; intro; lia.
        -- exists (- direction p), 1, 1. unfold mayHead. cbn [row col].
           repeat split; auto; try lia; intro; lia.
    + apply filter_In in Hj. destruct Hj as [Hin F].
      assert (M : inBounds (midRow j) (midCol j) = true /\
                  exists dr dc, mayHead p dr /\ (dc = 1 \/ dc = -1) /\
                    midRow j = row (position p) + dr /\
                    midCol j = col (position p) + dc /\
                    endRow j = row (position p) + 2 * dr /\
                    endCol j = col (position p) + 2 * dc).
      { assert (B : inBounds (endRow j) (endCol j) = true).
        { unfold jumpFree in F. now bool_to_prop. }
        apply inBounds_spec in B.
        unfold captureMoves in Hin. apply in_app_iff in Hin.
        destruct (direction_cases p) as [[_ D] | [_ D]];
          (destruct Hin as [Hin | Hin];
           [ simpl in Hin; destruct Hin as [<- | [<- | []]]
           | destruct (crowned p) eqn:C; simpl in Hin; [| contradiction];
             destruct Hin as [<- | [<- | []]] ]);
          cbn [midRow midCol endRow endCol] in *; rewrite D in *;
          (split; [apply inBounds_spec; lia |]).
        all: unfold mayHead; rewrite D;
          first [ exists 1, (-1); solve [jump_shape]
                | exists 1, 1; solve [jump_shape]
                | exists (-1), (-1); solve [jump_shape]
                | exists (-1), 1; solve [jump_shape] ]. }
      destruct M as [M [dr [dc [Hd [Hc [Mr [Mc [Er Ec]]]]]]]].
      apply (jumpFree_spec b p j W M) in F. destruct F as [B [E Q]].
      split; [exact B |]. split; [exact E |].
      exists dr, dc, 2. rewrite <- Mr, <- Mc.
      repeat split; auto.
  - intros [B [N [dr [dc [k [Hd [Hc [Hk [Hr [Hcl Q]]]]]]]]]].
    destruct s as [sr sc]. cbn [row col] in *.
    destruct Hk as [-> | ->].
    + left. split.
      * unfold diagonalMoves.
        destruct Hd as [-> | [C ->]]; [| rewrite C];
          destruct Hc as [-> | ->]; subst sr sc;
          pick_member.
      * unfold stepFree. simpl. unfold onBoard in B. simpl in B.
        rewrite B, N. reflexivity.
    + right. destruct (Q eq_refl) as [q [Hq Dq]].
      exists (mkJump (row (position p) + dr) (col (position p) + dc) sr sc).
      split; [reflexivity |]. apply filter_In. split.
      * unfold captureMoves.
        destruct Hd as [-> | [C ->]]; [| rewrite C];
          destruct Hc as [-> | ->]; subst sr sc;
          pick_member.
      * apply jumpFree_spec; [exact W | |].
        -- simpl. unfold onBoard in B. simpl in B.
           apply inBounds_spec in B. apply inBounds_spec.
           destruct (direction_cases p) as [[_ D] | [_ D]];
             destruct Hd as [-> | [_ ->]]; destruct Hc as [-> | ->]; lia.
        -- simpl. split; [exact B |]. split; [exact N |]. now exists q.
Qed.

(** ** Pancake destinations *)

Lemma In_pancakeMoves (b : Board) (p : Piece) (s : Square) :
  wfBoard b = true -> onBoard (position p) = true ->
  (In s (pancakeMoves b p) <->
   onBoard s = true /\ cellAt b (row s) (col s) = Null /\
   pancakeDestination b p s).
Proof.
  intros W O. pose proof O as O'. apply inBounds_spec in O'.
  unfold pancakeMoves. rewrite in_app_iff, filter_In, in_map_iff. split.
  - intros [[Hin F] | [j [<- Hj]]].
    + unfold stepFree in F. apply andb_true_iff in F. destruct F as [B N].
      apply isNull_eq in N. split; [exact B |]. split; [exact N |].
      unfold possibleMoves in Hin. cbn [In] in Hin.
      unfold pancakeDestination.
      repeat (destruct Hin as [<- | Hin];
              [ first [ exists 1, 1, 1; solve [step_shape]
                      | exists 1, (-1), 1; solve [step_shape]
                      | exists (-1), 1, 1; solve [step_shape]
                      | exists (-1), (-1), 1; solve [step_shape]
                      | exists 0, 1, 1; solve [step_shape]
                      | exists 0, (-1), 1; solve [step_shape] ] |]).
      contradiction.
    + apply filter_In in Hj. destruct Hj as [Hin F].
      assert (M : inBounds (midRow j) (midCol j) = true /\
                  exists dr dc, (dr = 1 \/ dr = -1 \/ dr = 0) /\
                    (dc = 1 \/ dc = -1) /\
                    midRow j = row (position p) + dr /\
                    midCol j = col (position p) + dc /\
                    endRow j = row (position p) + 2 * dr /\
                    endCol j = col (position p) + 2 * dc).
      { assert (B : inBounds (endRow j) (endCol j) = true).
        { unfold jumpFree in F. now bool_to_prop. }
        apply inBounds_spec in B.
        unfold captureDirections in Hin. cbn [In] in Hin.
        repeat (destruct Hin as [<- | Hin];
                [ cbn [midRow midCol endRow endCol] in *;
                  (split; [apply inBounds_spec; lia |]);
                  first [ exists 1, 1; solve [pancake_jump_shape]
                        | exists 1, (-1); solve [pancake_jump_shape]
                        | exists (-1), 1; solve [pancake_jump_shape]
                        | exists (-1), (-1); solve [pancake_jump_shape]
                        | exists 0, 1; solve [pancake_jump_shape]
                        | exists 0, (-1); solve [pancake_jump_shape] ] |]).
        contradiction. }
      destruct M as [M [dr [dc [Hd [Hc [Mr [Mc [Er Ec]]]]]]]].
      apply (jumpFree_spec b p j W M) in F. destruct F as [B [E Q]].
      split; [exact B |]. split; [exact E |].
      exists dr, dc, 2. rewrite <- Mr, <- Mc.
      repeat split; auto.
  - intros [B [N [dr [dc [k [Hd [Hc [Hk [Hr [Hcl Q]]]]]]]]]].
    destruct s as [sr sc]. cbn [row col] in *.
    destruct Hk as [-> | ->].
    + left. split.
      * unfold possibleMoves.
        destruct Hd as [-> | [-> | ->]]; destruct Hc as [-> | ->];
          subst sr sc; pick_member.
      * unfold stepFree. cbn [row col]. unfold onBoard in B. cbn [row col] in B.
        rewrite B, N. reflexivity.
    + right. destruct (Q eq_refl) as [q [Hq Dq]].
      exists (mkJump (row (position p) + dr) (col (position p) + dc) sr sc).
      split; [reflexivity |]. apply filter_In. split.
      * unfold captureDirections.
        destruct Hd as [-> | [-> | ->]]; destruct Hc as [-> | ->];
          subst sr sc; pick_member.
      * apply jumpFree_spec; [exact W | |].
        -- cbn [midRow midCol]. unfold onBoard in B. cbn [row col] in B.
           apply inBounds_spec in B. apply inBounds_spec.
           destruct Hd as [-> | [-> | ->]]; destruct Hc as [-> | ->]; lia.
        -- cbn [midRow midCol endRow endCol].
           split; [exact B |]. split; [exact N |]. now exists q.
Qed.

(** ** The validator on well-formed boards *)

Lemma mayHead_iff (p : Piece) (dr k : Z) :
  (dr = 1 \/ dr = -1) -> 0 < k ->
  (mayHead p dr <-> crowned p || isForwardMove p (k * dr) = true).
Proof.
  intros Hd Hk. unfold mayHead, isForwardMove, direction.
  destruct (player p), (crowned p); simpl; split; intros H;
    try reflexivity;
    try (destruct H as [H | [? H]]; try discriminate;
         first [apply Z.ltb_lt | idtac]; lia);
    try (apply Z.ltb_lt in H); try lia;
    destruct Hd; subst; try lia; auto.
Qed.

Lemma mayHead_unit (p : Piece) (dr : Z) : mayHead p dr -> dr = 1 \/ dr = -1.
Proof.
  unfold mayHead, direction. destruct (player p); intros [-> | [_ ->]]; lia.
Qed.

Lemma isValidMove_true (b : Board) (f t : Square) (p : Piece) :
  isValidMove b f t p = Ret true ->
  onBoard t = true /\ cellAt b (row t) (col t) = Null.
Proof.
  unfold isValidMove, boardGet, cellAt, onBoard.
  destruct (nthZ b (row t)) as [rw |]; cbn [bind]; [| discriminate].
  destruct (isNull (rowGet rw (col t))) eqn:N; cbn [negb]; [| discriminate].
  destruct ((row t <? 0) || (7 <? row t) || (col t <? 0) || (7 <? col t))
    eqn:B; [discriminate |].
  intros _. split; [| now apply isNull_eq].
  bool_to_prop. apply inBounds_spec. lia.
Qed.

Lemma isValidMove_onBoard (b : Board) (f t : Square) (p : Piece) :
  wfBoard b = true -> onBoard t = true -> cellAt b (row t) (col t) = Null ->
  isValidMove b f t p =
  match type p with
  | normal => isValidNormalMove b f t p
  | bagel => isValidBagelMove b f t p
  | pancake => isValidPancakeMove b f t p
  | _ => Ret false
  end.
Proof.
  intros W T N. unfold onBoard in T. pose proof T as T'.
  apply inBounds_spec in T'. unfold isValidMove.
  rewrite boardGet_cellAt by tauto. rewrite N. cbn [bind isNull negb].
  replace ((row t <? 0) || (7 <? row t) || (col t <? 0) || (7 <? col t))
    with false; [reflexivity |].
  symmetry. repeat (apply orb_false_iff; split); apply Z.ltb_ge; lia.
Qed.

Lemma isValidNormalMove_spec (b : Board) (p : Piece) (t : Square) :
  wfBoard b = true -> onBoard (position p) = true -> onBoard t = true ->
  exists v, isValidNormalMove b (position p) t p = Ret v /\
            (v = true <-> normalDestination b p t).
Proof.
  intros W O T. unfold onBoard in O, T.
  apply inBounds_spec in O. apply inBounds_spec in T.
  unfold isValidNormalMove.
  set (rD := row t - row (position p)).
  set (cD := col t - col (position p)).
  destruct ((Z.abs rD =? 1) && (Z.abs cD =? 1)) eqn:E1.
  - eexists. split; [reflexivity |]. bool_to_prop.
    assert (Hr : rD = 1 \/ rD = -1) by lia.
    assert (Hc : cD = 1 \/ cD = -1) by lia.
    rewrite <- (Z.mul_1_l rD) at 1.
    rewrite <- (mayHead_iff p Hr (k := 1)) by lia. split.
    + intros M. exists rD, cD, 1. repeat split; auto; try lia; intro; lia.
    + intros [dr [dc [k [Hd [Hdc [Hk [Er [Ec _]]]]]]]].
      pose proof (mayHead_unit Hd). replace rD with dr by lia. exact Hd.
  - destruct ((Z.abs rD =? 2) && (Z.abs cD =? 2)) eqn:E2.
    + bool_to_prop.
      assert (Hr : exists dr, (dr = 1 \/ dr = -1) /\ rD = 2 * dr /\ rD / 2 = dr).
      { assert (C : rD = 2 \/ rD = -2) by lia.
        destruct C as [-> | ->]; [exists 1 | exists (-1)]; auto. }
      assert (Hc : exists dc, (dc = 1 \/ dc = -1) /\ cD = 2 * dc /\ cD / 2 = dc).
      { assert (C : cD = 2 \/ cD = -2) by lia.
        destruct C as [-> | ->]; [exists 1 | exists (-1)]; auto. }
      destruct Hr as [dr [Hdr [Rr ->]]]. destruct Hc as [dc [Hdc [Rc ->]]].
      assert (M : inBounds (row (position p) + dr) (col (position p) + dc) = true)
        by (apply inBounds_spec; lia).
      rewrite boardGet_cellAt by (apply inBounds_spec in M; tauto).
      cbn [bind]. pose proof (@cellAt_defined _ W _ _ M) as Dm.
      rewrite Rr.
      assert (Back : normalDestination b p t ->
                     mayHead p dr /\
                     exists q, cellAt b (row (position p) + dr)
                                        (col (position p) + dc) = Pc q /\
                               player q <> player p).
      { intros [dr' [dc' [k [Hd [Hdc' [Hk [Er [Ec Q]]]]]]]].
        pose proof (mayHead_unit Hd).
        assert (k = 2) by lia. subst k.
        assert (dr' = dr) by lia. assert (dc' = dc) by lia. subst dr' dc'.
        split; [exact Hd | now apply Q]. }
      destruct (crowned p || isForwardMove p (2 * dr)) eqn:F.
      * assert (Hd : mayHead p dr) by (apply (mayHead_iff p Hdr (k := 2)); [lia | exact F]).
        destruct (cellAt b (row (position p) + dr) (col (position p) + dc))
          as [| | q] eqn:Cq; [congruence | |].
        -- eexists. split; [reflexivity |]. split; [discriminate |].
           intros D. destruct (Back D) as [_ [q [? _]]]. discriminate.
        -- eexists. split; [reflexivity |].
           rewrite negb_true_iff, PlayerColor_eqb_neq. split.
           ++ intros D. exists dr, dc, 2. repeat split; auto; try lia.
              intros _. exists q. rewrite Cq. auto.
           ++ intros D. destruct (Back D) as [_ [q' [Eq' ?]]]. congruence.
      * eexists. split; [reflexivity |]. split; [discriminate |].
        intros D. destruct (Back D) as [Hd _].
        apply (mayHead_iff p Hdr (k := 2)) in Hd; [congruence | lia].
    + eexists. split; [reflexivity |]. split; [discriminate |].
      intros [dr [dc [k [Hd [Hdc [Hk [Er [Ec _]]]]]]]].
      pose proof (mayHead_unit Hd). exfalso.
      assert (A1 : Z.abs rD = k) by lia. assert (A2 : Z.abs cD = k) by lia.
      destruct Hk as [-> | ->].
      * rewrite A1, A2 in E1. discriminate.
      * rewrite A1, A2 in E2. discriminate.
Qed.

Lemma normal_is_pancake_destination (b : Board) (p : Piece) (s : Square) :
  normalDestination b p s -> pancakeDestination b p s.
Proof.
  intros [dr [dc [k [Hd [Hdc [Hk [Er [Ec Q]]]]]]]].
  exists dr, dc, k. pose proof (mayHead_unit Hd).
  repeat split; auto. tauto.
Qed.

Lemma crowned_pancake_destination (b : Board) (p : Piece) (s : Square) :
  crowned p = true -> pancakeDestination b p s ->
  normalDestination b p s \/
  (row s = row (position p) /\
   exists dc k, (dc = 1 \/ dc = -1) /\ (k = 1 \/ k = 2) /\
     col s = col (position p) + k * dc /\
     (k = 2 ->
      exists q, cellAt b (row (position p)) (col (position p) + dc) = Pc q
                /\ player q <> player p)).
Proof.
  intros C [dr [dc [k [Hd [Hdc [Hk [Er [Ec Q]]]]]]]].
  destruct Hd as [-> | [-> | ->]].
  - left. exists 1, dc, k. repeat split; auto. unfold mayHead.
    destruct (direction_cases p) as [[_ ->] | [_ ->]]; auto.
  - left. exists (-1), dc, k. repeat split; auto. unfold mayHead.
    destruct (direction_cases p) as [[_ ->] | [_ ->]]; auto.
  - right. split; [lia |]. exists dc, k. repeat split; auto.
    intros K. destruct (Q K) as [q Hq]. exists q.
    now rewrite Z.add_0_r in Hq.
Qed.

Lemma isValidPancakeMove_spec (b : Board) (p : Piece) (t : Square) :
  wfBoard b = true -> onBoard (position p) = true -> onBoard t = true ->
  cellAt b (row t) (col t) = Null ->
  exists v, isValidPancakeMove b (position p) t p = Ret v /\
            (v = true -> pancakeDestination b p t) /\
            (crowned p = true -> pancakeDestination b p t -> v = true).
Proof.
  intros W O T N.
  destruct (isValidNormalMove_spec b p t W O T) as [v1 [E1 I1]].
  unfold onBoard in O, T. pose proof O as O'. pose proof T as T'.
  apply inBounds_spec in O'. apply inBounds_spec in T'.
  unfold isValidPancakeMove. rewrite E1. cbn [bind].
  destruct v1.
  { eexists. split; [reflexivity |]. split; [| reflexivity].
    intros _. apply normal_is_pancake_destination. now apply I1. }
  set (rD := row t - row (position p)).
  set (cD := col t - col (position p)).
  assert (NoNormal : ~ normalDestination b p t)
    by (intros D; apply I1 in D; discriminate).
  destruct ((Z.abs rD =? 0) && (Z.abs cD =? 1)) eqn:L1.
  - rewrite boardGet_cellAt by tauto. rewrite N. cbn [bind isNull].
    eexists. split; [reflexivity |]. split; [| reflexivity].
    intros _. bool_to_prop. exists 0, cD, 1.
    repeat split; auto; try lia; intro; lia.
  - cbn [bind].
    destruct ((Z.abs rD =? 0) && (Z.abs cD =? 2)) eqn:L2.
    + bool_to_prop.
      assert (Hc : exists dc, (dc = 1 \/ dc = -1) /\ cD = 2 * dc /\ cD / 2 = dc).
      { assert (C : cD = 2 \/ cD = -2) by lia.
        destruct C as [-> | ->]; [exists 1 | exists (-1)]; auto. }
      destruct Hc as [dc [Hdc [Rc ->]]].
      assert (M : inBounds (row (position p)) (col (position p) + dc) = true)
        by (apply inBounds_spec; lia).
      rewrite boardGet_cellAt by tauto. cbn [bind].
      pose proof (@cellAt_defined _ W _ _ M) as Dm.
      destruct (cellAt b (row (position p)) (col (position p) + dc))
        as [| | q] eqn:Cq; [congruence | |].
      * eexists. split; [reflexivity |]. split; [discriminate |].
        intros C D. destruct (crowned_pancake_destination C D)
          as [D' | [_ [dc' [k [Hdc' [Hk [Ec Q]]]]]]]; [contradiction |].
        assert (k = 2) by lia. subst k. assert (dc' = dc) by lia. subst dc'.
        destruct (Q eq_refl) as [q [Hq _]]. congruence.
      * eexists. split; [reflexivity |].
        rewrite negb_true_iff, PlayerColor_eqb_neq. split.
        -- intros D. exists 0, dc, 2. repeat split; auto; try lia.
           intros _. exists q. rewrite Z.add_0_r, Cq. auto.
        -- intros C D. destruct (crowned_pancake_destination C D)
             as [D' | [_ [dc' [k [Hdc' [Hk [Ec Q]]]]]]]; [contradiction |].
           assert (k = 2) by lia. subst k. assert (dc' = dc) by lia. subst dc'.
           destruct (Q eq_refl) as [q' [Hq ?]]. congruence.
    + eexists. split; [reflexivity |]. split; [discriminate |].
      intros C D. exfalso. destruct (crowned_pancake_destination C D)
        as [D' | [Er [dc' [k [Hdc' [Hk [Ec Q]]]]]]]; [contradiction |].
      assert (A1 : Z.abs rD = 0) by lia. assert (A2 : Z.abs cD = k) by lia.
      destruct Hk as [-> | ->].
      * rewrite A1, A2 in L1. discriminate.
      * rewrite A1, A2 in L2. discriminate.
Qed.

Lemma normal_destination_headed (b : Board) (p : Piece) (s : Square) :
  normalDestination b p s -> crowned p = true \/ notBackward p s.
Proof.
  intros [dr [dc [k [Hd [_ [Hk [Er _]]]]]]].
  destruct Hd as [-> | [C _]]; [right | now left].
  unfold notBackward. rewrite Er.
  destruct (direction_cases p) as [[_ ->] | [_ ->]]; lia.
Qed.

Lemma headed_pancake_destination (b : Board) (p : Piece) (s : Square) :
  crowned p = true \/ notBackward p s -> pancakeDestination b p s ->
  normalDestination b p s \/
  (row s = row (position p) /\
   exists dc k, (dc = 1 \/ dc = -1) /\ (k = 1 \/ k = 2) /\
     col s = col (position p) + k * dc /\
     (k = 2 ->
      exists q, cellAt b (row (position p)) (col (position p) + dc) = Pc q
                /\ player q <> player p)).
Proof.
  intros H D. destruct H as [C | F];
    [now apply crowned_pancake_destination |].
  destruct D as [dr [dc [k [Hd [Hdc [Hk [Er [Ec Q]]]]]]]].
  assert (G : dr = direction p \/ dr = 0).
  { unfold notBackward in F. rewrite Er in F.
    destruct (direction_cases p) as [[_ E] | [_ E]]; rewrite E in *; lia. }
  destruct G as [-> | ->].
  - left. exists (direction p), dc, k. repeat split; auto. now left.
  - right. split; [lia |]. exists dc, k. repeat split; auto.
    intros K. destruct (Q K) as [q Hq]. exists q.
    now rewrite Z.add_0_r in Hq.
Qed.

Lemma isValidPancakeMove_exact (b : Board) (p : Piece) (t : Square) :
  wfBoard b = true -> onBoard (position p) = true -> onBoard t = true ->
  cellAt b (row t) (col t) = Null ->
  exists v, isValidPancakeMove b (position p) t p = Ret v /\
            (v = true <->
             pancakeDestination b p t /\
             (crowned p = true \/ notBackward p t)).
Proof.
  intros W O T N.
  destruct (isValidNormalMove_spec b p t W O T) as [v1 [E1 I1]].
  unfold onBoard in O, T. pose proof O as O'. pose proof T as T'.
  apply inBounds_spec in O'. apply inBounds_spec in T'.
  unfold isValidPancakeMove. rewrite E1. cbn [bind].
  destruct v1.
  { eexists. split; [reflexivity |]. split; [| reflexivity].
    intros _. assert (D : normalDestination b p t) by now apply I1.
    split; [now apply normal_is_pancake_destination |].
    now apply (normal_destination_headed D). }
  set (rD := row t - row (position p)).
  set (cD := col t - col (position p)).
  assert (NoNormal : ~ normalDestination b p t)
    by (intros D; apply I1 in D; discriminate).
  assert (Level : Z.abs rD = 0 -> notBackward p t).
  { intros A. unfold notBackward. fold rD.
    assert (Z0 : rD = 0) by lia. rewrite Z0. lia. }
  destruct ((Z.abs rD =? 0) && (Z.abs cD =? 1)) eqn:L1.
  - rewrite boardGet_cellAt by tauto. rewrite N. cbn [bind isNull].
    eexists. split; [reflexivity |]. split; [| reflexivity].
    intros _. bool_to_prop. split; [| right; apply Level; lia].
    exists 0, cD, 1.
    repeat split; auto; try lia; intro; lia.
  - cbn [bind].
    destruct ((Z.abs rD =? 0) && (Z.abs cD =? 2)) eqn:L2.
    + bool_to_prop.
      assert (Hc : exists dc, (dc = 1 \/ dc = -1) /\ cD = 2 * dc /\ cD / 2 = dc).
      { assert (C : cD = 2 \/ cD = -2) by lia.
        destruct C as [-> | ->]; [exists 1 | exists (-1)]; auto. }
      destruct Hc as [dc [Hdc [Rc ->]]].
      assert (M : inBounds (row (position p)) (col (position p) + dc) = true)
        by (apply inBounds_spec; lia).
      rewrite boardGet_cellAt by tauto. cbn [bind].
      pose proof (@cellAt_defined _ W _ _ M) as Dm.
      destruct (cellAt b (row (position p)) (col (position p) + dc))
        as [| | q] eqn:Cq; [congruence | |].
      * eexists. split; [reflexivity |]. split; [discriminate |].
        intros [D Hh]. destruct (headed_pancake_destination Hh D)
          as [D' | [_ [dc' [k [Hdc' [Hk [Ec Q]]]]]]]; [contradiction |].
        assert (k = 2) by lia. subst k. assert (dc' = dc) by lia. subst dc'.
        destruct (Q eq_refl) as [q [Hq _]]. congruence.
      * eexists. split; [reflexivity |].
        rewrite negb_true_iff, PlayerColor_eqb_neq. split.
        -- intros D. split; [| right; apply Level; lia].
           exists 0, dc, 2. repeat split; auto; try lia.
           intros _. exists q. rewrite Z.add_0_r, Cq. auto.
        -- intros [D Hh]. destruct (headed_pancake_destination Hh D)
             as [D' | [_ [dc' [k [Hdc' [Hk [Ec Q]]]]]]]; [contradiction |].
           assert (k = 2) by lia. subst k. assert (dc' = dc) by lia. subst dc'.
           destruct (Q eq_refl) as [q' [Hq ?]]. congruence.
    + eexists. split; [reflexivity |]. split; [discriminate |].
      intros [D Hh]. exfalso. destruct (headed_pancake_destination Hh D)
        as [D' | [Er [dc' [k [Hdc' [Hk [Ec Q]]]]]]]; [contradiction |].
      assert (A1 : Z.abs rD = 0) by lia. assert (A2 : Z.abs cD = k) by lia.
      destruct Hk as [-> | ->].
      * rewrite A1, A2 in L1. discriminate.
      * rewrite A1, A2 in L2. discriminate.
Qed.

(** ** Validator and generators compared *)

Lemma isValidMove_normal_iff (b : Board) (p : Piece) (t : Square) :
  wfBoard b = true -> onBoard (position p) = true ->
  type p = normal \/ type p = bagel ->
  (isValidMove b (position p) t p = Ret true <-> In t (normalMoves b p)).
Proof.
  intros W O Ty. rewrite (In_normalMoves b p t W O). split.
  - intros V. destruct (isValidMove_true _ _ _ _ V) as [T N].
    split; [exact T |]. split; [exact N |].
    rewrite (isValidMove_onBoard b (position p) t p W T N) in V.
    destruct (isValidNormalMove_spec b p t W O T) as [v [E I]].
    apply I. unfold isValidBagelMove in V.
    destruct Ty as [Ty | Ty]; rewrite Ty in V; rewrite E in V;
      cbn [bind] in V; destruct v; congruence.
  - intros [T [N D]].
    rewrite (isValidMove_onBoard b (position p) t p W T N).
    destruct (isValidNormalMove_spec b p t W O T) as [v [E I]].
    apply I in D. subst v. unfold isValidBagelMove.
    destruct Ty as [Ty | Ty]; rewrite Ty; rewrite E; reflexivity.
Qed.

Lemma getBagelMoves_shape (b : Board) (p : Piece) (h : list Move)
      (ms : list Square) :
  wfBoard b = true -> onBoard (position p) = true ->
  getBagelMoves b p h = Ret ms -> exists special, ms = normalMoves b p ++ special.
Proof.
  intros W O. unfold getBagelMoves. rewrite (@getNormalMoves_pure _ W p O).
  cbn [bind].
  match goal with
  | |- bind ?m _ = _ -> _ => destruct m as [special | |]; cbn [bind]
  end; try discriminate.
  intros E. injection E as <-. now exists special.
Qed.

Lemma getBagelMoves_no_history (b : Board) (p : Piece) :
  wfBoard b = true -> onBoard (position p) = true ->
  getBagelMoves b p [] = Ret (normalMoves b p).
Proof.
  intros W O. unfold getBagelMoves. rewrite (@getNormalMoves_pure _ W p O).
  cbn. now rewrite app_nil_r.
Qed.

(** C1 (as amended).  On a well-formed board, for a piece that stands on
    the board and is moved from its own position: the validator accepts a
    destination of a Normal piece exactly when [getNormalMoves] lists it;
    it accepts a destination of a Bagel exactly when the history-free
    generator ([getBagelMoves] with an empty history) lists it, and what it
    accepts is listed by [getBagelMoves] under every history; it accepts a
    destination of a Pancake exactly when [getPancakeMoves] lists it and
    the Pancake is crowned or the destination row is not behind it (the
    same row or a forward row): of what [getPancakeMoves] lists, only the
    backward diagonals of a Pancake without crown are rejected. *)
Theorem isValidMove_agrees_with_generators
        (b : Board) (p : Piece) (t : Square) :
  wfBoard b = true -> onBoard (position p) = true ->
  (type p = normal ->
   (isValidMove b (position p) t p = Ret true <->
    exists ms, getNormalMoves b p = Ret ms /\ In t ms)) /\
  (type p = bagel ->
   (isValidMove b (position p) t p = Ret true <->
    exists ms, getBagelMoves b p [] = Ret ms /\ In t ms) /\
   (forall h ms, getBagelMoves b p h = Ret ms ->
                 isValidMove b (position p) t p = Ret true -> In t ms)) /\
  (type p = pancake ->
   (isValidMove b (position p) t p = Ret true <->
    exists ms, getPancakeMoves b p = Ret ms /\ In t ms /\
               (crowned p = true \/ notBackward p t))).
Proof.
  intros W O. split; [| split].
  - intros Ty. rewrite (@getNormalMoves_pure _ W p O).
    rewrite (isValidMove_normal_iff b p t W O (or_introl Ty)). split.
    + intros H. eexists. split; [reflexivity | exact H].
    + intros [ms [E H]]. injection E as <-. exact H.
  - intros Ty. split.
    + rewrite (getBagelMoves_no_history b p W O).
      rewrite (isValidMove_normal_iff b p t W O (or_intror Ty)). split.
      * intros H. eexists. split; [reflexivity | exact H].
      * intros [ms [E H]]. injection E as <-. exact H.
    + intros h ms E V.
      destruct (getBagelMoves_shape b p h W O E) as [special ->].
      apply in_or_app. left.
      now apply (isValidMove_normal_iff b p t W O (or_intror Ty)).
  - intros Ty. rewrite (@getPancakeMoves_pure _ W p O). split.
    + intros V. destruct (isValidMove_true _ _ _ _ V) as [T N].
      rewrite (isValidMove_onBoard b (position p) t p W T N), Ty in V.
      destruct (isValidPancakeMove_exact b p t W O T N) as [v [E I]].
      assert (Hv : v = true) by congruence.
      apply I in Hv. destruct Hv as [D H].
      eexists. split; [reflexivity |]. split; [| exact H].
      apply (In_pancakeMoves b p t W O). auto.
    + intros [ms [E [H Q]]]. injection E as <-.
      apply (In_pancakeMoves b p t W O) in H. destruct H as [T [N D]].
      rewrite (isValidMove_onBoard b (position p) t p W T N), Ty.
      destruct (isValidPancakeMove_exact b p t W O T N) as [v [E I]].
      rewrite E. f_equal. apply I. auto.
Qed.

(** C3.  On a well-formed board, for a piece standing on the board,
    [getNormalMoves] returns, and every square it returns is empty, has row
    and column in 0..7, and lies one or two diagonal steps away in a
    direction the piece may take (forward; backward too when crowned), two
    steps only over an opposing piece on the square in between. *)
Theorem getNormalMoves_sound (b : Board) (p : Piece) :
  wfBoard b = true -> onBoard (position p) = true ->
  exists moves,
    getNormalMoves b p = Ret moves /\
    forall s, In s moves ->
      cellAt b (row s) (col s) = Null /\
      (0 <= row s <= 7 /\ 0 <= col s <= 7) /\
      normalDestination b p s.
Proof.
  intros W O. exists (normalMoves b p). split.
  - now apply getNormalMoves_pure.
  - intros s H. apply (In_normalMoves b p s W O) in H.
    destruct H as [T [N D]]. unfold onBoard in T. apply inBounds_spec in T.
    repeat split; auto; lia.
Qed.

(** ** The capture resolver *)

Lemma boardGet_Ret (b : Board) (r c : Z) (x : cell) :
  boardGet b r c = Ret x -> cellAt b r c = x.
Proof.
  unfold boardGet, cellAt. destruct (nthZ b r); [| discriminate].
  now intros [= <-].
Qed.

Lemma cellAt_boardGet (b : Board) (r c : Z) :
  cellAt b r c <> Undef -> boardGet b r c = Ret (cellAt b r c).
Proof.
  unfold boardGet, cellAt. destruct (nthZ b r); [reflexivity | congruence].
Qed.

Lemma PieceType_eqb_eq (a b : PieceType) : PieceType_eqb a b = true <-> a = b.
Proof. destruct a, b; simpl; split; congruence. Qed.

Lemma qualifyingJump_test (from to : Square) (p : Piece) :
  ((Z.abs (row to - row from) =? 2) && (Z.abs (col to - col from) =? 2)) ||
  (PieceType_eqb (type p) pancake && (Z.abs (row to - row from) =? 0) &&
   (Z.abs (col to - col from) =? 2)) = true <-> qualifyingJump from to p.
Proof.
  unfold qualifyingJump.
  rewrite orb_true_iff, !andb_true_iff, !Z.eqb_eq, PieceType_eqb_eq. tauto.
Qed.

Lemma qualifyingJump_mid (from to : Square) (p : Piece) :
  qualifyingJump from to p ->
  mkSquare
    (row from + Z.sgn (row to - row from) *
                (if 0 <? Z.abs (row to - row from) then 1 else 0))
    (col from + Z.sgn (col to - col from) * 1) = midpoint from to.
Proof.
  unfold qualifyingJump, midpoint. intros Q. f_equal.
  - destruct (0 <? Z.abs (row to - row from)) eqn:E;
      [apply Z.ltb_lt in E | apply Z.ltb_ge in E].
    + assert (C : row to = row from + 2 \/ row to = row from - 2) by lia.
      destruct C as [-> | ->].
      * replace (row from + 2 - row from) with 2 by lia.
        replace (row from + (row from + 2)) with ((row from + 1) * 2) by lia.
        rewrite Z.div_mul by lia. simpl. lia.
      * replace (row from - 2 - row from) with (-2) by lia.
        replace (row from + (row from - 2)) with ((row from - 1) * 2) by lia.
        rewrite Z.div_mul by lia. simpl. lia.
    + assert (C : row to = row from) by lia. rewrite C.
      replace (row from + row from) with (row from * 2) by lia.
      rewrite Z.div_mul by lia. lia.
  - assert (C : col to = col from + 2 \/ col to = col from - 2) by lia.
    destruct C as [-> | ->].
    + replace (col from + 2 - col from) with 2 by lia.
      replace (col from + (col from + 2)) with ((col from + 1) * 2) by lia.
      rewrite Z.div_mul by lia. simpl. lia.
    + replace (col from - 2 - col from) with (-2) by lia.
      replace (col from + (col from - 2)) with ((col from - 1) * 2) by lia.
      rewrite Z.div_mul by lia. simpl. lia.
Qed.

(** C4.  [handleCapture] returns a captured piece exactly when the move is
    a qualifying jump and the square half-way holds a piece of the other
    player; the piece and square it then returns are that piece and that
    square.  For any other geometry, and over an empty or a friendly
    midpoint, it returns the result without capture. *)
Theorem handleCapture_credits_exactly_jumps
        (b : Board) (from to : Square) (p : Piece) :
  ((exists q s, handleCapture b from to p = Ret (mkCaptureResult (Some q) s))
   <->
   (qualifyingJump from to p /\
    exists q, contentOf b (midpoint from to) = Pc q /\ player q <> player p))
  /\
  (forall q s,
     handleCapture b from to p = Ret (mkCaptureResult (Some q) s) ->
     contentOf b (midpoint from to) = Pc q /\ s = Some (midpoint from to))
  /\
  (~ qualifyingJump from to p \/
   contentOf b (midpoint from to) = Null \/
   (exists q, contentOf b (midpoint from to) = Pc q /\ player q = player p) ->
   handleCapture b from to p = Ret noCapture).
Proof.
  unfold handleCapture, contentOf.
  match goal with
  | |- context [if ?c then _ else _] =>
      destruct c eqn:G;
      [apply qualifyingJump_test in G |
       assert (NQ : ~ qualifyingJump from to p)
         by (rewrite <- qualifyingJump_test; congruence)]
  end.
  - pose proof (qualifyingJump_mid G) as M.
    set (mr := row from + Z.sgn (row to - row from) *
                (if 0 <? Z.abs (row to - row from) then 1 else 0)) in *.
    set (mc := col from + Z.sgn (col to - col from) * 1) in *.
    rewrite <- M. cbn [row col].
    destruct (boardGet b mr mc) as [x | |] eqn:E; cbn [bind].
    + apply boardGet_Ret in E. rewrite E.
      destruct x as [| | q]; [| | destruct (PlayerColor_eqb (player q) (player p)) eqn:D;
                                    cbn [negb]].
      * split; [| split].
        -- split; [intros [q [s H]]; discriminate |].
           intros [_ [q [H _]]]; discriminate.
        -- intros q s H; discriminate.
        -- reflexivity.
      * split; [| split].
        -- split; [intros [q [s H]]; discriminate |].
           intros [_ [q [H _]]]; discriminate.
        -- intros q s H; discriminate.
        -- reflexivity.
      * apply PlayerColor_eqb_eq in D. split; [| split].
        -- split; [intros [q' [s H]]; discriminate |].
           intros [_ [q' [H N]]]. congruence.
        -- intros q' s H; discriminate.
        -- reflexivity.
      * apply PlayerColor_eqb_neq in D. split; [| split].
        -- split; [| intros _; eauto].
           intros _. split; [exact G |]. eauto.
        -- intros q' s H. injection H as <- <-. auto.
        -- intros [H | [H | [q' [H N]]]]; [contradiction | discriminate |].
           congruence.
    + assert (U : cellAt b mr mc = Undef).
      { destruct (cellAt b mr mc) eqn:C; [reflexivity | |];
          rewrite cellAt_boardGet in E by congruence; discriminate. }
      rewrite U. split; [| split].
      * split; [intros [q [s H]]; discriminate |].
        intros [_ [q [H _]]]; discriminate.
      * intros q s H; discriminate.
      * intros [H | [H | [q' [H N]]]]; [contradiction | discriminate ..].
    + unfold boardGet in E. destruct (nthZ b mr); discriminate.
  - split; [| split].
    + split; [intros [q [s H]]; discriminate | tauto].
    + intros q s H; discriminate.
    + reflexivity.
Qed.

(** ** The scan of the win evaluator *)

Lemma scanMoves_pure (b : Board) (p : Piece) :
  wfBoard b = true -> onBoard (position p) = true ->
  scanMoves b p = Ret (scanMovesOf b p).
Proof.
  intros W O. unfold scanMoves, scanMovesOf. destruct (type p); try reflexivity.
  - now apply getNormalMoves_pure.
  - now apply getBagelMoves_no_history.
  - now apply getPancakeMoves_pure.
Qed.

Lemma afterScan_true_true : afterScan true true = ongoing.
Proof. reflexivity. Qed.

Lemma scan_spec (b : Board) (squares : list Square) :
  wfBoard b = true -> piecesOnBoard b = true ->
  Forall (fun s => onBoard s = true) squares ->
  forall rh bh,
    scan b squares rh bh =
    Ret (afterScan (rh || existsb (canMove b red) squares)
                   (bh || existsb (canMove b blue) squares)).
Proof.
  intros W P. induction 1 as [| s rest Hs _ IH]; intros rh bh.
  - cbn [scan existsb]. now rewrite !orb_false_r.
  - cbn [scan existsb]. unfold onBoard in Hs. apply inBounds_spec in Hs.
    rewrite boardGet_cellAt by tauto. cbn [bind]. unfold canMove at 1 3.
    destruct (cellAt b (row s) (col s)) as [| | q] eqn:C.
    + rewrite IH. reflexivity.
    + rewrite IH. reflexivity.
    + rewrite (scanMoves_pure b q W (cellAt_positioned _ _ _ P C)).
      cbn [bind]. rewrite !IH.
      destruct (player q); cbn [PlayerColor_eqb andb];
        destruct (nonEmpty (scanMovesOf b q)); cbn [andb orb];
        destruct rh, bh; cbn [andb orb]; reflexivity.
Qed.

Lemma In_indices (i : Z) : In i indices <-> 0 <= i < 8.
Proof. unfold indices. simpl. lia. Qed.

Lemma In_allSquares (s : Square) : In s allSquares <-> onBoard s = true.
Proof.
  unfold allSquares, onBoard. rewrite in_flat_map, inBounds_spec. split.
  - intros [r [Hr Hs]]. apply in_map_iff in Hs. destruct Hs as [c [<- Hc]].
    apply In_indices in Hr. apply In_indices in Hc. simpl. lia.
  - intros [Hr Hc]. exists (row s). split; [now apply In_indices |].
    apply in_map_iff. exists (col s). split; [now destruct s |].
    now apply In_indices.
Qed.

(** The scan asks the generators as the game does in a state without
    history. *)
Lemma scan_asks_without_history (gs : GameState) (q : Piece) :
  getValidMovesForPiece (withHistory gs []) q = scanMoves (board gs) q.
Proof.
  unfold getValidMovesForPiece, scanMoves, withHistory.
  cbn [board moveHistory]. destruct (type q); reflexivity.
Qed.

Lemma canMove_spec (gs : GameState) (c : PlayerColor) :
  wfBoard (board gs) = true -> piecesOnBoard (board gs) = true ->
  (existsb (canMove (board gs) c) allSquares = true <->
   hasLegalMove (withHistory gs []) c).
Proof.
  intros W P. rewrite existsb_exists. unfold hasLegalMove, canMove.
  change (board (withHistory gs [])) with (board gs).
  set (b := board gs) in *. split.
  - intros [s [_ H]].
    destruct (cellAt b (row s) (col s)) as [| | q] eqn:C; try discriminate.
    apply andb_true_iff in H. destruct H as [Hp Hm].
    apply PlayerColor_eqb_eq in Hp.
    exists (row s), (col s), q, (scanMovesOf b q).
    repeat split; auto.
    + rewrite scan_asks_without_history. fold b.
      apply scanMoves_pure; [exact W |]. eapply cellAt_positioned; eassumption.
    + intros E. rewrite E in Hm. discriminate.
  - intros [r [k [q [ms [C [Hp [E N]]]]]]].
    rewrite scan_asks_without_history in E. fold b in E.
    exists (mkSquare r k). split.
    + apply In_allSquares. unfold onBoard. cbn [row col].
      apply (@cellAt_inBounds _ W r k). congruence.
    + cbn [row col]. rewrite C.
      rewrite (scanMoves_pure b q W (cellAt_positioned _ _ _ P C)) in E.
      injection E as <-. apply andb_true_iff. split.
      * now apply PlayerColor_eqb_eq.
      * destruct (scanMovesOf b q); [contradiction | reflexivity].
Qed.

Lemma getBagelMoves_total (b : Board) (p : Piece) (h : list Move) :
  wfBoard b = true -> onBoard (position p) = true ->
  lastOriginOnBoard h = true ->
  exists special, getBagelMoves b p h = Ret (normalMoves b p ++ special).
Proof.
  intros W O L. unfold getBagelMoves, lastOriginOnBoard in *.
  rewrite (@getNormalMoves_pure _ W p O). cbn [bind].
  destruct (lastMoveOf h) as [[lp lf lt lc] |]; [| cbn [bind]; eauto].
  cbn [from] in L. unfold onBoard in L. apply inBounds_spec in L.
  destruct (negb (PlayerColor_eqb (player lp) (player p)));
    [| cbn [bind]; eauto].
  destruct (isValidDiagonalMove (position p) lf (crowned p) (player p));
    [| cbn [bind]; eauto].
  rewrite boardGet_cellAt by tauto. cbn [bind]. eauto.
Qed.

(** The legal moves of a player under the history of the state are those
    without history and what a bagel owes to the history alone. *)
Lemma legal_moves_and_history (gs : GameState) (who : PlayerColor) :
  wfBoard (board gs) = true -> piecesOnBoard (board gs) = true ->
  lastOriginOnBoard (moveHistory gs) = true ->
  (hasLegalMove gs who <->
   hasLegalMove (withHistory gs []) who \/ movesByHistoryAlone gs who).
Proof.
  intros W P L. unfold hasLegalMove, movesByHistoryAlone.
  change (board (withHistory gs [])) with (board gs). split.
  - intros [r [k [q [ms [C [Hp [E N]]]]]]].
    pose proof (cellAt_positioned _ _ _ P C) as O.
    unfold getValidMovesForPiece in E.
    destruct (type q) eqn:T;
      try (left; exists r, k, q, ms; unfold getValidMovesForPiece;
           rewrite T; cbn [withHistory board moveHistory]; auto; fail).
    pose proof (getBagelMoves_no_history (board gs) q W O) as E0.
    destruct (normalMoves (board gs) q) as [| s rest] eqn:NM.
    + right. exists r, k, q, ms. auto 7.
    + left. exists r, k, q, (s :: rest). unfold getValidMovesForPiece.
      rewrite T. cbn [withHistory board moveHistory].
      repeat split; auto. discriminate.
  - intros [[r [k [q [ms [C [Hp [E N]]]]]]]
           | [r [k [q [ms [C [Hp [T [E [N _]]]]]]]]]].
    + pose proof (cellAt_positioned _ _ _ P C) as O.
      unfold getValidMovesForPiece in E.
      cbn [withHistory board moveHistory] in E.
      destruct (type q) eqn:T;
        try (exists r, k, q, ms; unfold getValidMovesForPiece;
             rewrite T; auto; fail).
      destruct (getBagelMoves_total (board gs) q (moveHistory gs) W O L)
        as [special G].
      rewrite (getBagelMoves_no_history (board gs) q W O) in E.
      assert (M : ms = normalMoves (board gs) q) by congruence.
      exists r, k, q, (normalMoves (board gs) q ++ special).
      unfold getValidMovesForPiece. rewrite T.
      repeat split; auto. rewrite <- M.
      destruct ms; [contradiction | discriminate].
    + exists r, k, q, ms. unfold getValidMovesForPiece. rewrite T. auto.
Qed.

(** C5 (as amended).  A zero count decides the game before any scan: red's
    count zero makes blue the winner, otherwise blue's count zero makes red
    the winner.  With both counts non-zero, on a well-formed board whose
    pieces stand on the board, the evaluator goes by the legal moves of the
    state without its move history: a player without any such move loses
    to the opponent (red is looked at first), and when both players have
    one the game is not over and has no winner.  Under the history of the
    state a player has a legal move exactly when the player has one without
    history or one of the player's bagels moves by the history alone. *)
Theorem checkWinCondition_decides (gs : GameState) (counts : PerPlayer Z) :
  (ofRed counts = 0 -> checkWinCondition (board gs) counts = Ret (won blue)) /\
  (ofRed counts <> 0 -> ofBlue counts = 0 ->
   checkWinCondition (board gs) counts = Ret (won red)) /\
  (ofRed counts <> 0 -> ofBlue counts <> 0 ->
   wfBoard (board gs) = true -> piecesOnBoard (board gs) = true ->
   (~ hasLegalMove (withHistory gs []) red ->
    checkWinCondition (board gs) counts = Ret (won blue)) /\
   (hasLegalMove (withHistory gs []) red ->
    ~ hasLegalMove (withHistory gs []) blue ->
    checkWinCondition (board gs) counts = Ret (won red)) /\
   (hasLegalMove (withHistory gs []) red ->
    hasLegalMove (withHistory gs []) blue ->
    checkWinCondition (board gs) counts = Ret ongoing) /\
   (lastOriginOnBoard (moveHistory gs) = true ->
    forall who,
      hasLegalMove gs who <->
      hasLegalMove (withHistory gs []) who \/ movesByHistoryAlone gs who)).
Proof.
  unfold checkWinCondition. split; [| split].
  - intros ->. reflexivity.
  - intros R ->. apply Z.eqb_neq in R. now rewrite R.
  - intros R B W P. apply Z.eqb_neq in R. apply Z.eqb_neq in B.
    rewrite R, B. rewrite scan_spec; try assumption.
    + cbn [orb].
      pose proof (@canMove_spec gs red W P) as Hr.
      pose proof (@canMove_spec gs blue W P) as Hb.
      assert (K : lastOriginOnBoard (moveHistory gs) = true ->
                  forall who,
                    hasLegalMove gs who <->
                    hasLegalMove (withHistory gs []) who \/
                    movesByHistoryAlone gs who)
        by (intros L who; now apply legal_moves_and_history).
      destruct (existsb (canMove (board gs) red) allSquares);
        destruct (existsb (canMove (board gs) blue) allSquares);
        unfold afterScan; cbn [negb];
        (split; [| split; [| split; [| exact K]]]); intros;
        try reflexivity;
        repeat match goal with
               | H : ~ hasLegalMove _ _ |- _ =>
                   exfalso; apply H; first [now apply Hr | now apply Hb]
               | H : hasLegalMove _ _ |- _ =>
                   first [apply Hr in H | apply Hb in H]; discriminate
               end.
    + apply Forall_forall. intros s. apply In_allSquares.
Qed.

(** ** Rejected commands *)

Lemma listed_test (moves : list Square) (r c : Z) :
  existsb (fun move => (row move =? r) && (col move =? c)) moves = true <->
  In (mkSquare r c) moves.
Proof.
  rewrite existsb_exists. split.
  - intros [[mr mc] [Hin H]]. cbn [row col] in H. bool_to_prop. now subst.
  - intros Hin. exists (mkSquare r c). split; [exact Hin |].
    cbn [row col]. now rewrite !Z.eqb_refl.
Qed.

(** C6.  [finishDraft] with a roster total other than 12 on either side
    returns the state it was given, so the phase stays what it was; with
    both totals 12 it moves to Placement, and from Draft it reaches
    Placement exactly then.  [movePiece] without a selected piece, in an
    inactive game, or towards a square that is not in the list of valid
    moves returns the state it was given. *)
Theorem rejected_commands_change_nothing (ctx : Context) :
  (selectionTotal (ofRed (pieceSelections ctx)) <> 12 \/
   selectionTotal (ofBlue (pieceSelections ctx)) <> 12 ->
   finishDraft ctx = ctx) /\
  (selectionTotal (ofRed (pieceSelections ctx)) = 12 ->
   selectionTotal (ofBlue (pieceSelections ctx)) = 12 ->
   phase (gameState (finishDraft ctx)) = Placement) /\
  (phase (gameState ctx) = Draft ->
   (phase (gameState (finishDraft ctx)) = Placement <->
    selectionTotal (ofRed (pieceSelections ctx)) = 12 /\
    selectionTotal (ofBlue (pieceSelections ctx)) = 12)) /\
  (forall r c,
     selectedPiece ctx = None \/
     gameActive (gameState ctx) = false \/
     ~ In (mkSquare r c) (validMoves ctx) ->
     movePiece ctx r c = Ret ctx).
Proof.
  unfold finishDraft, TOTAL_PIECES_PER_PLAYER.
  destruct (selectionTotal (ofRed (pieceSelections ctx)) =? 12) eqn:R;
    destruct (selectionTotal (ofBlue (pieceSelections ctx)) =? 12) eqn:B;
    cbn [negb orb]; bool_to_prop.
  1: split; [intros [H | H]; contradiction |];
     split; [reflexivity |]; split; [intros _; cbn; tauto |].
  2-4: split; [reflexivity |]; split; [intros; lia |];
       split; [intros ->; split; [discriminate | lia] |].
  all: intros r c H; unfold movePiece;
    destruct (selectedPiece ctx) as [sel |]; [| reflexivity];
    destruct (gameActive (gameState ctx)); cbn [negb]; [| reflexivity];
    destruct H as [H | [H | H]]; try discriminate;
    destruct (existsb (fun move => (row move =? r) && (col move =? c))
                      (validMoves ctx)) eqn:E; [| reflexivity];
    apply listed_test in E; contradiction.
Qed.

(** ** The extra square of the bagel *)

Lemma isValidDiagonalMove_spec (p : Piece) (t : Square) :
  isValidDiagonalMove (position p) t (crowned p) (player p) = true <->
  bagelReach p t.
Proof.
  unfold isValidDiagonalMove, bagelReach, onDiagonal, notBackward, direction.
  destruct (Z.abs (row t - row (position p)) =?
            Z.abs (col t - col (position p))) eqn:D; cbn [negb].
  - apply Z.eqb_eq in D.
    destruct (crowned p), (player p); cbn [negb andb PlayerColor_eqb].
    1, 2: tauto.
    + destruct (row t - row (position p) <? 0) eqn:L; bool_to_prop;
        split; try discriminate; try tauto.
      * intros [_ [? | ?]]; [discriminate | lia].
      * intros _. split; [exact D | right; lia].
    + destruct (0 <? row t - row (position p)) eqn:L; bool_to_prop;
        split; try discriminate; try tauto.
      * intros [_ [? | ?]]; [discriminate | lia].
      * intros _. split; [exact D | right; lia].
  - apply Z.eqb_neq in D. split; [discriminate | tauto].
Qed.

Lemma lastMoveOf_snoc (h : list Move) (m : Move) :
  lastMoveOf (h ++ [m]) = Some m.
Proof. unfold lastMoveOf. rewrite map_app. cbn [map]. apply last_last. Qed.

(** C7 (as amended).  On a well-formed board, for a bagel standing on the
    board: without history [getBagelMoves] returns the Normal moves of the
    piece; with a history whose last move started on the board it returns
    the Normal moves followed by the origin of that move when the move was
    the opponent's, the origin is empty, and it lies on a diagonal of the
    bagel at any distance (in any direction for a crowned bagel, not
    backward for one without crown), and the Normal moves alone
    otherwise. *)
Theorem getBagelMoves_adds_last_origin (b : Board) (p : Piece) :
  wfBoard b = true -> onBoard (position p) = true ->
  exists nm,
    getNormalMoves b p = Ret nm /\
    getBagelMoves b p [] = Ret nm /\
    forall h m,
      onBoard (from m) = true ->
      let extra :=
        player (piece m) <> player p /\
        bagelReach p (from m) /\
        contentOf b (from m) = Null in
      (extra -> getBagelMoves b p (h ++ [m]) = Ret (nm ++ [from m])) /\
      (~ extra -> getBagelMoves b p (h ++ [m]) = Ret nm).
Proof.
  intros W O. exists (normalMoves b p).
  split; [now apply getNormalMoves_pure |].
  split; [now apply getBagelMoves_no_history |].
  intros h m F extra. subst extra. unfold contentOf, getBagelMoves.
  rewrite (@getNormalMoves_pure _ W p O). cbn [bind].
  rewrite lastMoveOf_snoc. destruct m as [mp mf mt mc]. cbn [piece from] in *.
  unfold onBoard in F. apply inBounds_spec in F.
  pose proof (isValidDiagonalMove_spec p mf) as V.
  destruct (PlayerColor_eqb (player mp) (player p)) eqn:E; cbn [negb].
  - apply PlayerColor_eqb_eq in E. cbn [bind]. rewrite app_nil_r.
    split; [intros [N _]; contradiction | reflexivity].
  - apply PlayerColor_eqb_neq in E.
    destruct (isValidDiagonalMove (position p) mf (crowned p) (player p)).
    + rewrite boardGet_cellAt by tauto. cbn [bind].
      destruct (isNull (cellAt b (row mf) (col mf))) eqn:N.
      * apply isNull_eq in N. split; [reflexivity |].
        intros X. exfalso. apply X.
        split; [exact E | split; [now apply V | exact N]].
      * rewrite app_nil_r. split; [| reflexivity].
        intros [_ [_ X]]. apply isNull_eq in X. congruence.
    + cbn [bind]. rewrite app_nil_r. split; [| reflexivity].
      intros [_ [X _]]. apply V in X. discriminate.
Qed.

(** ** Array writes *)

Lemma nth_error_replace_same {A : Type} (l : list A) (n : nat) (x : A) :
  (n < List.length l)%nat ->
  nth_error (firstn n l ++ x :: skipn (S n) l) n = Some x.
Proof.
  intros H. rewrite nth_error_app2 by (rewrite length_firstn; lia).
  rewrite length_firstn. replace (n - Nat.min n (List.length l))%nat with 0%nat by lia.
  reflexivity.
Qed.

Lemma nth_error_replace_other {A : Type} (l : list A) (n m : nat) (x : A) :
  (n < List.length l)%nat -> m <> n ->
  nth_error (firstn n l ++ x :: skipn (S n) l) m = nth_error l m.
Proof.
  intros H D. destruct (Nat.lt_ge_cases m n) as [L | G].
  - rewrite nth_error_app1 by (rewrite length_firstn; lia).
    rewrite nth_error_firstn. apply Nat.ltb_lt in L. now rewrite L.
  - rewrite nth_error_app2 by (rewrite length_firstn; lia).
    rewrite length_firstn.
    replace (m - Nat.min n (List.length l))%nat with (S (m - S n)) by lia.
    cbn [nth_error]. rewrite nth_error_skipn. f_equal. lia.
Qed.

Lemma rowSet_spec (rw rw' : list cell) (c : Z) (v : cell) :
  rowSet rw c v = Ret rw' ->
  rowGet rw' c = v /\ forall c', c' <> c -> rowGet rw' c' = rowGet rw c'.
Proof.
  unfold rowSet. cbv zeta. destruct (c <? 0) eqn:C; [discriminate |].
  apply Z.ltb_ge in C.
  destruct (Z.to_nat c <? List.length rw)%nat eqn:L; intros E.
  - assert (E' : rw' = firstn (Z.to_nat c) rw ++ v :: skipn (S (Z.to_nat c)) rw)
      by congruence.
    subst rw'. clear E. apply Nat.ltb_lt in L. split.
    + unfold rowGet, nthZ. replace (c <? 0) with false by (symmetry; now apply Z.ltb_ge).
      now rewrite nth_error_replace_same.
    + intros c' D. unfold rowGet, nthZ.
      destruct (c' <? 0) eqn:C'; [reflexivity |]. apply Z.ltb_ge in C'.
      rewrite nth_error_replace_other by lia. reflexivity.
  - assert (E' : rw' = rw ++ repeat Undef (Z.to_nat c - List.length rw) ++ [v])
      by congruence.
    subst rw'. clear E. apply Nat.ltb_ge in L. split.
    + unfold rowGet, nthZ. replace (c <? 0) with false by (symmetry; now apply Z.ltb_ge).
      rewrite nth_error_app2 by lia.
      rewrite nth_error_app2 by (rewrite repeat_length; lia).
      rewrite repeat_length.
      replace (Z.to_nat c - List.length rw - (Z.to_nat c - List.length rw))%nat
        with 0%nat by lia.
      reflexivity.
    + intros c' D. unfold rowGet, nthZ.
      destruct (c' <? 0) eqn:C'; [reflexivity |]. apply Z.ltb_ge in C'.
      destruct (Nat.lt_ge_cases (Z.to_nat c') (List.length rw)) as [I | I].
      * now rewrite nth_error_app1 by lia.
      * rewrite nth_error_app2 by lia.
        replace (nth_error rw (Z.to_nat c')) with (@None cell)
          by (symmetry; now apply nth_error_None).
        destruct (Nat.lt_ge_cases (Z.to_nat c') (Z.to_nat c)) as [J | J].
        -- rewrite nth_error_app1 by (rewrite repeat_length; lia).
           now rewrite nth_error_repeat by lia.
        -- rewrite nth_error_app2 by (rewrite repeat_length; lia).
           rewrite repeat_length.
           replace (Z.to_nat c' - List.length rw -
                    (Z.to_nat c - List.length rw))%nat
             with (S (Z.to_nat c' - S (Z.to_nat c))) by lia.
           cbn [nth_error]. now rewrite nth_error_nil.
Qed.

Lemma boardSet_spec (b b' : Board) (r c : Z) (v : cell) :
  boardSet b r c v = Ret b' ->
  cellAt b' r c = v /\
  forall r' c', r' <> r \/ c' <> c -> cellAt b' r' c' = cellAt b r' c'.
Proof.
  unfold boardSet. destruct (nthZ b r) as [rw |] eqn:E; [| discriminate].
  destruct (rowSet rw c v) as [rw' | |] eqn:RS; cbn [bind]; try discriminate.
  intros E'.
  assert (E'' : b' = firstn (Z.to_nat r) b ++ rw' :: skipn (S (Z.to_nat r)) b)
    by congruence.
  subst b'. clear E'. apply rowSet_spec in RS. destruct RS as [S1 S2].
  pose proof (nthZ_Some_range _ _ E) as [R _].
  unfold nthZ in E. destruct (r <? 0) eqn:C; [discriminate |].
  split.
  - unfold cellAt, nthZ. rewrite C.
    rewrite nth_error_replace_same by lia. exact S1.
  - intros r' c' D. unfold cellAt, nthZ.
    destruct (r' <? 0) eqn:C'; [reflexivity |]. apply Z.ltb_ge in C'.
    destruct (Z.eq_dec r' r) as [-> | N].
    + rewrite nth_error_replace_same by lia. rewrite E.
      apply S2. destruct D; congruence.
    + rewrite nth_error_replace_other by lia. reflexivity.
Qed.

Lemma boardSet_onBoard (b : Board) (r c : Z) (v : cell) :
  wfBoard b = true -> inBounds r c = true -> exists b', boardSet b r c v = Ret b'.
Proof.
  intros W B. apply inBounds_spec in B. unfold boardSet.
  destruct (@nthZ_in_range _ b r) as [rw [E _]].
  { rewrite (@wfBoard_length _ W). lia. }
  rewrite E. unfold rowSet. cbv zeta.
  replace (c <? 0) with false by (symmetry; apply Z.ltb_ge; lia).
  destruct (Z.to_nat c <? List.length rw)%nat; cbn [bind]; eauto.
Qed.

(** ** Placement *)

(** C8 (as amended).  In the Placement phase [placePiece], given a square
    of a well-formed board, writes the piece, its position set to that
    square, onto that square whatever the square holds and wherever it
    lies, and changes no other square and no other part of the state;
    outside the Placement phase it returns the state it was given. *)
Theorem placePiece_writes_named_square
        (ctx : Context) (piece : Piece) (r c : Z) :
  (phase (gameState ctx) <> Placement -> placePiece ctx piece r c = Ret ctx) /\
  (phase (gameState ctx) = Placement ->
   wfBoard (board (gameState ctx)) = true -> inBounds r c = true ->
   exists newBoard,
     placePiece ctx piece r c =
       Ret (mkContext (withBoard (gameState ctx) newBoard) (selectedPiece ctx)
                      (validMoves ctx) (pieceSelections ctx)) /\
     cellAt newBoard r c = Pc (withPosition piece (mkSquare r c)) /\
     forall r' c', r' <> r \/ c' <> c ->
                   cellAt newBoard r' c' = cellAt (board (gameState ctx)) r' c').
Proof.
  unfold placePiece. split.
  - intros H. destruct (phase (gameState ctx)); try reflexivity. congruence.
  - intros -> W B. cbn [GamePhase_eqb negb].
    destruct (boardSet_onBoard (board (gameState ctx)) r c
                (Pc (withPosition piece (mkSquare r c))) W B) as [nb E].
    rewrite E. cbn [bind]. exists nb. split; [reflexivity |].
    now apply boardSet_spec.
Qed.

(** ** Committed moves and crowns *)

Lemma forallb_replace {A : Type} (f : A -> bool) (l : list A) (n : nat) (x : A) :
  forallb f l = true -> f x = true ->
  forallb f (firstn n l ++ x :: skipn (S n) l) = true.
Proof.
  intros F X. rewrite forallb_forall in F. apply forallb_forall.
  intros y Hy. apply in_app_or in Hy. destruct Hy as [Hy | [<- | Hy]].
  - apply F. rewrite <- (firstn_skipn n l). apply in_or_app. now left.
  - exact X.
  - apply F. rewrite <- (firstn_skipn (S n) l). apply in_or_app. now right.
Qed.

Lemma length_replace {A : Type} (l : list A) (n : nat) (x : A) :
  (n < List.length l)%nat ->
  List.length (firstn n l ++ x :: skipn (S n) l) = List.length l.
Proof.
  intros H. rewrite length_app, length_firstn. cbn [List.length].
  rewrite length_skipn. lia.
Qed.

Lemma boardSet_keeps_shape (b b' : Board) (r c : Z) (v : cell) :
  wfBoard b = true -> piecesOnBoard b = true ->
  inBounds r c = true -> isUndef v = false -> positioned v = true ->
  boardSet b r c v = Ret b' ->
  wfBoard b' = true /\ piecesOnBoard b' = true.
Proof.
  intros W P B U Pv. apply inBounds_spec in B. unfold boardSet.
  destruct (nthZ b r) as [rw |] eqn:E; [| discriminate].
  pose proof (nthZ_Some_range _ _ E) as [R Hin].
  destruct (@wfBoard_row _ W _ Hin) as [L _].
  unfold rowSet. cbv zeta.
  replace (c <? 0) with false by (symmetry; apply Z.ltb_ge; lia).
  replace (Z.to_nat c <? List.length rw)%nat with true
    by (symmetry; apply Nat.ltb_lt; lia).
  cbn [bind]. intros E'.
  assert (E'' : b' = firstn (Z.to_nat r) b ++
                     (firstn (Z.to_nat c) rw ++ v :: skipn (S (Z.to_nat c)) rw)
                     :: skipn (S (Z.to_nat r)) b) by congruence.
  subst b'. clear E'.
  unfold wfBoard, piecesOnBoard in *.
  apply andb_true_iff in W. destruct W as [Wl Wr].
  assert (Wrw : wfRow rw = true)
    by (rewrite forallb_forall in Wr; now apply Wr).
  assert (Prw : forallb positioned rw = true)
    by (rewrite forallb_forall in P; now apply P).
  unfold wfRow in Wrw. apply andb_true_iff in Wrw. destruct Wrw as [_ Wc].
  split.
  - apply andb_true_iff. split.
    + rewrite length_replace by lia. exact Wl.
    + apply forallb_replace; [exact Wr |]. unfold wfRow.
      apply andb_true_iff. split.
      * rewrite length_replace by lia. now apply Nat.eqb_eq.
      * apply forallb_replace; [exact Wc |]. now rewrite U.
  - apply forallb_replace; [exact P |]. now apply forallb_replace.
Qed.

Lemma handleCapture_total (b : Board) (f t : Square) (p : Piece) :
  wfBoard b = true -> onBoard f = true -> onBoard t = true ->
  exists cr, handleCapture b f t p = Ret cr.
Proof.
  intros W F T. unfold onBoard in F, T.
  apply inBounds_spec in F. apply inBounds_spec in T. unfold handleCapture.
  match goal with
  | |- context [if ?c then _ else _] => destruct c; [| eauto]
  end.
  rewrite boardGet_cellAt; [| exact W |].
  - cbn [bind].
    match goal with
    | |- context [match ?c with _ => _ end] => destruct c as [| | q]; eauto
    end.
    destruct (negb (PlayerColor_eqb (player q) (player p))); eauto.
  - destruct (0 <? Z.abs (row t - row f)); lia.
Qed.


Lemma checkWinCondition_total (b : Board) (counts : PerPlayer Z) :
  wfBoard b = true -> piecesOnBoard b = true ->
  exists w, checkWinCondition b counts = Ret w.
Proof.
  intros W P. unfold checkWinCondition.
  destruct (ofRed counts =? 0); [eauto |].
  destruct (ofBlue counts =? 0); [eauto |].
  rewrite scan_spec; eauto.
  apply Forall_forall. intros s. apply In_allSquares.
Qed.


Lemma movePiece_total (ctx : Context) (sel : Piece) (r c : Z) :
  selectedPiece ctx = Some sel ->
  wfBoard (board (gameState ctx)) = true ->
  piecesOnBoard (board (gameState ctx)) = true ->
  onBoard (position sel) = true -> inBounds r c = true ->
  exists ctx', movePiece ctx r c = Ret ctx'.
Proof.
  intros S W P O B. unfold movePiece. rewrite S.
  destruct (negb (gameActive (gameState ctx))); [eauto |].
  destruct (negb (existsb _ (validMoves ctx))); [eauto |].
  replace (mkSquare (row (position sel)) (col (position sel)))
    with (position sel) by now destruct (position sel).
  destruct (handleCapture_total (board (gameState ctx)) (position sel)
              (mkSquare r c) sel W O B) as [cr ->].
  cbn [bind].
  destruct (boardSet_onBoard (board (gameState ctx)) (row (position sel))
              (col (position sel)) Null W O) as [cleared E1].
  rewrite E1. cbn [bind].
  destruct (@boardSet_keeps_shape _ _ _ _ Null W P O eq_refl eq_refl E1)
    as [W1 P1].
  fold (movedPieceOf (currentPlayer (gameState ctx)) sel r c).
  destruct (boardSet_onBoard cleared r c
              (Pc (movedPieceOf (currentPlayer (gameState ctx)) sel r c))
              W1 B) as [nb E2].
  rewrite E2. cbn [bind].
  destruct (@boardSet_keeps_shape _ _ _ _
              (Pc (movedPieceOf (currentPlayer (gameState ctx)) sel r c))
              W1 P1 B eq_refl B E2) as [W2 P2].
  destruct (checkWinCondition_total nb
              (mkPerPlayer
                 (ofRed (pieceCounts (gameState ctx)) -
                  (if PlayerColor_eqb (currentPlayer (gameState ctx)) blue &&
                      isSome (capturedPiece cr) then 1 else 0))
                 (ofBlue (pieceCounts (gameState ctx)) -
                  (if PlayerColor_eqb (currentPlayer (gameState ctx)) red &&
                      isSome (capturedPiece cr) then 1 else 0)))
              W2 P2) as [w ->].
  cbn [bind]. eauto.
Qed.







(** [selectPiece] takes a piece only from the player whose turn it is, in
    an active game. *)
Lemma selectPiece_guard (ctx : Context) (p : Piece) :
  player p <> currentPlayer (gameState ctx) \/
  gameActive (gameState ctx) = false ->
  selectPiece ctx p = Ret ctx.
Proof.
  unfold selectPiece. intros [H | H].
  - apply PlayerColor_eqb_neq in H. now rewrite H.
  - rewrite H. now rewrite orb_true_r.
Qed.


(** ** The moves of the computer opponent *)

Lemma isValidMove_total (b : Board) (p : Piece) (t : Square) :
  wfBoard b = true -> onBoard (position p) = true -> onBoard t = true ->
  isValidMove b (position p) t p = Ret (accepts b p t).
Proof.
  intros W O T. unfold accepts.
  assert (X : exists v, isValidMove b (position p) t p = Ret v);
    [| destruct X as [v ->]; reflexivity].
  destruct (isNull (cellAt b (row t) (col t))) eqn:N.
  - apply isNull_eq in N.
    rewrite (isValidMove_onBoard b (position p) t p W T N).
    destruct (isValidNormalMove_spec b p t W O T) as [v [E _]].
    destruct (isValidPancakeMove_spec b p t W O T N) as [v' [E' _]].
    unfold isValidBagelMove. rewrite E. cbn [bind].
    destruct (type p); eauto. destruct v; eauto.
  - unfold isValidMove. unfold onBoard in T. apply inBounds_spec in T.
    rewrite boardGet_cellAt by tauto. cbn [bind]. rewrite N.
    cbn [negb]. eauto.
Qed.

Lemma aiPiece_spec (gs : GameState) (p : Piece) :
  piecesOnBoard (board gs) = true -> In p (aiService.getAIPieces gs) ->
  onBoard (position p) = true /\ player p = aiService.playerColor.
Proof.
  unfold piecesOnBoard, aiService.getAIPieces. intros P H.
  apply in_flat_map in H. destruct H as [rw [Hrw H]].
  apply in_flat_map in H. destruct H as [x [Hx H]].
  rewrite forallb_forall in P. specialize (P rw Hrw).
  rewrite forallb_forall in P. specialize (P x Hx).
  destruct x as [| | q]; try contradiction.
  destruct (PlayerColor_eqb (player q) aiService.playerColor) eqn:E;
    [| contradiction].
  destruct H as [<- | []]. split; [exact P | now apply PlayerColor_eqb_eq].
Qed.

Lemma ai_getValidMovesForPiece_pure (b : Board) (p : Piece) :
  wfBoard b = true -> onBoard (position p) = true ->
  aiService.getValidMovesForPiece p b = Ret (filter (accepts b p) allSquares).
Proof.
  intros W O. unfold aiService.getValidMovesForPiece.
  rewrite (@pushWhen_pure _ _ _ (accepts b p)); [now rewrite map_id |].
  intros t Ht. apply In_allSquares in Ht. pose proof Ht as Ht'.
  unfold onBoard in Ht'. apply inBounds_spec in Ht'.
  rewrite boardGet_cellAt by tauto. cbn [bind].
  rewrite (isValidMove_total b p t W O Ht).
  destruct (truthy (cellAt b (row t) (col t)) &&
            negb (playerDiffers (cellAt b (row t) (col t)) (player p))) eqn:K;
    [| reflexivity].
  f_equal. symmetry. unfold accepts.
  destruct (isValidMove b (position p) t p) as [[|] | |] eqn:V; try reflexivity.
  apply isValidMove_true in V. destruct V as [_ N]. rewrite N in K. discriminate.
Qed.

Lemma collectMoves_pure (b : Board) (ps : list Piece) :
  wfBoard b = true ->
  (forall p, In p ps -> onBoard (position p) = true) ->
  aiService.collectMoves b ps = Ret (candidatesOf b ps).
Proof.
  intros W. induction ps as [| p rest IH]; intros O; [reflexivity |].
  cbn [aiService.collectMoves candidatesOf flat_map].
  rewrite ai_getValidMovesForPiece_pure by (auto using in_eq).
  cbn [bind]. rewrite IH by (intros; apply O; now right). reflexivity.
Qed.

Lemma In_candidatesOf (b : Board) (ps : list Piece) (p : Piece) (t : Square) :
  In (p, t) (candidatesOf b ps) <->
  In p ps /\ onBoard t = true /\ accepts b p t = true.
Proof.
  unfold candidatesOf. rewrite in_flat_map. split.
  - intros [q [Hq H]]. apply in_map_iff in H. destruct H as [t' [E H]].
    injection E as -> ->. apply filter_In in H. destruct H as [H A].
    apply In_allSquares in H. auto.
  - intros [Hp [T A]]. exists p. split; [exact Hp |].
    apply in_map. apply filter_In. split; [now apply In_allSquares | exact A].
Qed.

Lemma accepts_true (b : Board) (p : Piece) (t : Square) :
  accepts b p t = true <-> isValidMove b (position p) t p = Ret true.
Proof.
  unfold accepts. destruct (isValidMove b (position p) t p) as [v | |];
    split; intros H; try discriminate; congruence.
Qed.

(** *** Choosing among the candidates *)

Lemma pickRandom_In (rnd : nat) (l : list aiService.Candidate)
      (m : aiService.Candidate) :
  aiService.pickRandom rnd l = Some m -> In m l.
Proof. unfold aiService.pickRandom. apply nth_error_In. Qed.

Lemma pickRandom_Some (rnd : nat) (l : list aiService.Candidate) :
  l <> [] -> exists m, aiService.pickRandom rnd l = Some m.
Proof.
  intros N. unfold aiService.pickRandom, aiService.randomIndex.
  destruct (nth_error l (Nat.modulo rnd (List.length l))) eqn:E; [eauto |].
  apply nth_error_None in E. exfalso.
  assert (List.length l <> 0)%nat by (destruct l; [congruence | discriminate]).
  pose proof (Nat.mod_upper_bound rnd (List.length l)). lia.
Qed.

Lemma In_insertByValue (x y : aiService.Candidate)
      (l : list aiService.Candidate) :
  In y (aiService.insertByValue x l) <-> y = x \/ In y l.
Proof.
  induction l as [| z rest IH]; cbn [aiService.insertByValue].
  - cbn. intuition auto.
  - destruct (_ <=? _); cbn [In]; [rewrite IH |]; intuition auto.
Qed.

Lemma In_sortByValue (y : aiService.Candidate) (l : list aiService.Candidate) :
  In y (aiService.sortByValue l) <-> In y l.
Proof.
  unfold aiService.sortByValue.
  assert (G : forall acc, In y (fold_left (fun acc x =>
                aiService.insertByValue x acc) l acc) <-> In y l \/ In y acc).
  { induction l as [| x rest IH]; intros acc; cbn [fold_left].
    - cbn. tauto.
    - rewrite IH, In_insertByValue. cbn [In]. intuition auto. }
  rewrite G. cbn. tauto.
Qed.

Lemma nonEmpty_spec {A : Type} (l : list A) : nonEmpty l = true <-> l <> [].
Proof. destruct l; cbn; split; congruence. Qed.

Lemma hd_error_In {A : Type} (l : list A) (x : A) : hd_error l = Some x -> In x l.
Proof. destruct l; cbn; [discriminate |]. intros [= ->]. now left. Qed.

Lemma hd_error_Some {A : Type} (l : list A) :
  l <> [] -> exists x, hd_error l = Some x.
Proof. destruct l; [congruence |]. cbn. eauto. Qed.

Lemma selectMove_In (d : aiService.AIDifficulty) (rnd : nat)
      (l : list aiService.Candidate) (m : aiService.Candidate) :
  aiService.selectMove d rnd l = Some m -> In m l.
Proof.
  destruct d; cbn [aiService.selectMove].
  - unfold aiService.selectMoveEasy. destruct l; [discriminate |].
    apply pickRandom_In.
  - unfold aiService.selectMoveMedium. destruct l as [| c0 l0]; [discriminate |].
    set (l := c0 :: l0).
    destruct (nonEmpty (filter aiService.looksLikeCapture l)).
    + intros H. apply pickRandom_In in H. now apply filter_In in H.
    + apply pickRandom_In.
  - unfold aiService.selectMoveHard. destruct l as [| c0 l0]; [discriminate |].
    set (l := c0 :: l0).
    destruct (nonEmpty (filter aiService.looksLikeCapture l)).
    + intros H. apply hd_error_In, In_sortByValue, filter_In in H. tauto.
    + match goal with
      | |- context [nonEmpty (filter ?f l)] =>
          set (fw := filter f l);
          assert (Fw : forall x, In x fw -> In x l)
            by (intros x Hx; now apply filter_In in Hx)
      end.
      destruct (nonEmpty fw); [| apply pickRandom_In].
      destruct (nonEmpty (filter _ fw)).
      { intros H. apply hd_error_In in H. apply filter_In in H.
        apply Fw. tauto. }
      destruct (nonEmpty (filter _ fw)).
      { intros H. apply hd_error_In in H. apply filter_In in H.
        apply Fw. tauto. }
      intros H. apply hd_error_In in H. exact (Fw _ H).
Qed.

Lemma selectMove_Some (d : aiService.AIDifficulty) (rnd : nat)
      (l : list aiService.Candidate) :
  l <> [] -> exists m, aiService.selectMove d rnd l = Some m.
Proof.
  intros N. destruct l as [| c0 l0]; [congruence |].
  set (l := c0 :: l0) in *.
  destruct d; cbn [aiService.selectMove].
  - now apply pickRandom_Some.
  - unfold aiService.selectMoveMedium. fold l.
    destruct (nonEmpty (filter aiService.looksLikeCapture l)) eqn:E.
    + apply pickRandom_Some. now apply nonEmpty_spec.
    + now apply pickRandom_Some.
  - unfold aiService.selectMoveHard. fold l.
    destruct (nonEmpty (filter aiService.looksLikeCapture l)) eqn:E.
    + apply hd_error_Some. apply nonEmpty_spec in E.
      destruct (filter aiService.looksLikeCapture l) as [| x xs] eqn:F;
        [congruence |].
      intros Z0. assert (I : In x (aiService.sortByValue (x :: xs)))
        by (apply In_sortByValue; now left).
      rewrite Z0 in I. contradiction.
    + repeat match goal with
             | |- context [if nonEmpty ?x then _ else _] =>
                 let K := fresh "K" in destruct (nonEmpty x) eqn:K
             end;
        try (apply hd_error_Some; now apply nonEmpty_spec).
      now apply pickRandom_Some.
Qed.

Lemma generator_covers_validator (gs : GameState) (p : Piece) :
  wfBoard (board gs) = true -> onBoard (position p) = true ->
  lastOriginOnBoard (moveHistory gs) = true ->
  exists ms,
    getValidMovesForPiece gs p = Ret ms /\
    forall t, isValidMove (board gs) (position p) t p = Ret true -> In t ms.
Proof.
  intros W O L. unfold getValidMovesForPiece.
  destruct (type p) eqn:Ty.
  - rewrite (@getNormalMoves_pure _ W p O). eexists. split; [reflexivity |].
    intros t V. now apply (isValidMove_normal_iff _ p t W O (or_introl Ty)).
  - destruct (getBagelMoves_total _ p (moveHistory gs) W O L) as [sp ->].
    eexists. split; [reflexivity |]. intros t V. apply in_or_app. left.
    now apply (isValidMove_normal_iff _ p t W O (or_intror Ty)).
  - rewrite (@getPancakeMoves_pure _ W p O). eexists. split; [reflexivity |].
    intros t V. destruct (isValidMove_true _ _ _ _ V) as [T N].
    rewrite (isValidMove_onBoard _ (position p) t p W T N), Ty in V.
    destruct (isValidPancakeMove_spec _ p t W O T N) as [v [E [I _]]].
    apply (In_pancakeMoves _ p t W O). split; [exact T |].
    split; [exact N |]. apply I. congruence.
  - eexists. split; [reflexivity |]. intros t V.
    destruct (isValidMove_true _ _ _ _ V) as [T N].
    rewrite (isValidMove_onBoard _ (position p) t p W T N), Ty in V.
    discriminate.
  - eexists. split; [reflexivity |]. intros t V.
    destruct (isValidMove_true _ _ _ _ V) as [T N].
    rewrite (isValidMove_onBoard _ (position p) t p W T N), Ty in V.
    discriminate.
  - eexists. split; [reflexivity |]. intros t V.
    destruct (isValidMove_true _ _ _ _ V) as [T N].
    rewrite (isValidMove_onBoard _ (position p) t p W T N), Ty in V.
    discriminate.
Qed.

(** C9 (as amended).  For every tier and every random draw, on a
    well-formed board whose pieces stand on the board and with a history
    whose last move started on the board, [getNextMove] returns: it does
    not throw.  It returns no move when it is not the computer's turn and
    when no piece of the computer is listed a move by the generator.  It
    returns a move exactly when it is the computer's turn and the validator
    accepts some square of the grid for some of its pieces; the move then
    is of a piece of the computer found on the board, starts at that
    piece's position, and ends on a square the generator lists for that
    piece in the current state. *)
Theorem getNextMove_plays_validated_moves
        (d : aiService.AIDifficulty) (rnd : nat) (gs : GameState) :
  wfBoard (board gs) = true -> piecesOnBoard (board gs) = true ->
  lastOriginOnBoard (moveHistory gs) = true ->
  exists res,
    aiService.getNextMove d rnd gs = Ret res /\
    (currentPlayer gs <> aiService.playerColor -> res = None) /\
    (~ aiCanMove gs -> res = None) /\
    (res <> None <->
     currentPlayer gs = aiService.playerColor /\ aiIsAccepted gs) /\
    (forall m, res = Some m ->
       In (piece m) (aiService.getAIPieces gs) /\
       player (piece m) = aiService.playerColor /\
       from m = position (piece m) /\
       exists ms, getValidMovesForPiece gs (piece m) = Ret ms /\ In (to m) ms).
Proof.
  intros W P L.
  assert (Main : exists res,
    aiService.getNextMove d rnd gs = Ret res /\
    (res <> None <->
     currentPlayer gs = aiService.playerColor /\ aiIsAccepted gs) /\
    (forall m, res = Some m ->
       In (piece m) (aiService.getAIPieces gs) /\
       from m = position (piece m) /\
       isValidMove (board gs) (position (piece m)) (to m) (piece m) = Ret true)).
  { unfold aiService.getNextMove.
    destruct (PlayerColor_eqb (currentPlayer gs) aiService.playerColor) eqn:Cur;
      cbn [negb].
    2: { apply PlayerColor_eqb_neq in Cur. exists None.
         split; [reflexivity |]. split; [| discriminate].
         split; [congruence | tauto]. }
    apply PlayerColor_eqb_eq in Cur.
    destruct (nonEmpty (aiService.getAIPieces gs)) eqn:NE; cbn [negb].
    2: { exists None. split; [reflexivity |]. split; [| discriminate].
         split; [congruence |]. intros [_ [p [t [Hp _]]]].
         destruct (aiService.getAIPieces gs); [contradiction | discriminate]. }
    rewrite collectMoves_pure;
      [| exact W | intros p Hp; now apply (aiPiece_spec gs p P Hp)].
    cbn [bind].
    assert (Acc : aiIsAccepted gs <->
                  candidatesOf (board gs) (aiService.getAIPieces gs) <> []).
    { split.
      - intros [p [t [Hp [T V]]]] E.
        assert (I : In (p, t) (candidatesOf (board gs)
                                 (aiService.getAIPieces gs)))
          by (apply In_candidatesOf; repeat split; auto; now apply accepts_true).
        rewrite E in I. contradiction.
      - intros N.
        destruct (candidatesOf (board gs) (aiService.getAIPieces gs))
          as [| [p t] rest] eqn:E; [congruence |].
        assert (I : In (p, t) (candidatesOf (board gs)
                                 (aiService.getAIPieces gs)))
          by (rewrite E; now left).
        apply In_candidatesOf in I. destruct I as [Hp [T A]].
        exists p, t. repeat split; auto. now apply accepts_true. }
    destruct (nonEmpty (candidatesOf (board gs) (aiService.getAIPieces gs)))
      eqn:NC; cbn [negb].
    2: { exists None. split; [reflexivity |]. split; [| discriminate].
         split; [congruence |]. intros [_ A]. apply Acc in A.
         apply nonEmpty_spec in A. congruence. }
    apply nonEmpty_spec in NC.
    destruct (selectMove_Some d rnd NC) as [[sp st] S]. rewrite S.
    apply selectMove_In in S. apply In_candidatesOf in S.
    destruct S as [Hp [T A]]. eexists. split; [reflexivity |].
    split.
    - split; [intros _ | discriminate]. split; [exact Cur |]. now apply Acc.
    - intros m E. injection E as <-. cbn [piece from to fst snd].
      repeat split; auto. now apply accepts_true. }
  destruct Main as [res [E [Iff Sel]]]. exists res.
  assert (Gen : forall m, res = Some m ->
       In (piece m) (aiService.getAIPieces gs) /\
       player (piece m) = aiService.playerColor /\
       from m = position (piece m) /\
       exists ms, getValidMovesForPiece gs (piece m) = Ret ms /\ In (to m) ms).
  { intros m Hm. destruct (Sel m Hm) as [Hp [Hf V]].
    destruct (aiPiece_spec gs (piece m) P Hp) as [O Pl].
    destruct (generator_covers_validator gs (piece m) W O L) as [ms [G C]].
    repeat split; auto. exists ms. auto. }
  split; [exact E |]. split; [| split; [| split; [exact Iff | exact Gen]]].
  - intros N. destruct res as [m |]; [| reflexivity].
    exfalso. assert (X : Some m <> None) by discriminate.
    apply Iff in X. tauto.
  - intros N. destruct res as [m |]; [| reflexivity].
    exfalso. apply N. destruct (Gen m eq_refl) as [Hp [_ [_ [ms [G I]]]]].
    exists (piece m), ms. repeat split; auto. intros ->. contradiction.
Qed.

(** ** Sessions *)

Lemma reachable_runAll (cmds : list Command) :
  forall ctx ctx',
    reachable ctx -> runAll ctx cmds = Ret ctx' -> reachable ctx'.
Proof.
  induction cmds as [| cmd rest IH]; intros ctx ctx' R; cbn [runAll].
  - intros E. assert (ctx = ctx') by congruence. now subst.
  - destruct (run ctx cmd) as [ctx1 | |] eqn:E; cbn [bind]; try discriminate.
    apply IH. eapply reach_step; eassumption.
Qed.

(** ** The claims on these positions *)

(** The jump scenario of the specification: red's moves include the jump
    to (4,5); the move is credited with the blue piece, red's score becomes
    1 and blue's count drops by one.  The board of the new state has the red
    piece on (4,5) and its origin empty; the square jumped over is not
    written by [movePiece]. *)
Example scenario_jump :
  getNormalMoves scenarioBoard redNormal23 = Ret [sq 3 2; sq 4 5] /\
  handleCapture scenarioBoard (sq 2 3) (sq 4 5) redNormal23
    = Ret (mkCaptureResult (Some blueNormal34) (Some (sq 3 4))) /\
  exists ctx',
    movePiece ctxScenario 4 5 = Ret ctx' /\
    scores (gameState ctx') = mkPerPlayer 1 0 /\
    pieceCounts (gameState ctx') = mkPerPlayer 12 11 /\
    capturedPieces (gameState ctx') = mkPerPlayer [blueNormal34] [] /\
    currentPlayer (gameState ctx') = blue /\
    cellAt (board (gameState ctx')) 4 5 = Pc (withPosition redNormal23 (sq 4 5)) /\
    cellAt (board (gameState ctx')) 2 3 = Null /\
    cellAt (board (gameState ctx')) 3 4 = Pc blueNormal34.
Proof.
  split; [reflexivity |]. split; [reflexivity |].
  eexists. split; [reflexivity |]. repeat split; reflexivity.
Qed.

Lemma isValidMove_agrees_with_generators_witness :
  wfBoard scenarioBoard = true /\ onBoard (position redNormal23) = true /\
  (isValidMove scenarioBoard (position redNormal23) (sq 4 5) redNormal23
     = Ret true <->
   exists ms, getNormalMoves scenarioBoard redNormal23 = Ret ms /\
              In (sq 4 5) ms).
Proof.
  split; [reflexivity |]. split; [reflexivity |].
  destruct (isValidMove_agrees_with_generators scenarioBoard redNormal23
              (sq 4 5) eq_refl eq_refl) as [N _].
  exact (N eq_refl).
Defined.

(** C1, counterexample.  The generator lists (3,4) for the bagel, the
    origin of the last move, and the validator rejects it; the generator
    lists (1,6), a backward diagonal, for the blue pancake without crown at
    (0,7), and the validator rejects it. *)
Lemma isValidMove_rejects_generated_moves :
  (type bagelA = bagel /\
   (exists ms, getBagelMoves boardA bagelA historyA = Ret ms /\
               In (sq 3 4) ms) /\
   isValidMove boardA (position bagelA) (sq 3 4) bagelA = Ret false) /\
  (type bluePancake07 = pancake /\ crowned bluePancake07 = false /\
   (exists ms, getPancakeMoves (board stateStuck) bluePancake07 = Ret ms /\
               In (sq 1 6) ms) /\
   isValidMove (board stateStuck) (position bluePancake07) (sq 1 6)
               bluePancake07 = Ret false).
Proof.
  split.
  - split; [reflexivity |]. split; [| reflexivity].
    exists [sq 1 0; sq 1 2; sq 3 4]. split; [reflexivity |].
    right. right. now left.
  - split; [reflexivity |]. split; [reflexivity |]. split; [| reflexivity].
    exists [sq 1 6]. split; [reflexivity | now left].
Qed.

(** C2.  Asked about a destination in row 8 or row -1, [isValidMove]
    throws: the board is read at the destination before the bounds are
    looked at.  [handleCapture] throws on a jump whose middle row is off
    the grid. *)
Theorem isValidMove_throws_off_the_board :
  isValidMove scenarioBoard (sq 2 3) (sq 8 3) redNormal23 = Throw /\
  isValidMove scenarioBoard (sq 2 3) (sq (-1) 3) redNormal23 = Throw /\
  isValidMove emptyBoard (sq 7 1) (sq 8 2) redNormal23 = Throw /\
  handleCapture emptyBoard (sq 7 1) (sq 9 3) redNormal23 = Throw.
Proof. repeat split; reflexivity. Qed.

Lemma getNormalMoves_sound_witness :
  wfBoard scenarioBoard = true /\ onBoard (position redNormal23) = true /\
  exists moves,
    getNormalMoves scenarioBoard redNormal23 = Ret moves /\
    forall s, In s moves ->
      cellAt scenarioBoard (row s) (col s) = Null /\
      (0 <= row s <= 7 /\ 0 <= col s <= 7) /\
      normalDestination scenarioBoard redNormal23 s.
Proof.
  split; [reflexivity |]. split; [reflexivity |].
  apply (getNormalMoves_sound scenarioBoard redNormal23); reflexivity.
Defined.

Lemma checkWinCondition_decides_witness :
  checkWinCondition scenarioBoard (mkPerPlayer 0 1) = Ret (won blue) /\
  checkWinCondition scenarioBoard (mkPerPlayer 1 1) = Ret ongoing /\
  (hasLegalMove stateHemmed red <->
   hasLegalMove (withHistory stateHemmed []) red \/
   movesByHistoryAlone stateHemmed red).
Proof.
  destruct (checkWinCondition_decides (stateOf Play red scenarioBoard [])
                                      (mkPerPlayer 0 1))
    as [Zero _].
  destruct (checkWinCondition_decides (stateOf Play red scenarioBoard [])
                                      (mkPerPlayer 1 1))
    as [_ [_ Scan]].
  destruct (checkWinCondition_decides stateHemmed (mkPerPlayer 1 3))
    as [_ [_ Hemmed]].
  split; [apply Zero; reflexivity |]. split.
  - assert (R : ofRed (mkPerPlayer 1 1) <> 0) by discriminate.
    assert (B : ofBlue (mkPerPlayer 1 1) <> 0) by discriminate.
    destruct (Scan R B eq_refl eq_refl) as [_ [_ [Both _]]].
    apply Both.
    + exists 2, 3, redNormal23, [sq 3 2; sq 4 5].
      repeat split; try reflexivity; discriminate.
    + exists 3, 4, blueNormal34, [sq 2 5; sq 1 2].
      repeat split; try reflexivity; discriminate.
  - assert (R : ofRed (mkPerPlayer 1 3) <> 0) by discriminate.
    assert (B : ofBlue (mkPerPlayer 1 3) <> 0) by discriminate.
    destruct (Hemmed R B eq_refl eq_refl) as [_ [_ [_ History]]].
    apply History. reflexivity.
Defined.

(** C5, counterexample.  Red's only piece, the bagel at (0,1), has no move
    without history, and the evaluator declares the game over with blue as
    winner; under the history of the state the generator lists (3,4), the
    origin of blue's last move, for the bagel: red has a legal move. *)
Lemma checkWinCondition_overlooks_the_bagel_square :
  checkWinCondition (board stateHemmed) (mkPerPlayer 1 3) = Ret (won blue) /\
  cellAt (board stateHemmed) 0 1 = Pc bagelA /\
  getValidMovesForPiece stateHemmed bagelA = Ret [sq 3 4] /\
  hasLegalMove stateHemmed red.
Proof.
  split; [reflexivity |]. split; [reflexivity |]. split; [reflexivity |].
  exists 0, 1, bagelA, [sq 3 4].
  repeat split; try reflexivity; discriminate.
Qed.

Lemma rejected_commands_change_nothing_witness :
  finishDraft ctxDraft = ctxDraft /\
  phase (gameState (finishDraft ctxDraft)) = Draft /\
  movePiece ctxCrowning 5 0 = Ret ctxCrowning.
Proof.
  destruct (rejected_commands_change_nothing ctxDraft) as [Keep _].
  destruct (rejected_commands_change_nothing ctxCrowning) as [_ [_ [_ Move]]].
  assert (K : finishDraft ctxDraft = ctxDraft)
    by (apply Keep; right; vm_compute; discriminate).
  split; [exact K |]. split; [rewrite K; reflexivity |].
  apply Move. right. right. cbn. intros [H | [H | []]]; discriminate.
Defined.

(** C7, counterexample.  The bagel has no crown, and the extra square
    (3,4) that [getBagelMoves] adds to its Normal moves is three diagonal
    steps away. *)
Lemma getBagelMoves_reaches_beyond_one_step :
  crowned bagelA = false /\
  getNormalMoves boardA bagelA = Ret [sq 1 0; sq 1 2] /\
  getBagelMoves boardA bagelA historyA = Ret [sq 1 0; sq 1 2; sq 3 4] /\
  Z.abs (row (sq 3 4) - row (position bagelA)) = 3 /\
  Z.abs (col (sq 3 4) - col (position bagelA)) = 3.
Proof. repeat split; reflexivity. Qed.

Lemma getBagelMoves_adds_last_origin_witness :
  wfBoard boardA = true /\ onBoard (position bagelA) = true /\
  exists nm,
    getNormalMoves boardA bagelA = Ret nm /\
    getBagelMoves boardA bagelA historyA = Ret (nm ++ [sq 3 4]).
Proof.
  split; [reflexivity |]. split; [reflexivity |].
  destruct (getBagelMoves_adds_last_origin boardA bagelA eq_refl eq_refl)
    as [nm [N [_ H]]].
  exists nm. split; [exact N |].
  apply (H [] (mkMove blueBefore (sq 3 4) (sq 2 5) None) eq_refl).
  split; [discriminate |]. split; [| reflexivity].
  split; [reflexivity | right; unfold notBackward; cbn; lia].
Defined.

(** C8, counterexample.  In the Placement phase a red piece is written on
    (4,4), a light square outside red's three ranks, and a second call
    replaces it there by a blue piece. *)
Lemma placePiece_writes_any_square :
  (4 + 4) mod 2 = 0 /\
  exists ctx' ctx'',
    placePiece ctxPlacement redNew 4 4 = Ret ctx' /\
    cellAt (board (gameState ctxPlacement)) 4 4 = Null /\
    cellAt (board (gameState ctx')) 4 4 = Pc (withPosition redNew (sq 4 4)) /\
    placePiece ctx' blueNew 4 4 = Ret ctx'' /\
    cellAt (board (gameState ctx'')) 4 4 = Pc (withPosition blueNew (sq 4 4)).
Proof.
  split; [reflexivity |].
  eexists. eexists. split; [reflexivity |].
  split; [reflexivity |]. split; [reflexivity |].
  split; reflexivity.
Qed.

Lemma placePiece_writes_named_square_witness :
  phase (gameState ctxPlacement) = Placement /\
  wfBoard (board (gameState ctxPlacement)) = true /\ inBounds 1 0 = true /\
  exists newBoard,
    placePiece ctxPlacement redNew 1 0 =
      Ret (mkContext (withBoard (gameState ctxPlacement) newBoard)
                     (selectedPiece ctxPlacement) (validMoves ctxPlacement)
                     (pieceSelections ctxPlacement)) /\
    cellAt newBoard 1 0 = Pc (withPosition redNew (mkSquare 1 0)) /\
    forall r' c', r' <> 1 \/ c' <> 0 ->
      cellAt newBoard r' c' = cellAt (board (gameState ctxPlacement)) r' c'.
Proof.
  split; [reflexivity |]. split; [reflexivity |]. split; [reflexivity |].
  apply (placePiece_writes_named_square ctxPlacement redNew 1 0); reflexivity.
Defined.

(** C9, counterexample.  It is blue's turn and the generator lists (1,6)
    for the blue pancake, yet [getNextMove] returns no move, at every tier
    and for every draw. *)
Lemma getNextMove_passes_with_a_generated_move :
  currentPlayer stateStuck = aiService.playerColor /\
  In bluePancake07 (aiService.getAIPieces stateStuck) /\
  getValidMovesForPiece stateStuck bluePancake07 = Ret [sq 1 6] /\
  forall d rnd, aiService.getNextMove d rnd stateStuck = Ret None.
Proof.
  split; [reflexivity |]. split; [right; now left |]. split; [reflexivity |].
  intros d rnd. destruct d; reflexivity.
Qed.

Lemma getNextMove_plays_validated_moves_witness :
  wfBoard (board (stateOf Play blue scenarioBoard [])) = true /\
  piecesOnBoard (board (stateOf Play blue scenarioBoard [])) = true /\
  lastOriginOnBoard (moveHistory (stateOf Play blue scenarioBoard [])) = true /\
  exists res,
    aiService.getNextMove aiService.Hard 0 (stateOf Play blue scenarioBoard [])
      = Ret res /\
    res <> None.
Proof.
  split; [reflexivity |]. split; [reflexivity |]. split; [reflexivity |].
  destruct (getNextMove_plays_validated_moves aiService.Hard 0
              (stateOf Play blue scenarioBoard []) eq_refl eq_refl eq_refl)
    as [res [E [_ [_ [Iff _]]]]].
  exists res. split; [exact E |]. apply Iff. split; [reflexivity |].
  exists blueNormal34, (sq 2 5).
  split; [now left |]. split; reflexivity.
Defined.



(** * Further properties of the code *)

(** ** The draft lists *)

Lemma selectionTotal_from (sels : list PieceSelection) (a : Z) :
  fold_left (fun sum selection => sum + count selection) sels a =
  a + selectionTotal sels.
Proof.
  unfold selectionTotal. revert a.
  induction sels as [| s rest IH]; intros a; cbn [fold_left]; [lia |].
  rewrite IH. rewrite (IH (0 + count s)). lia.
Qed.

Lemma selectionTotal_cons (s : PieceSelection) (rest : list PieceSelection) :
  selectionTotal (s :: rest) = count s + selectionTotal rest.
Proof.
  unfold selectionTotal at 1. cbn [fold_left].
  rewrite selectionTotal_from. lia.
Qed.

Lemma updateAt_addCount (d : Z) (i : nat) (sels : list PieceSelection)
      (s : PieceSelection) :
  nth_error sels i = Some s ->
  offered (updateAt (addCount d) i sels) = offered sels /\
  selectionTotal (updateAt (addCount d) i sels) = selectionTotal sels + d /\
  (0 <= count s + d <= max s ->
   Forall (fun x => 0 <= count x <= max x) sels ->
   Forall (fun x => 0 <= count x <= max x) (updateAt (addCount d) i sels)).
Proof.
  revert i. induction sels as [| x rest IH]; intros i E.
  - destruct i; discriminate.
  - destruct i as [| j]; cbn [nth_error] in E.
    + injection E as ->. cbn [updateAt offered map].
      rewrite !selectionTotal_cons. cbn [addCount count sel_type].
      repeat split; try lia. intros B F. inversion F; subst.
      constructor; [exact B | assumption].
    + destruct (IH j E) as [T [S B]]. cbn [updateAt]. unfold offered in *.
      cbn [map]. rewrite T. rewrite !selectionTotal_cons, S.
      repeat split; try lia. intros Bd F. inversion F; subst.
      constructor; [assumption | now apply B].
Qed.

Lemma findIndex_Some {A : Type} (f : A -> bool) (l : list A) (i : nat) :
  findIndex f l = Some i -> exists x, nth_error l i = Some x /\ f x = true.
Proof.
  revert i. induction l as [| y rest IH]; intros i; cbn [findIndex];
    [discriminate |].
  destruct (f y) eqn:F.
  - intros [= <-]. exists y. auto.
  - destruct (findIndex f rest) as [j |]; [| discriminate].
    intros [= <-]. destruct (IH j eq_refl) as [x [E Fx]]. exists x. auto.
Qed.

Lemma toggle_inner_ok (sels : list PieceSelection) (i : nat)
      (s : PieceSelection) :
  nth_error sels i = Some s -> selectionsOk sels ->
  let sels' :=
    if (count s <? max s) && (selectionTotal sels <? TOTAL_PIECES_PER_PLAYER)
    then updateAt (addCount 1) i sels
    else if 0 <? count s then updateAt (addCount (-1)) i sels
         else sels in
  offered sels' = offered sels /\ selectionsOk sels' /\
  Z.abs (selectionTotal sels' - selectionTotal sels) <= 1.
Proof.
  intros E [F T]. unfold selectionsOk, TOTAL_PIECES_PER_PLAYER in *. cbv zeta.
  assert (Bs : 0 <= count s <= max s).
  { rewrite Forall_forall in F. apply F. eapply nth_error_In; eassumption. }
  destruct ((count s <? max s) && (selectionTotal sels <? 12)) eqn:Up.
  - bool_to_prop. destruct (updateAt_addCount 1 i sels E) as [O [S B]].
    split; [exact O |]. split; [split; [apply B; [lia | exact F] | lia] | lia].
  - destruct (0 <? count s) eqn:Down.
    + bool_to_prop. destruct (updateAt_addCount (-1) i sels E) as [O [S B]].
      split; [exact O |].
      split; [split; [apply B; [lia | exact F] | lia] | lia].
    + split; [reflexivity |]. split; [split; assumption | lia].
Qed.

Lemma perPlayer_setPlayer_same {A : Type} (r : PerPlayer A) (c : PlayerColor)
      (a : A) :
  perPlayer (setPlayer r c a) c = a.
Proof. now destruct c. Qed.

Lemma perPlayer_setPlayer_other {A : Type} (r : PerPlayer A)
      (c who : PlayerColor) (a : A) :
  who <> c -> perPlayer (setPlayer r c a) who = perPlayer r who.
Proof. destruct c, who; auto; congruence. Qed.

Lemma initialSelections_ok :
  offered initialSelections = [normal; bagel; pancake] /\
  selectionsOk initialSelections.
Proof.
  split; [reflexivity |]. split.
  - repeat constructor; cbn; lia.
  - vm_compute. discriminate.
Qed.

Lemma run_keeps_draft_lists (ctx ctx' : Context) (cmd : Command) :
  (forall who, offered (perPlayer (pieceSelections ctx) who)
               = [normal; bagel; pancake] /\
               selectionsOk (perPlayer (pieceSelections ctx) who)) ->
  run ctx cmd = Ret ctx' ->
  forall who, offered (perPlayer (pieceSelections ctx') who)
              = [normal; bagel; pancake] /\
              selectionsOk (perPlayer (pieceSelections ctx') who).
Proof.
  intros H.
  destruct cmd as [| | | | piece | | r c | who0 pieceType idx | piece r c];
    cbn [run].
  - intros [= <-]. intros who. cbn [startGame pieceSelections].
    destruct who; apply initialSelections_ok.
  - intros [= <-]. exact H.
  - intros [= <-]. unfold finishDraft.
    match goal with |- context [if ?t then _ else _] => destruct t end;
      exact H.
  - intros [= <-]. exact H.
  - unfold selectPiece.
    match goal with |- context [if ?t then _ else _] => destruct t end.
    + intros [= <-]. exact H.
    + destruct (getValidMovesForPiece _ _); cbn [bind]; try discriminate.
      intros [= <-]. exact H.
  - intros [= <-]. exact H.
  - unfold movePiece.
    destruct (selectedPiece ctx) as [sel |]; [| intros [= <-]; exact H].
    destruct (negb (gameActive (gameState ctx))); [intros [= <-]; exact H |].
    destruct (negb (existsb _ (validMoves ctx))); [intros [= <-]; exact H |].
    destruct (handleCapture _ _ _ _); cbn [bind]; try discriminate.
    destruct (boardSet _ _ _ Null); cbn [bind]; try discriminate.
    destruct (boardSet _ r c _); cbn [bind]; try discriminate.
    destruct (checkWinCondition _ _); cbn [bind]; try discriminate.
    intros [= <-]. exact H.
  - unfold togglePieceSelection.
    destruct (findIndex _ _) as [i |] eqn:FI; [| discriminate].
    destruct (nth_error _ i) as [s |] eqn:E; [| discriminate].
    intros [= <-]. cbn [pieceSelections].
    destruct (H who0) as [O K].
    destruct (toggle_inner_ok _ E K) as [O' [K' _]]. cbv zeta in O', K'.
    intros who. destruct who0, who;
      rewrite ?perPlayer_setPlayer_same,
              ?perPlayer_setPlayer_other by discriminate;
      try apply H; (split; [rewrite O'; exact O | exact K']).
  - unfold placePiece.
    destruct (negb (GamePhase_eqb _ _)); [intros [= <-]; exact H |].
    destruct (boardSet _ r c _); cbn [bind]; try discriminate.
    intros [= <-]. exact H.
Qed.

Lemma reachable_draft_lists (ctx : Context) :
  reachable ctx ->
  forall who,
    offered (perPlayer (pieceSelections ctx) who) = [normal; bagel; pancake] /\
    selectionsOk (perPlayer (pieceSelections ctx) who).
Proof.
  induction 1 as [| ctx cmd ctx' _ IH E].
  - intros who. destruct who; apply initialSelections_ok.
  - eapply run_keeps_draft_lists; eassumption.
Qed.

(** X1.  In every state the provider can reach, by whatever commands, each
    player's draft list offers normal, bagel and pancake, every count lies
    between zero and the maximum of its variant, and the roster total is at
    most twelve. *)
Theorem reachable_draft_lists_in_bounds (ctx : Context) :
  reachable ctx ->
  forall who,
    offered (perPlayer (pieceSelections ctx) who) = [normal; bagel; pancake] /\
    selectionsOk (perPlayer (pieceSelections ctx) who).
Proof. apply reachable_draft_lists. Qed.

Lemma offered_three (sels : list PieceSelection) :
  offered sels = [normal; bagel; pancake] ->
  exists a b c, sels = [a; b; c] /\ sel_type a = normal /\
                sel_type b = bagel /\ sel_type c = pancake.
Proof.
  unfold offered.
  destruct sels as [| a [| b [| c [| d rest]]]]; cbn [map]; try discriminate.
  intros [= Ha Hb Hc]. exists a, b, c. auto.
Qed.

(** X2.  In every reachable state, toggling a variant without rules (bomb,
    vinyl, flying disk) throws, the draft lists having no entry for it,
    while toggling normal, bagel or pancake returns a state that differs
    from the old one in that player's draft list only, whose total moved by
    at most one. *)
Theorem togglePieceSelection_on_variants
        (ctx : Context) (who : PlayerColor) (t : PieceType) (idx : Z) :
  reachable ctx ->
  (In t [bomb; vinyl; flying_disk] ->
   togglePieceSelection ctx who t idx = Throw) /\
  (In t [normal; bagel; pancake] ->
   exists sels',
     togglePieceSelection ctx who t idx =
       Ret (mkContext (gameState ctx) (selectedPiece ctx) (validMoves ctx)
                      (setPlayer (pieceSelections ctx) who sels')) /\
     Z.abs (selectionTotal sels' -
            selectionTotal (perPlayer (pieceSelections ctx) who)) <= 1).
Proof.
  intros R. destruct (reachable_draft_lists R who) as [O K].
  destruct (offered_three _ O) as [a [b [c [L [Ta [Tb Tc]]]]]].
  unfold togglePieceSelection. rewrite L. split.
  - intros [<- | [<- | [<- | []]]]; cbn [findIndex];
      rewrite Ta, Tb, Tc; reflexivity.
  - intros I.
    assert (F : exists i s,
               findIndex (fun s => PieceType_eqb (sel_type s) t) [a; b; c]
                 = Some i /\ nth_error [a; b; c] i = Some s).
    { destruct I as [<- | [<- | [<- | []]]]; cbn [findIndex];
        rewrite Ta, ?Tb, ?Tc; cbn [PieceType_eqb];
        [exists 0%nat, a | exists 1%nat, b | exists 2%nat, c];
        split; reflexivity. }
    destruct F as [i [s [-> E]]]. rewrite E. eexists. split; [reflexivity |].
    rewrite <- L. rewrite <- L in E.
    exact (proj2 (proj2 (toggle_inner_ok _ E K))).
Qed.

(** ** What a committed move does to the state *)

Lemma movePiece_commit_fields (ctx ctx' : Context) (sel : Piece) (r c : Z) :
  selectedPiece ctx = Some sel ->
  gameActive (gameState ctx) = true ->
  In (mkSquare r c) (validMoves ctx) ->
  movePiece ctx r c = Ret ctx' ->
  let gs := gameState ctx in
  let cur := currentPlayer gs in
  exists cr cleared w,
    handleCapture (board gs) (position sel) (mkSquare r c) sel = Ret cr /\
    boardSet (board gs) (row (position sel)) (col (position sel)) Null
      = Ret cleared /\
    boardSet cleared r c (Pc (movedPieceOf cur sel r c))
      = Ret (board (gameState ctx')) /\
    checkWinCondition (board (gameState ctx')) (pieceCounts (gameState ctx'))
      = Ret w /\
    phase (gameState ctx') = (if gameOver w then GameOver else phase gs) /\
    currentPlayer (gameState ctx') = opponent cur /\
    scores (gameState ctx') =
      match capturedPiece cr with
      | Some _ => setPlayer (scores gs) cur (perPlayer (scores gs) cur + 1)
      | None => scores gs
      end /\
    capturedPieces (gameState ctx') =
      match capturedPiece cr with
      | Some q => setPlayer (capturedPieces gs) cur
                            (perPlayer (capturedPieces gs) cur ++ [q])
      | None => capturedPieces gs
      end /\
    moveHistory (gameState ctx') =
      moveHistory gs ++
      [mkMove sel (position sel) (mkSquare r c) (capturedPiece cr)] /\
    pieceCounts (gameState ctx') =
      mkPerPlayer
        (ofRed (pieceCounts gs) -
         (if PlayerColor_eqb cur blue && isSome (capturedPiece cr)
          then 1 else 0))
        (ofBlue (pieceCounts gs) -
         (if PlayerColor_eqb cur red && isSome (capturedPiece cr)
          then 1 else 0)) /\
    gameActive (gameState ctx') = true /\
    selectedPiece ctx' = None /\ validMoves ctx' = [] /\
    pieceSelections ctx' = pieceSelections ctx.
Proof.
  intros S A V. unfold movePiece. rewrite S, A. cbn [negb].
  apply listed_test in V. rewrite V. cbn [negb].
  replace (mkSquare (row (position sel)) (col (position sel)))
    with (position sel) by now destruct (position sel).
  destruct (handleCapture _ _ _ _) as [cr | |] eqn:Hc; cbn [bind];
    try discriminate.
  destruct (boardSet (board (gameState ctx)) _ _ Null) as [cleared | |] eqn:E1;
    cbn [bind]; try discriminate.
  fold (movedPieceOf (currentPlayer (gameState ctx)) sel r c).
  destruct (boardSet cleared r c _) as [nb | |] eqn:E2; cbn [bind];
    try discriminate.
  destruct (checkWinCondition nb _) as [w | |] eqn:Wc; cbn [bind];
    try discriminate.
  intros E. injection E as <-. cbv zeta. exists cr, cleared, w.
  cbn [gameState board capturedPieces selectedPiece validMoves pieceSelections
       phase currentPlayer scores moveHistory pieceCounts gameActive].
  repeat split; assumption || reflexivity.
Qed.

(** X3.  A committed move hands the turn to the other player, appends the
    move -- the selected piece, its position, the destination, what
    [handleCapture] credited -- to the history, clears the selection and
    leaves the game active.  It keeps the books: a player's score and the
    opponent's piece count always sum to what they summed to before, and a
    player's list of captures grows exactly as the score does.  The phase
    stays, or becomes GameOver, which it does whenever a piece count has
    reached zero. *)
Theorem movePiece_keeps_the_books
        (ctx ctx' : Context) (sel : Piece) (r c : Z) :
  selectedPiece ctx = Some sel ->
  gameActive (gameState ctx) = true ->
  In (mkSquare r c) (validMoves ctx) ->
  movePiece ctx r c = Ret ctx' ->
  let gs := gameState ctx in
  let gs' := gameState ctx' in
  currentPlayer gs' = opponent (currentPlayer gs) /\
  gameActive gs' = true /\
  selectedPiece ctx' = None /\ validMoves ctx' = [] /\
  (exists cr,
     handleCapture (board gs) (position sel) (mkSquare r c) sel = Ret cr /\
     moveHistory gs' =
       moveHistory gs ++
       [mkMove sel (position sel) (mkSquare r c) (capturedPiece cr)]) /\
  ofRed (scores gs') + ofBlue (pieceCounts gs')
    = ofRed (scores gs) + ofBlue (pieceCounts gs) /\
  ofBlue (scores gs') + ofRed (pieceCounts gs')
    = ofBlue (scores gs) + ofRed (pieceCounts gs) /\
  (forall who,
     Z.of_nat (List.length (perPlayer (capturedPieces gs') who))
       - perPlayer (scores gs') who
     = Z.of_nat (List.length (perPlayer (capturedPieces gs) who))
       - perPlayer (scores gs) who) /\
  (phase gs' = phase gs \/ phase gs' = GameOver) /\
  (ofRed (pieceCounts gs') = 0 \/ ofBlue (pieceCounts gs') = 0 ->
   phase gs' = GameOver).
Proof.
  intros S A V E. cbv zeta.
  destruct (movePiece_commit_fields ctx r c S A V E)
    as [cr [cleared [w [Hc [_ [_ [Wc [Ph [Cu [Sc [Cp [Hi [Pc [Ga [Se [Va _]]]]]]]]]]]]]]]].
  split; [exact Cu |]. split; [exact Ga |]. split; [exact Se |].
  split; [exact Va |]. split; [exists cr; auto |].
  rewrite Sc, Cp, Pc, Ph. cbn [ofRed ofBlue].
  assert (Over : ofRed (pieceCounts (gameState ctx')) = 0 \/
                 ofBlue (pieceCounts (gameState ctx')) = 0 ->
                 gameOver w = true).
  { unfold checkWinCondition in Wc. intros Z0.
    destruct (ofRed (pieceCounts (gameState ctx')) =? 0) eqn:R0;
      [injection Wc as <-; reflexivity |].
    destruct (ofBlue (pieceCounts (gameState ctx')) =? 0) eqn:B0;
      [injection Wc as <-; reflexivity |].
    bool_to_prop. lia. }
  rewrite Pc in Over. cbn [ofRed ofBlue] in Over.
  destruct (capturedPiece cr) as [q |]; cbn [isSome];
    destruct (currentPlayer (gameState ctx));
    cbn [PlayerColor_eqb andb setPlayer perPlayer ofRed ofBlue];
    (split; [lia |]); (split; [lia |]);
    (split; [intros who; destruct who; cbn [perPlayer ofRed ofBlue];
             rewrite ?length_app; cbn [List.length]; lia |]);
    (split; [destruct (gameOver w); auto |]);
    intros Z0; rewrite (Over Z0); reflexivity.
Qed.

Lemma handleCapture_square (b : Board) (f t : Square) (p q : Piece)
      (m : Square) :
  handleCapture b f t p = Ret (mkCaptureResult (Some q) (Some m)) ->
  cellAt b (row m) (col m) = Pc q /\
  (row m <> row f \/ col m <> col f) /\ (row m <> row t \/ col m <> col t).
Proof.
  unfold handleCapture.
  match goal with
  | |- context [if ?c then _ else _] => destruct c eqn:G; [| discriminate]
  end.
  match goal with
  | |- context [boardGet b ?r ?c] =>
      destruct (boardGet b r c) as [x | |] eqn:E; cbn [bind];
      try discriminate; apply boardGet_Ret in E
  end.
  destruct x as [| | q']; try discriminate.
  destruct (negb (PlayerColor_eqb (player q') (player p))); [| discriminate].
  intros H. injection H as -> <-. cbn [row col]. split; [exact E |].
  assert (C : Z.abs (col t - col f) = 2).
  { apply orb_true_iff in G. destruct G as [G | G]; bool_to_prop; lia. }
  split; right; lia.
Qed.

(** X4.  A committed move writes two squares and no other: the destination
    receives the moved piece and the origin, unless it is the destination,
    is emptied.  Every other square is as before; in particular the piece
    that [handleCapture] credited as captured still stands on its square. *)
Theorem movePiece_writes_origin_and_destination
        (ctx ctx' : Context) (sel : Piece) (r c : Z) :
  selectedPiece ctx = Some sel ->
  gameActive (gameState ctx) = true ->
  In (mkSquare r c) (validMoves ctx) ->
  movePiece ctx r c = Ret ctx' ->
  let b := board (gameState ctx) in
  let b' := board (gameState ctx') in
  cellAt b' r c = Pc (movedPieceOf (currentPlayer (gameState ctx)) sel r c) /\
  (position sel <> mkSquare r c ->
   cellAt b' (row (position sel)) (col (position sel)) = Null) /\
  (forall r' c',
     (r' <> r \/ c' <> c) ->
     (r' <> row (position sel) \/ c' <> col (position sel)) ->
     cellAt b' r' c' = cellAt b r' c') /\
  (forall q m,
     handleCapture b (position sel) (mkSquare r c) sel
       = Ret (mkCaptureResult (Some q) (Some m)) ->
     cellAt b' (row m) (col m) = Pc q).
Proof.
  intros S A V E. cbv zeta.
  destruct (movePiece_commit_fields ctx r c S A V E)
    as [cr [cleared [w [Hc [E1 [E2 _]]]]]].
  apply boardSet_spec in E1. destruct E1 as [G1 K1].
  apply boardSet_spec in E2. destruct E2 as [G2 K2].
  assert (Frame : forall r' c',
     (r' <> r \/ c' <> c) ->
     (r' <> row (position sel) \/ c' <> col (position sel)) ->
     cellAt (board (gameState ctx')) r' c'
     = cellAt (board (gameState ctx)) r' c').
  { intros r' c' D1 D2. rewrite K2 by exact D1. now apply K1. }
  split; [exact G2 |]. split; [| split; [exact Frame |]].
  - intros D. rewrite K2; [exact G1 |].
    destruct (position sel) as [pr pc']. cbn [row col] in *.
    destruct (Z.eq_dec pr r) as [-> | N]; [| now left].
    right. intros ->. now apply D.
  - intros q m Cap. destruct (handleCapture_square _ _ _ _ Cap) as [Q [D1 D2]].
    cbn [row col] in D2. rewrite Frame; assumption.
Qed.

(** ** The list of valid moves *)

Lemma generated_squares_free (gs : GameState) (p : Piece) (ms : list Square) :
  wfBoard (board gs) = true -> onBoard (position p) = true ->
  getValidMovesForPiece gs p = Ret ms ->
  forall s, In s ms ->
    onBoard s = true /\ cellAt (board gs) (row s) (col s) = Null.
Proof.
  intros W O. unfold getValidMovesForPiece. destruct (type p).
  - rewrite (@getNormalMoves_pure _ W p O). intros [= <-] s H.
    apply (In_normalMoves _ p s W O) in H. tauto.
  - unfold getBagelMoves. rewrite (@getNormalMoves_pure _ W p O). cbn [bind].
    assert (N : forall s, In s (normalMoves (board gs) p) ->
                onBoard s = true /\ cellAt (board gs) (row s) (col s) = Null)
      by (intros s H; apply (In_normalMoves _ p s W O) in H; tauto).
    destruct (lastMoveOf (moveHistory gs)) as [[lp lf lt lc] |]; cbn [bind].
    2: { intros [= <-] s H. rewrite app_nil_r in H. now apply N. }
    destruct (negb (PlayerColor_eqb (player lp) (player p))); cbn [bind].
    2: { intros [= <-] s H. rewrite app_nil_r in H. now apply N. }
    destruct (isValidDiagonalMove (position p) lf (crowned p) (player p));
      cbn [bind].
    2: { intros [= <-] s H. rewrite app_nil_r in H. now apply N. }
    destruct (boardGet (board gs) (row lf) (col lf)) as [x | |] eqn:G;
      cbn [bind]; try discriminate.
    apply boardGet_Ret in G. intros [= <-] s H. apply in_app_or in H.
    destruct H as [H | H]; [now apply N |].
    destruct (isNull x) eqn:X; [| contradiction].
    destruct H as [<- | []]. apply isNull_eq in X. rewrite X in G.
    split; [| exact G]. unfold onBoard.
    apply (@cellAt_inBounds _ W). congruence.
  - rewrite (@getPancakeMoves_pure _ W p O). intros [= <-] s H.
    apply (In_pancakeMoves _ p s W O) in H. tauto.
  - intros [= <-] s [].
  - intros [= <-] s [].
  - intros [= <-] s [].
Qed.

(** X5.  Whatever its variant and whatever the history, every square a
    generator lists for a piece standing on a well-formed board is a square
    of the grid that is empty. *)
Theorem every_generated_square_is_free
        (gs : GameState) (p : Piece) (ms : list Square) :
  wfBoard (board gs) = true -> onBoard (position p) = true ->
  getValidMovesForPiece gs p = Ret ms ->
  forall s, In s ms ->
    (0 <= row s <= 7 /\ 0 <= col s <= 7) /\
    cellAt (board gs) (row s) (col s) = Null.
Proof.
  intros W O E s H.
  destruct (generated_squares_free gs p W O E s H) as [B N].
  unfold onBoard in B. apply inBounds_spec in B. split; [lia | exact N].
Qed.

Lemma selectPiece_accepts (ctx : Context) (p : Piece) :
  player p = currentPlayer (gameState ctx) ->
  gameActive (gameState ctx) = true ->
  selectPiece ctx p =
  (moves <- getValidMovesForPiece (gameState ctx) p ;;
   Ret (mkContext (gameState ctx) (Some p) moves (pieceSelections ctx))).
Proof.
  intros Pl A. unfold selectPiece.
  apply PlayerColor_eqb_eq in Pl. rewrite Pl, A. reflexivity.
Qed.

Lemma movePiece_commits (ctx : Context) (sel : Piece) (r c : Z) :
  selectedPiece ctx = Some sel ->
  gameActive (gameState ctx) = true ->
  In (mkSquare r c) (validMoves ctx) ->
  wfBoard (board (gameState ctx)) = true ->
  piecesOnBoard (board (gameState ctx)) = true ->
  onBoard (position sel) = true -> inBounds r c = true ->
  exists ctx',
    movePiece ctx r c = Ret ctx' /\
    currentPlayer (gameState ctx') = opponent (currentPlayer (gameState ctx)) /\
    cellAt (board (gameState ctx')) r c =
      Pc (movedPieceOf (currentPlayer (gameState ctx)) sel r c) /\
    wfBoard (board (gameState ctx')) = true /\
    piecesOnBoard (board (gameState ctx')) = true.
Proof.
  intros S A V W P O B.
  destruct (movePiece_total ctx r c S W P O B) as [ctx' E].
  destruct (movePiece_commit_fields ctx r c S A V E)
    as [cr [cleared [w [_ [E1 [E2 [_ [_ [Cu _]]]]]]]]].
  exists ctx'. split; [exact E |]. split; [exact Cu |].
  destruct (@boardSet_keeps_shape _ _ _ _ Null W P O eq_refl eq_refl E1)
    as [W1 P1].
  destruct (@boardSet_keeps_shape _ _ _ _
              (Pc (movedPieceOf (currentPlayer (gameState ctx)) sel r c))
              W1 P1 B eq_refl B E2) as [W2 P2].
  apply boardSet_spec in E2. destruct E2 as [G _]. auto.
Qed.

(** X6.  Selecting a piece of the player to move, in an active game on a
    well-formed board, lists exactly what the generator of its variant
    returns, and the following [movePiece] goes by that list alone: towards
    a listed square it commits the move -- the piece stands on the
    destination and the turn passes -- and towards any other square it
    returns the state unchanged. *)
Theorem selectPiece_then_movePiece
        (ctx ctx1 : Context) (p : Piece) :
  player p = currentPlayer (gameState ctx) ->
  gameActive (gameState ctx) = true ->
  wfBoard (board (gameState ctx)) = true ->
  piecesOnBoard (board (gameState ctx)) = true ->
  onBoard (position p) = true ->
  selectPiece ctx p = Ret ctx1 ->
  exists ms,
    getValidMovesForPiece (gameState ctx) p = Ret ms /\
    ctx1 = mkContext (gameState ctx) (Some p) ms (pieceSelections ctx) /\
    forall r c,
      (In (mkSquare r c) ms ->
       exists ctx2,
         movePiece ctx1 r c = Ret ctx2 /\
         currentPlayer (gameState ctx2)
           = opponent (currentPlayer (gameState ctx)) /\
         cellAt (board (gameState ctx2)) r c =
           Pc (movedPieceOf (currentPlayer (gameState ctx)) p r c)) /\
      (~ In (mkSquare r c) ms -> movePiece ctx1 r c = Ret ctx1).
Proof.
  intros Pl A W P O E. rewrite (selectPiece_accepts ctx p Pl A) in E.
  destruct (getValidMovesForPiece (gameState ctx) p) as [ms | |] eqn:G;
    cbn [bind] in E; try discriminate.
  injection E as <-. exists ms. split; [reflexivity |].
  split; [reflexivity |]. intros r c. split.
  - intros H.
    destruct (generated_squares_free _ p W O G _ H) as [B _].
    destruct (movePiece_commits
                (mkContext (gameState ctx) (Some p) ms (pieceSelections ctx))
                r c eq_refl A H W P O B) as [ctx2 [M [Cu [Cl _]]]].
    exists ctx2. auto.
  - intros H. unfold movePiece. cbn [selectedPiece gameState validMoves].
    rewrite A. cbn [negb].
    destruct (existsb (fun move => (row move =? r) && (col move =? c)) ms)
      eqn:X; [| reflexivity].
    apply listed_test in X. contradiction.
Qed.

(** ** Commands that name squares of the grid *)

Lemma lastOriginOnBoard_snoc (h : list Move) (m : Move) :
  lastOriginOnBoard (h ++ [m]) = onBoard (from m).
Proof. unfold lastOriginOnBoard. now rewrite lastMoveOf_snoc. Qed.

Lemma togglePieceSelection_returns
      (ctx : Context) (who : PlayerColor) (t : PieceType) (idx : Z) :
  offered (perPlayer (pieceSelections ctx) who) = [normal; bagel; pancake] ->
  In t [normal; bagel; pancake] ->
  exists sels',
    togglePieceSelection ctx who t idx =
      Ret (mkContext (gameState ctx) (selectedPiece ctx) (validMoves ctx)
                     (setPlayer (pieceSelections ctx) who sels')) /\
    offered sels' = [normal; bagel; pancake].
Proof.
  intros O I. destruct (offered_three _ O) as [a [b [c [L [Ta [Tb Tc]]]]]].
  unfold togglePieceSelection. rewrite L.
  assert (F : exists i s,
             findIndex (fun s => PieceType_eqb (sel_type s) t) [a; b; c]
               = Some i /\ nth_error [a; b; c] i = Some s).
  { destruct I as [<- | [<- | [<- | []]]]; cbn [findIndex];
      rewrite Ta, ?Tb, ?Tc; cbn [PieceType_eqb];
      [exists 0%nat, a | exists 1%nat, b | exists 2%nat, c];
      split; reflexivity. }
  destruct F as [i [s [-> E]]]. rewrite E. eexists. split; [reflexivity |].
  rewrite <- L in *.
  destruct (updateAt_addCount 1 i _ E) as [O1 _].
  destruct (updateAt_addCount (-1) i _ E) as [O2 _].
  repeat match goal with
         | |- context [if ?x then _ else _] => destruct x
         end; congruence.
Qed.

Lemma stateOk_initial : stateOk initialContext.
Proof.
  unfold stateOk. cbn.
  repeat split; try reflexivity; try discriminate; try constructor.
  all: intros who; destruct who; reflexivity.
Qed.

Lemma run_on_grid (ctx : Context) (cmd : Command) :
  stateOk ctx -> onGrid cmd ->
  exists ctx', run ctx cmd = Ret ctx' /\ stateOk ctx'.
Proof.
  intros [W [P [Sel [Vm [Lo Of]]]]] G.
  destruct cmd as [| | | | piece | | r c | who pieceType idx | piece r c];
    cbn [run onGrid] in *.
  - (* startGame *)
    eexists. split; [reflexivity |]. unfold stateOk, startGame.
    cbn [gameState board selectedPiece validMoves moveHistory pieceSelections].
    repeat split; auto. intros who; destruct who; reflexivity.
  - (* resetGame *)
    eexists. split; [reflexivity |]. unfold stateOk, resetGame.
    cbn [gameState board selectedPiece validMoves moveHistory pieceSelections].
    repeat split; auto; discriminate.
  - (* finishDraft *)
    eexists. split; [reflexivity |]. unfold finishDraft.
    match goal with |- context [if ?t then _ else _] => destruct t end;
      unfold stateOk;
      cbn [gameState board selectedPiece validMoves moveHistory
           pieceSelections];
      repeat split; auto.
  - (* finishPlacement *)
    eexists. split; [reflexivity |]. unfold stateOk, finishPlacement.
    cbn [gameState board selectedPiece validMoves moveHistory pieceSelections].
    repeat split; auto.
  - (* selectPiece *)
    unfold selectPiece.
    match goal with |- context [if ?t then _ else _] => destruct t end.
    + exists ctx. split; [reflexivity |]. unfold stateOk. auto 10.
    + destruct (generator_covers_validator (gameState ctx) piece W G Lo)
        as [ms [E _]].
      rewrite E. cbn [bind]. eexists. split; [reflexivity |].
      unfold stateOk.
      cbn [gameState board selectedPiece validMoves moveHistory
           pieceSelections].
      repeat split; auto.
      * intros sel [= <-]. exact G.
      * apply Forall_forall. intros s Hs.
        now apply (generated_squares_free _ piece W G E s Hs).
  - (* deselectPiece *)
    eexists. split; [reflexivity |]. unfold stateOk, deselectPiece.
    cbn [gameState board selectedPiece validMoves moveHistory pieceSelections].
    repeat split; auto. discriminate.
  - (* movePiece *)
    assert (Same : stateOk ctx) by (unfold stateOk; auto 10).
    destruct (selectedPiece ctx) as [sel |] eqn:S;
      [| exists ctx; unfold movePiece; rewrite S; auto].
    destruct (gameActive (gameState ctx)) eqn:A;
      [| exists ctx; unfold movePiece; rewrite S, A; auto].
    destruct (existsb (fun move => (row move =? r) && (col move =? c))
                      (validMoves ctx)) eqn:V;
      [| exists ctx; unfold movePiece; rewrite S, A, V; auto].
    apply listed_test in V.
    assert (B : inBounds r c = true)
      by (rewrite Forall_forall in Vm; exact (Vm _ V)).
    destruct (movePiece_commits ctx r c S A V W P (Sel _ eq_refl) B)
      as [ctx' [E [_ [_ [W' P']]]]].
    exists ctx'. split; [exact E |].
    destruct (movePiece_commit_fields ctx r c S A V E)
      as [cr [cleared [w [_ [_ [_ [_ [_ [_ [_ [_ [Hi [_ [_ [Se [Va Ps]]]]]]]]]]]]]]]].
    unfold stateOk. rewrite Se, Va, Hi, Ps, lastOriginOnBoard_snoc.
    cbn [from]. repeat split; auto. discriminate.
  - (* togglePieceSelection *)
    destruct (togglePieceSelection_returns ctx who idx (Of who) G)
      as [sels' [E O']].
    eexists. split; [exact E |]. unfold stateOk.
    cbn [gameState board selectedPiece validMoves moveHistory pieceSelections].
    repeat split; auto. intros who'.
    destruct who, who';
      rewrite ?perPlayer_setPlayer_same,
              ?perPlayer_setPlayer_other by discriminate; auto.
  - (* placePiece *)
    unfold placePiece.
    destruct (negb (GamePhase_eqb (phase (gameState ctx)) Placement)).
    + exists ctx. split; [reflexivity |]. unfold stateOk. auto 10.
    + destruct (boardSet_onBoard (board (gameState ctx)) r c
                  (Pc (withPosition piece (mkSquare r c))) W G) as [nb E].
      rewrite E. cbn [bind]. eexists. split; [reflexivity |].
      destruct (@boardSet_keeps_shape _ _ _ _
                  (Pc (withPosition piece (mkSquare r c)))
                  W P G eq_refl G E) as [W' P'].
      unfold stateOk.
      cbn [gameState withBoard board selectedPiece validMoves moveHistory
           pieceSelections].
      repeat split; auto.
Qed.

(** X7.  The state the provider starts with is in order, and from a state
    in order every command that names squares of the grid (a placement on
    the grid, the selection of a piece positioned on the grid) and a
    variant the draft offers returns -- it does not throw -- a state in
    order again: the board stays an 8x8 grid of empty squares and pieces
    positioned on it, selection and listed moves stay on the grid. *)
Theorem commands_on_the_grid_never_throw :
  stateOk initialContext /\
  forall ctx cmd,
    stateOk ctx -> onGrid cmd ->
    exists ctx', run ctx cmd = Ret ctx' /\ stateOk ctx'.
Proof. split; [exact stateOk_initial | exact run_on_grid]. Qed.

(** ** Jumps and captures *)

Lemma handleCapture_short (b : Board) (f t : Square) (p : Piece) :
  Z.abs (col t - col f) <> 2 -> handleCapture b f t p = Ret noCapture.
Proof.
  intros N. unfold handleCapture. apply Z.eqb_neq in N. rewrite N.
  now rewrite !andb_false_r.
Qed.

Lemma handleCapture_over (b : Board) (f : Square) (p q : Piece) (dr dc : Z) :
  dr = 1 \/ dr = -1 \/ (dr = 0 /\ type p = pancake) ->
  dc = 1 \/ dc = -1 ->
  cellAt b (row f + dr) (col f + dc) = Pc q -> player q <> player p ->
  handleCapture b f (mkSquare (row f + 2 * dr) (col f + 2 * dc)) p =
  Ret (mkCaptureResult (Some q) (Some (mkSquare (row f + dr) (col f + dc)))).
Proof.
  intros Hr Hc Q D. unfold handleCapture. cbn [row col].
  replace (row f + 2 * dr - row f) with (2 * dr) by lia.
  replace (col f + 2 * dc - col f) with (2 * dc) by lia.
  apply PlayerColor_eqb_neq in D.
  assert (G : boardGet b (row f + dr) (col f + dc) = Ret (Pc q))
    by (rewrite cellAt_boardGet; [now rewrite Q | congruence]).
  destruct Hr as [-> | [-> | [-> Ty]]]; destruct Hc as [-> | ->];
    try rewrite Ty; cbn;
    rewrite ?Z.add_0_r in *; rewrite G; cbn [bind]; rewrite D; reflexivity.
Qed.

Lemma destination_square (s : Square) (r c : Z) :
  row s = r -> col s = c -> s = mkSquare r c.
Proof. destruct s. cbn. congruence. Qed.

Lemma normal_destination_capture (b : Board) (p : Piece) (s : Square) :
  normalDestination b p s ->
  (Z.abs (col s - col (position p)) = 2 <->
   exists q m, handleCapture b (position p) s p
               = Ret (mkCaptureResult (Some q) m)).
Proof.
  intros [dr [dc [k [Hd [Hc [Hk [Er [Ec Q]]]]]]]].
  pose proof (mayHead_unit Hd) as U. destruct Hk as [-> | ->].
  - assert (N : Z.abs (col s - col (position p)) <> 2) by lia.
    rewrite (handleCapture_short b (position p) s p N). split; [lia |].
    intros [q [m H]]. discriminate.
  - destruct (Q eq_refl) as [q [Cq Dq]].
    rewrite (destination_square s Er Ec).
    rewrite (@handleCapture_over b (position p) p q dr dc); auto.
    + cbn [col]. split; [eauto | lia].
    + tauto.
Qed.

Lemma pancake_destination_capture (b : Board) (p : Piece) (s : Square) :
  type p = pancake -> pancakeDestination b p s ->
  (Z.abs (col s - col (position p)) = 2 <->
   exists q m, handleCapture b (position p) s p
               = Ret (mkCaptureResult (Some q) m)).
Proof.
  intros Ty [dr [dc [k [Hd [Hc [Hk [Er [Ec Q]]]]]]]].
  destruct Hk as [-> | ->].
  - assert (N : Z.abs (col s - col (position p)) <> 2) by lia.
    rewrite (handleCapture_short b (position p) s p N). split; [lia |].
    intros [q [m H]]. discriminate.
  - destruct (Q eq_refl) as [q [Cq Dq]].
    rewrite (destination_square s Er Ec).
    rewrite (@handleCapture_over b (position p) p q dr dc); auto.
    + cbn [col]. split; [eauto | lia].
    + tauto.
Qed.

(** X8.  Generator and capture resolver agree.  On a well-formed board,
    for a Normal piece or a Pancake standing on the board, a square the
    generator lists is credited a capture by [handleCapture] exactly when
    it lies two columns away: every listed jump captures, no listed step
    does. *)
Theorem listed_jumps_are_the_captures
        (gs : GameState) (p : Piece) (ms : list Square) :
  wfBoard (board gs) = true -> onBoard (position p) = true ->
  type p = normal \/ type p = pancake ->
  getValidMovesForPiece gs p = Ret ms ->
  forall s, In s ms ->
    (Z.abs (col s - col (position p)) = 2 <->
     exists q m, handleCapture (board gs) (position p) s p
                 = Ret (mkCaptureResult (Some q) m)).
Proof.
  intros W O Ty. unfold getValidMovesForPiece.
  destruct Ty as [Ty | Ty]; rewrite Ty.
  - rewrite (@getNormalMoves_pure _ W p O). intros [= <-] s H.
    apply (In_normalMoves _ p s W O) in H.
    now apply normal_destination_capture.
  - rewrite (@getPancakeMoves_pure _ W p O). intros [= <-] s H.
    apply (In_pancakeMoves _ p s W O) in H.
    now apply pancake_destination_capture.
Qed.

Lemma accepted_destination (b : Board) (p : Piece) (t : Square) :
  wfBoard b = true -> onBoard (position p) = true ->
  isValidMove b (position p) t p = Ret true ->
  normalDestination b p t \/ (type p = pancake /\ pancakeDestination b p t).
Proof.
  intros W O V. destruct (isValidMove_true _ _ _ _ V) as [T N].
  rewrite (isValidMove_onBoard b (position p) t p W T N) in V.
  destruct (isValidNormalMove_spec b p t W O T) as [v [E I]].
  destruct (isValidPancakeMove_spec b p t W O T N) as [v' [E' [I' _]]].
  unfold isValidBagelMove in V. destruct (type p) eqn:Ty; try discriminate.
  - left. apply I. congruence.
  - left. apply I. rewrite E in V. cbn [bind] in V. destruct v; congruence.
  - right. split; [reflexivity |]. apply I'. congruence.
Qed.

(** X9.  The capture test of the Medium and Hard tiers is exact on what the
    validator accepts.  On a well-formed board, for a piece standing on the
    board, a destination that [isValidMove] accepts lies two columns away
    exactly when [handleCapture] credits a capture for it. *)
Theorem column_distance_two_means_capture
        (b : Board) (p : Piece) (t : Square) :
  wfBoard b = true -> onBoard (position p) = true ->
  isValidMove b (position p) t p = Ret true ->
  (aiService.looksLikeCapture (p, t) = true <->
   exists q m, handleCapture b (position p) t p
               = Ret (mkCaptureResult (Some q) m)).
Proof.
  intros W O V. unfold aiService.looksLikeCapture. cbn [fst snd].
  rewrite Z.eqb_eq.
  destruct (accepted_destination b p t W O V) as [D | [Ty D]].
  - now apply normal_destination_capture.
  - now apply pancake_destination_capture.
Qed.

(** ** What the computer opponent returns, on any board *)

Lemma pushWhen_sound {A B : Type} (cond : A -> js bool) (f : A -> B)
      (xs : list A) (out : list B) :
  pushWhen cond f xs = Ret out ->
  forall y, In y out -> exists x, In x xs /\ y = f x /\ cond x = Ret true.
Proof.
  revert out. induction xs as [| x rest IH]; intros out; cbn [pushWhen].
  - intros [= <-] y [].
  - destruct (cond x) as [v | |] eqn:C; cbn [bind]; try discriminate.
    destruct (pushWhen cond f rest) as [o | |]; cbn [bind]; try discriminate.
    intros [= <-] y H.
    assert (Rest : In y o -> exists x0, In x0 (x :: rest) /\ y = f x0 /\
                                        cond x0 = Ret true).
    { intros Hy. destruct (IH o eq_refl y Hy) as [x0 [I0 [E0 C0]]].
      exists x0. split; [now right | auto]. }
    destruct v; [| now apply Rest].
    destruct H as [<- | H]; [| now apply Rest].
    exists x. split; [now left | auto].
Qed.

Lemma ai_getValidMovesForPiece_sound (b : Board) (p : Piece)
      (ms : list Square) :
  aiService.getValidMovesForPiece p b = Ret ms ->
  forall t, In t ms -> isValidMove b (position p) t p = Ret true.
Proof.
  unfold aiService.getValidMovesForPiece. intros E t H.
  destruct (pushWhen_sound _ _ _ E t H) as [x [_ [-> C]]].
  destruct (boardGet b (row x) (col x)) as [tp | |]; cbn [bind] in C;
    try discriminate.
  destruct (truthy tp && negb (playerDiffers tp (player p)));
    [discriminate | exact C].
Qed.

Lemma collectMoves_sound (b : Board) (ps : list Piece)
      (cands : list aiService.Candidate) :
  aiService.collectMoves b ps = Ret cands ->
  forall m, In m cands ->
    In (fst m) ps /\
    isValidMove b (position (fst m)) (snd m) (fst m) = Ret true.
Proof.
  revert cands. induction ps as [| p rest IH]; intros cands;
    cbn [aiService.collectMoves].
  - intros [= <-] m [].
  - destruct (aiService.getValidMovesForPiece p b) as [ms | |] eqn:G;
      cbn [bind]; try discriminate.
    destruct (aiService.collectMoves b rest) as [others | |]; cbn [bind];
      try discriminate.
    intros [= <-] m H. apply in_app_or in H. destruct H as [H | H].
    + apply in_map_iff in H. destruct H as [t [<- Ht]]. cbn [fst snd].
      split; [now left |]. now apply (ai_getValidMovesForPiece_sound _ _ G).
    + destruct (IH others eq_refl m H) as [I V]. split; [now right | exact V].
Qed.

Lemma getNextMove_Some (d : aiService.AIDifficulty) (rnd : nat)
      (gs : GameState) (m : Move) :
  aiService.getNextMove d rnd gs = Ret (Some m) ->
  currentPlayer gs = aiService.playerColor /\
  In (piece m) (aiService.getAIPieces gs) /\
  from m = position (piece m) /\ captured m = None /\
  isValidMove (board gs) (position (piece m)) (to m) (piece m) = Ret true.
Proof.
  unfold aiService.getNextMove.
  destruct (PlayerColor_eqb (currentPlayer gs) aiService.playerColor) eqn:Cur;
    cbn [negb]; [| discriminate].
  apply PlayerColor_eqb_eq in Cur.
  destruct (negb (nonEmpty (aiService.getAIPieces gs))); [discriminate |].
  destruct (aiService.collectMoves (board gs) (aiService.getAIPieces gs))
    as [cands | |] eqn:C; cbn [bind]; try discriminate.
  destruct (negb (nonEmpty cands)); [discriminate |].
  destruct (aiService.selectMove d rnd cands) as [sm |] eqn:S;
    [| discriminate].
  intros [= <-]. cbn [piece from to captured].
  apply selectMove_In in S.
  destruct (collectMoves_sound _ _ C sm S) as [I V]. auto.
Qed.

Lemma isValidMove_without_rules (b : Board) (f t : Square) (p : Piece) :
  In (type p) [bomb; vinyl; flying_disk] -> isValidMove b f t p <> Ret true.
Proof.
  intros Ty. unfold isValidMove.
  destruct (boardGet b (row t) (col t)) as [x | |]; cbn [bind];
    try discriminate.
  destruct (negb (isNull x)); [discriminate |].
  match goal with |- context [if ?c then _ else _] => destruct c end;
    [discriminate |].
  destruct Ty as [Ty | [Ty | [Ty | []]]]; rewrite <- Ty; discriminate.
Qed.

(** X10.  Bomb, vinyl and flying disk do not move.  For a piece of these
    variants the generator lists nothing and the validator accepts nothing,
    on any board; and whatever [getNextMove] returns, at any tier and on
    any board, is a move of a normal piece, a bagel or a pancake that
    belongs to the computer, accepted by [isValidMove], in the computer's
    turn. *)
Theorem variants_without_rules_do_not_move :
  (forall p,
     In (type p) [bomb; vinyl; flying_disk] ->
     (forall gs, getValidMovesForPiece gs p = Ret []) /\
     (forall b, scanMoves b p = Ret []) /\
     (forall b f t, isValidMove b f t p <> Ret true)) /\
  (forall d rnd gs m,
     aiService.getNextMove d rnd gs = Ret (Some m) ->
     In (type (piece m)) [normal; bagel; pancake] /\
     player (piece m) = aiService.playerColor /\
     currentPlayer gs = aiService.playerColor /\
     isValidMove (board gs) (from m) (to m) (piece m) = Ret true).
Proof.
  split.
  - intros p Ty. split; [| split].
    + intros gs. unfold getValidMovesForPiece.
      destruct Ty as [Ty | [Ty | [Ty | []]]]; now rewrite <- Ty.
    + intros b. unfold scanMoves.
      destruct Ty as [Ty | [Ty | [Ty | []]]]; now rewrite <- Ty.
    + intros b f t. now apply isValidMove_without_rules.
  - intros d rnd gs m E.
    destruct (getNextMove_Some _ _ _ E) as [Cur [I [F [_ V]]]].
    rewrite F. split; [| split; [| split; [exact Cur | exact V]]].
    + destruct (type (piece m)) eqn:Ty; cbn; auto;
        exfalso; apply (isValidMove_without_rules (board gs)
                          (position (piece m)) (to m) (piece m));
        try exact V; rewrite Ty; cbn; auto.
    + unfold aiService.getAIPieces in I.
      apply in_flat_map in I. destruct I as [rw [_ I]].
      apply in_flat_map in I. destruct I as [x [_ I]].
      destruct x as [| | q]; try contradiction.
      destruct (PlayerColor_eqb (player q) aiService.playerColor) eqn:Q;
        [| contradiction].
      destruct I as [<- | []]. now apply PlayerColor_eqb_eq.
Qed.

(** X11.  The state machine accepts what the computer opponent returns.
    In an active game on a well-formed board whose pieces are positioned on
    the grid, with a history whose last move started on the grid: selecting
    the piece of the returned move and moving it to the returned
    destination commits the move -- the piece stands on the destination and
    it is red's turn. *)
Theorem getNextMove_is_accepted_by_the_state_machine
        (d : aiService.AIDifficulty) (rnd : nat) (ctx : Context) (m : Move) :
  wfBoard (board (gameState ctx)) = true ->
  piecesOnBoard (board (gameState ctx)) = true ->
  lastOriginOnBoard (moveHistory (gameState ctx)) = true ->
  gameActive (gameState ctx) = true ->
  aiService.getNextMove d rnd (gameState ctx) = Ret (Some m) ->
  exists ctx1 ctx2,
    selectPiece ctx (piece m) = Ret ctx1 /\
    movePiece ctx1 (row (to m)) (col (to m)) = Ret ctx2 /\
    currentPlayer (gameState ctx2) = red /\
    cellAt (board (gameState ctx2)) (row (to m)) (col (to m)) =
      Pc (movedPieceOf blue (piece m) (row (to m)) (col (to m))).
Proof.
  intros W P L A E.
  destruct (getNextMove_Some _ _ _ E) as [Cur [I [_ [_ V]]]].
  destruct (aiPiece_spec _ _ P I) as [O Pl].
  destruct (generator_covers_validator (gameState ctx) (piece m) W O L)
    as [ms [G C]].
  assert (Own : player (piece m) = currentPlayer (gameState ctx)) by congruence.
  pose proof (selectPiece_accepts ctx (piece m) Own A) as S.
  rewrite G in S. cbn [bind] in S.
  assert (H : In (mkSquare (row (to m)) (col (to m))) ms).
  { replace (mkSquare (row (to m)) (col (to m))) with (to m)
      by now destruct (to m).
    now apply C. }
  destruct (generated_squares_free _ (piece m) W O G _ H) as [B _].
  destruct (movePiece_commits
              (mkContext (gameState ctx) (Some (piece m)) ms
                         (pieceSelections ctx))
              (row (to m)) (col (to m)) eq_refl A H W P O B)
    as [ctx2 [M [Cu [Cl _]]]].
  cbn [gameState] in Cu, Cl. rewrite Cur in Cu, Cl.
  eexists. exists ctx2. split; [exact S |]. split; [exact M |].
  split; [exact Cu | exact Cl].
Qed.

(** ** The squares of the placement *)

(** X12.  [getInitialPlacementSquares] returns the twelve dark squares of
    the player's first three rows: a square is in the list exactly when
    its row is 0..2 for red and 5..7 for blue, its column is 0..7 and row
    plus column is odd; no square is listed twice.  The squares the
    computer opponent computes for itself, [getValidPlacementSquares], are
    the very list of blue. *)
Theorem getInitialPlacementSquares_are_the_dark_home_squares :
  (forall player s,
     In s (getInitialPlacementSquares player) <->
     (match player with
      | red => 0 <= row s <= 2
      | blue => 5 <= row s <= 7
      end) /\ 0 <= col s <= 7 /\ Z.odd (row s + col s) = true) /\
  (forall player,
     List.length (getInitialPlacementSquares player) = 12%nat /\
     NoDup (getInitialPlacementSquares player)) /\
  aiService.getValidPlacementSquares = getInitialPlacementSquares blue.
Proof.
  split; [| split].
  - intros player [r c]. cbn [row col]. split.
    + intros H. destruct player; vm_compute in H;
        repeat (destruct H as [H | H];
                [injection H as <- <-; repeat split; try lia; reflexivity |]);
        contradiction.
    + intros [Hr [Hc Odd]].
      destruct player; split_range Hr; split_range Hc;
        try (vm_compute in Odd; discriminate);
        vm_compute; tauto.
  - intros player. split; [destruct player; reflexivity |].
    destruct player; vm_compute;
      repeat (constructor; [cbn; intuition discriminate |]); constructor.
  - reflexivity.
Qed.

(** ** Placement decisions of the Easy and Medium tiers *)

Lemma insertByValueDesc_perm (x : Piece) (l : list Piece) :
  Permutation (aiService.insertByValueDesc x l) (x :: l).
Proof.
  induction l as [| y rest IH]; cbn [aiService.insertByValueDesc];
    [reflexivity |].
  destruct (_ <=? _); [| reflexivity].
  rewrite IH. apply perm_swap.
Qed.

Lemma sortByValueDesc_perm (l : list Piece) :
  Permutation (aiService.sortByValueDesc l) l.
Proof.
  unfold aiService.sortByValueDesc.
  assert (G : forall acc,
             Permutation (fold_left (fun acc x =>
                            aiService.insertByValueDesc x acc) l acc)
                         (l ++ acc)).
  { induction l as [| x rest IH]; intros acc; cbn [fold_left app];
      [reflexivity |].
    rewrite IH, insertByValueDesc_perm. now rewrite Permutation_middle. }
  rewrite G. now rewrite app_nil_r.
Qed.

Lemma insertByValueDesc_sorted (x : Piece) (l : list Piece) :
  StronglySorted worthAtLeast l ->
  StronglySorted worthAtLeast (aiService.insertByValueDesc x l).
Proof.
  induction 1 as [| y rest S IH F]; cbn [aiService.insertByValueDesc].
  - repeat constructor.
  - destruct (_ <=? _) eqn:C.
    + apply Z.leb_le in C. constructor; [exact IH |].
      rewrite Forall_forall in *. intros z Hz.
      apply (Permutation_in _ (insertByValueDesc_perm x rest)) in Hz.
      destruct Hz as [<- | Hz]; [exact C | now apply F].
    + apply Z.leb_gt in C. constructor; [now constructor |].
      constructor; [unfold worthAtLeast; lia |].
      rewrite Forall_forall in *. intros z Hz. specialize (F z Hz).
      unfold worthAtLeast in *. lia.
Qed.

Lemma sortByValueDesc_sorted (l : list Piece) :
  StronglySorted worthAtLeast (aiService.sortByValueDesc l).
Proof.
  unfold aiService.sortByValueDesc.
  assert (G : forall acc, StronglySorted worthAtLeast acc ->
             StronglySorted worthAtLeast
               (fold_left (fun acc x => aiService.insertByValueDesc x acc)
                          l acc)).
  { induction l as [| x rest IH]; intros acc A; cbn [fold_left]; [exact A |].
    apply IH. now apply insertByValueDesc_sorted. }
  apply G. constructor.
Qed.

Lemma assignSquares_pieces (edge : list Square) (ps : list Piece)
      (cur : list Square) (idx : nat) :
  edge <> [] -> map fst (aiService.assignSquares edge ps cur idx) = ps.
Proof.
  intros N. revert cur idx.
  induction ps as [| p rest IH]; intros cur idx;
    cbn [aiService.assignSquares]; [reflexivity |].
  destruct (List.length cur <=? idx)%nat eqn:L.
  - destruct edge as [| e0 es]; [congruence |]. cbn. now rewrite IH.
  - apply Nat.leb_gt in L. destruct (nth_error cur idx) as [pos |] eqn:E.
    + cbn. now rewrite IH.
    + apply nth_error_None in E. lia.
Qed.

Lemma assignSquares_slots (edge : list Square) (ps : list Piece)
      (cur : list Square) (idx : nat) :
  edge <> [] ->
  map snd (aiService.assignSquares edge ps cur idx)
  = slots edge (List.length ps) cur idx.
Proof.
  intros N. revert cur idx.
  induction ps as [| p rest IH]; intros cur idx;
    cbn [aiService.assignSquares slots List.length]; [reflexivity |].
  destruct (List.length cur <=? idx)%nat.
  - destruct edge as [| e0 es]; [congruence |]. cbn. now rewrite IH.
  - destruct (nth_error cur idx) as [pos |]; [| reflexivity].
    cbn. now rewrite IH.
Qed.

Lemma slots_in (edge : list Square) (n : nat) (cur : list Square) (idx : nat) :
  forall s, In s (slots edge n cur idx) -> In s cur \/ In s edge.
Proof.
  revert cur idx. induction n as [| k IH]; intros cur idx s; cbn [slots];
    [contradiction |].
  destruct (List.length cur <=? idx)%nat.
  - destruct (nth_error edge 0) as [pos |] eqn:E; [| contradiction].
    intros [<- | H].
    + right. eapply nth_error_In; eassumption.
    + right. destruct (IH _ _ _ H); assumption.
  - destruct (nth_error cur idx) as [pos |] eqn:E; [| contradiction].
    intros [<- | H].
    + left. eapply nth_error_In; eassumption.
    + now apply (IH _ _ _ H).
Qed.

Lemma slots_prefix (edge : list Square) (n k : nat) (cur : list Square)
      (idx : nat) :
  exists tail,
    slots edge (n + k) cur idx = slots edge n cur idx ++ tail.
Proof.
  revert cur idx. induction n as [| m IH]; intros cur idx.
  - cbn [slots Nat.add app]. eauto.
  - cbn [slots Nat.add].
    destruct (List.length cur <=? idx)%nat.
    + destruct (nth_error edge 0) as [pos |]; [| exists []; reflexivity].
      destruct (IH edge 1%nat) as [tail ->]. exists tail. reflexivity.
    + destruct (nth_error cur idx) as [pos |]; [| exists []; reflexivity].
      destruct (IH cur (S idx)) as [tail ->]. exists tail. reflexivity.
Qed.

Lemma slots_up_to_twelve (n : nat) :
  (n <= 12)%nat -> NoDup (slots edgeSquares n centerSquares 0).
Proof.
  intros H.
  do 13 (destruct n as [| n];
         [vm_compute;
          repeat (constructor; [cbn; intuition discriminate |]); constructor
         |]).
  lia.
Qed.

Lemma slots_beyond_twelve (n : nat) :
  (12 < n)%nat -> ~ NoDup (slots edgeSquares n centerSquares 0).
Proof.
  intros H D. replace n with (13 + (n - 13))%nat in D by lia.
  destruct (slots_prefix edgeSquares 13 (n - 13) centerSquares 0)
    as [tail E].
  rewrite E in D. apply NoDup_app_remove_r in D.
  rewrite NoDup_nth_error in D.
  assert (X : 6%nat = 12%nat); [| discriminate].
  apply D; [vm_compute; lia | reflexivity].
Qed.

(** X13.  [BaseAI.getPlacementDecisions], the placement of the Easy and
    Medium tiers, gives every available piece one decision, the pieces in
    descending order of value, each on one of the computer's twelve
    placement squares.  For up to twelve pieces all positions differ; from
    the thirteenth piece on the edge squares are handed out again, so
    positions repeat. *)
Theorem base_placement_decisions (availablePieces : list Piece) :
  let decisions := aiService.getPlacementDecisionsBase availablePieces in
  Permutation (map fst decisions) availablePieces /\
  StronglySorted worthAtLeast (map fst decisions) /\
  (forall d, In d decisions ->
             In (snd d) aiService.getValidPlacementSquares) /\
  ((List.length availablePieces <= 12)%nat -> NoDup (map snd decisions)) /\
  ((12 < List.length availablePieces)%nat -> ~ NoDup (map snd decisions)).
Proof.
  cbv zeta. unfold aiService.getPlacementDecisionsBase.
  fold centerSquares. fold edgeSquares.
  change (nonEmpty centerSquares) with true. cbv iota.
  assert (N : edgeSquares <> []) by (vm_compute; discriminate).
  rewrite (@assignSquares_pieces _
             (aiService.sortByValueDesc availablePieces) centerSquares 0 N).
  rewrite (@assignSquares_slots _
             (aiService.sortByValueDesc availablePieces) centerSquares 0 N).
  rewrite (Permutation_length (sortByValueDesc_perm availablePieces)).
  split; [apply sortByValueDesc_perm |].
  split; [apply sortByValueDesc_sorted |].
  split; [| split; [apply slots_up_to_twelve | apply slots_beyond_twelve]].
  intros d H. apply (in_map snd) in H.
  rewrite (@assignSquares_slots _
             (aiService.sortByValueDesc availablePieces) centerSquares 0 N)
    in H.
  apply slots_in in H. unfold centerSquares, edgeSquares in H.
  destruct H as [H | H]; apply filter_In in H; tauto.
Qed.

(** ** Placement decisions of the Hard tier *)

Lemma getNextPosition_Some (used squares : list Square) (p : Square) :
  aiService.getNextPosition used squares = Some p ->
  In p squares /\ ~ In p used.
Proof.
  unfold aiService.getNextPosition.
  destruct (filter _ squares) as [| x l] eqn:F; cbn [hd_error];
    [discriminate |].
  intros E. assert (x = p) by congruence. subst x.
  assert (I : In p (filter
                      (fun sq =>
                         negb (existsb (fun pos => (row pos =? row sq)
                                                   && (col pos =? col sq))
                                       used)) squares))
    by (rewrite F; now left).
  apply filter_In in I. destruct I as [I N]. split; [exact I |].
  intros U. apply negb_true_iff in N.
  assert (T : existsb (fun pos => (row pos =? row p) && (col pos =? col p))
                      used = true).
  { apply existsb_exists. exists p. now rewrite !Z.eqb_refl. }
  congruence.
Qed.

Lemma getNextPosition_None (used squares : list Square) :
  aiService.getNextPosition used squares = None -> incl squares used.
Proof.
  unfold aiService.getNextPosition. intros E s I.
  destruct (existsb (fun pos => (row pos =? row s) && (col pos =? col s))
                    used) eqn:X.
  - apply existsb_exists in X. destruct X as [pos [U X]].
    apply andb_true_iff in X. rewrite !Z.eqb_eq in X.
    destruct pos, s. cbn in X. destruct X. now subst.
  - assert (F : In s (filter
                        (fun sq =>
                           negb (existsb (fun pos => (row pos =? row sq)
                                                     && (col pos =? col sq))
                                         used)) squares))
      by (apply filter_In; split; [exact I | now rewrite X]).
    destruct (filter _ squares); [contradiction | discriminate].
Qed.

Lemma placeGroup_tidy (availablePieces : list Piece)
      (choose : list Square -> option Square) (pieces : list Piece) :
  (forall used p piece,
      In piece pieces -> choose used = Some p ->
      ~ In p used /\ decisionOk availablePieces (piece, p)) ->
  forall st, tidy availablePieces st ->
             tidy availablePieces (aiService.placeGroup choose pieces st).
Proof.
  induction pieces as [| piece rest IH]; intros C st T;
    cbn [aiService.placeGroup]; [exact T |].
  assert (C' : forall used p piece0,
             In piece0 rest -> choose used = Some p ->
             ~ In p used /\ decisionOk availablePieces (piece0, p))
    by (intros; apply C; [now right | assumption]).
  destruct (choose (snd st)) as [position |] eqn:E; [| now apply IH].
  apply IH; [exact C' |].
  destruct (C _ _ piece (or_introl eq_refl) E) as [N D].
  destruct T as [M [U F]]. unfold tidy. cbn [fst snd].
  split; [now rewrite map_app, M |].
  split.
  - apply NoDup_app; [exact U | repeat constructor; intros [] |].
    intros x Hx [<- | []]. now apply N.
  - apply Forall_app. split; [exact F | now constructor].
Qed.

Lemma placeGroup_stuck (choose : list Square -> option Square)
      (pieces : list Piece) (st : list aiService.Decision * list Square) :
  choose (snd st) = None -> aiService.placeGroup choose pieces st = st.
Proof.
  intros E. induction pieces as [| piece rest IH];
    cbn [aiService.placeGroup]; [reflexivity |].
  now rewrite E.
Qed.

Lemma placeGroup_grows (choose : list Square -> option Square)
      (pieces : list Piece) :
  forall st, exists tail,
    fst (aiService.placeGroup choose pieces st) = fst st ++ tail.
Proof.
  induction pieces as [| piece rest IH]; intros st;
    cbn [aiService.placeGroup].
  - exists []. now rewrite app_nil_r.
  - destruct (choose (snd st)) as [position |]; [| apply IH].
    destruct (IH (fst st ++ [(piece, position)], snd st ++ [position]))
      as [tail E].
    rewrite E. cbn [fst]. rewrite <- app_assoc. eauto.
Qed.

Lemma placeGroup_places (choose : list Square -> option Square)
      (pieces : list Piece) (piece : Piece) :
  In piece pieces ->
  forall st,
    (exists p, In (piece, p) (fst (aiService.placeGroup choose pieces st))) \/
    choose (snd (aiService.placeGroup choose pieces st)) = None.
Proof.
  induction pieces as [| q rest IH]; intros I st; [contradiction |].
  cbn [aiService.placeGroup].
  destruct I as [-> | I].
  - destruct (choose (snd st)) as [position |] eqn:E.
    + left. exists position.
      destruct (placeGroup_grows choose rest
                  (fst st ++ [(piece, position)], snd st ++ [position]))
        as [tail G].
      rewrite G. cbn [fst]. rewrite !in_app_iff. left. right. now left.
    + right. now rewrite placeGroup_stuck.
  - destruct (choose (snd st)); now apply IH.
Qed.

Lemma piecesOfType_spec (t : PieceType) (availablePieces : list Piece)
      (piece : Piece) :
  In piece (aiService.piecesOfType t availablePieces) <->
  In piece availablePieces /\ type piece = t.
Proof.
  unfold aiService.piecesOfType. now rewrite filter_In, PieceType_eqb_eq.
Qed.

Lemma zone_choice (availablePieces : list Piece) (t : PieceType)
      (squares : list Square) :
  (forall s, In s squares ->
             In s aiService.getValidPlacementSquares /\ inZone t s) ->
  forall used p piece,
    In piece (aiService.piecesOfType t availablePieces) ->
    aiService.getNextPosition used squares = Some p ->
    ~ In p used /\ decisionOk availablePieces (piece, p).
Proof.
  intros Z used p piece I E.
  apply piecesOfType_spec in I. destruct I as [I T].
  apply getNextPosition_Some in E. destruct E as [S N].
  split; [exact N |]. unfold decisionOk. cbn [fst snd]. rewrite T.
  destruct (Z _ S). auto.
Qed.

Lemma includes_spec (columns : list Z) (x : Z) :
  aiService.includes columns x = true <-> In x columns.
Proof.
  unfold aiService.includes. rewrite existsb_exists. split.
  - intros [y [I E]]. apply Z.eqb_eq in E. now subst.
  - intros I. exists x. now rewrite Z.eqb_refl.
Qed.

(** The six loops, the last two written with their choice functions. *)
Lemma hard_stages (availablePieces : list Piece) :
  exists st,
    tidy availablePieces st /\
    aiService.getPlacementDecisionsHard availablePieces
    = fst (aiService.placeGroup chooseAnywhere
             (aiService.piecesOfType normal availablePieces)
             (aiService.placeGroup chooseCenterFirst
                (aiService.piecesOfType bagel availablePieces) st)).
Proof.
  eexists. split; [| unfold aiService.getPlacementDecisionsHard; cbv zeta;
                     reflexivity].
  fold centerSquares. fold edgeSquares.
  repeat (apply placeGroup_tidy;
          [apply zone_choice; intros s I; apply filter_In in I;
           destruct I as [I Z]; split; [exact I |] |]).
  - apply includes_spec in Z. cbn in Z. cbn [inZone]. lia.
  - apply Z.eqb_eq in Z. exact Z.
  - apply includes_spec in Z. cbn in Z. cbn [inZone]. lia.
  - apply Z.eqb_eq in Z. exact Z.
  - unfold tidy. cbn [fst snd map]. repeat split; constructor.
Qed.

Lemma hard_tidy (availablePieces : list Piece) :
  exists used,
    tidy availablePieces
         (aiService.getPlacementDecisionsHard availablePieces, used).
Proof.
  destruct (hard_stages availablePieces) as [st [T E]]. rewrite E.
  match goal with
  | |- context [fst ?x] => exists (snd x); rewrite <- surjective_pairing
  end.
  apply placeGroup_tidy.
  - intros used p piece I C. apply piecesOfType_spec in I.
    apply getNextPosition_Some in C. unfold decisionOk. cbn [fst snd].
    destruct I as [I ->]. cbn [inZone]. tauto.
  - apply placeGroup_tidy; [| exact T].
    intros used p piece I C. apply piecesOfType_spec in I.
    unfold chooseCenterFirst in C.
    assert (G : In p aiService.getValidPlacementSquares /\ ~ In p used).
    { destruct (aiService.getNextPosition used centerSquares) eqn:X.
      - assert (s = p) by congruence. subst s.
        apply getNextPosition_Some in X. destruct X as [X N].
        apply filter_In in X. tauto.
      - now apply getNextPosition_Some in C. }
    unfold decisionOk. cbn [fst snd]. destruct I as [I ->]. cbn [inZone].
    tauto.
Qed.

Lemma NoDup_map_filter (A B : Type) (g : A -> B) (f : A -> bool)
      (l : list A) :
  NoDup (map g l) -> NoDup (map g (filter f l)).
Proof.
  induction l as [| x r IH]; cbn [map filter]; intros D; [constructor |].
  inversion D as [| y ys N D' E]. subst.
  destruct (f x); [| now apply IH].
  cbn [map]. constructor; [| now apply IH].
  intros I. apply N. apply in_map_iff in I. destruct I as [y [E I]].
  apply filter_In in I. rewrite <- E. apply in_map. tauto.
Qed.

Lemma zone_holds (t : PieceType) (l : list Square) :
  NoDup l ->
  (forall s, In s l ->
             In s aiService.getValidPlacementSquares /\ inZone t s) ->
  (List.length l <= zoneCapacity t)%nat.
Proof.
  intros D H.
  assert (G : forall f : Square -> bool,
             (forall s, In s l -> f s = true) ->
             (List.length l
              <= List.length (filter f aiService.getValidPlacementSquares))%nat).
  { intros f F. apply NoDup_incl_length; [exact D |].
    intros s I. apply filter_In. split; [now apply H | now apply F]. }
  destruct t; cbn [zoneCapacity].
  - apply (G (fun _ => true)). reflexivity.
  - apply (G (fun _ => true)). reflexivity.
  - apply (G (fun sq => (2 <=? col sq) && (col sq <=? 5))).
    intros s I. destruct (H s I) as [_ Z]. cbn [inZone] in Z.
    apply andb_true_iff. rewrite !Z.leb_le. exact Z.
  - apply (G (fun sq => row sq =? 5)).
    intros s I. destruct (H s I) as [_ Z]. now apply Z.eqb_eq.
  - apply (G (fun sq => (col sq <=? 1) || (6 <=? col sq))).
    intros s I. destruct (H s I) as [_ Z]. cbn [inZone] in Z.
    apply orb_true_iff. rewrite !Z.leb_le. exact Z.
  - apply (G (fun sq => row sq =? 7)).
    intros s I. destruct (H s I) as [_ Z]. now apply Z.eqb_eq.
Qed.

Lemma placement_squares_NoDup : NoDup aiService.getValidPlacementSquares.
Proof.
  vm_compute.
  repeat (constructor; [cbn; intuition discriminate |]). constructor.
Qed.

(** X14.  [HardAI.getPlacementDecisions] never uses a position twice.
    Every decision places a piece of the input on one of the computer's
    twelve placement squares, inside the zone of its variant: a flying disk
    on row 7, a pancake in columns 2 to 5, a bomb on row 5, a vinyl in
    columns 0, 1, 6 or 7.  So at most four flying disks, four bombs, six
    pancakes and six vinyls are placed, and at most twelve pieces in all,
    however many are available. *)
Theorem hard_placement_decisions (availablePieces : list Piece) :
  let decisions := aiService.getPlacementDecisionsHard availablePieces in
  NoDup (map snd decisions) /\
  (forall d, In d decisions -> decisionOk availablePieces d) /\
  (List.length decisions <= 12)%nat /\
  (forall t,
      (List.length
         (filter (fun d => PieceType_eqb (type (fst d)) t) decisions)
       <= zoneCapacity t)%nat).
Proof.
  cbv zeta. destruct (hard_tidy availablePieces) as [used [M [D F]]].
  cbn [fst snd] in M, D, F. subst used. rewrite Forall_forall in F.
  split; [exact D |]. split; [exact F |]. split.
  - rewrite <- (length_map (@snd Piece Square)).
    apply (@zone_holds normal); [exact D |].
    intros s I. apply in_map_iff in I. destruct I as [d [<- I]].
    split; [apply (F d I) | exact Logic.I].
  - intros t.
    rewrite <- (length_map (@snd Piece Square)).
    apply zone_holds; [now apply NoDup_map_filter |].
    intros s I. apply in_map_iff in I. destruct I as [d [<- I]].
    apply filter_In in I. destruct I as [I T].
    apply PieceType_eqb_eq in T. rewrite <- T.
    destruct (F d I) as [_ G]. exact G.
Qed.

(** X15.  [HardAI.getPlacementDecisions] leaves a bagel or a normal piece
    of the input out only when all twelve placement squares are taken. *)
Theorem hard_placement_leaves_out_when_full
        (availablePieces : list Piece) (piece : Piece) :
  In piece availablePieces ->
  type piece = bagel \/ type piece = normal ->
  let decisions := aiService.getPlacementDecisionsHard availablePieces in
  (exists position, In (piece, position) decisions) \/
  List.length decisions = 12%nat.
Proof.
  intros I T. cbv zeta.
  assert (L : (List.length
                 (aiService.getPlacementDecisionsHard availablePieces)
               <= 12)%nat).
  { destruct (hard_tidy availablePieces) as [used [M [D F]]].
    cbn [fst snd] in M, D, F. subst used. rewrite Forall_forall in F.
    rewrite <- (length_map (@snd Piece Square)).
    apply (@zone_holds normal); [exact D |].
    intros s J. apply in_map_iff in J. destruct J as [d [<- J]].
    split; [apply (F d J) | exact Logic.I]. }
  revert L. destruct (hard_stages availablePieces) as [st [S ->]].
  set (afterBagels := aiService.placeGroup chooseCenterFirst _ st).
  set (final := aiService.placeGroup chooseAnywhere _ afterBagels).
  intros L.
  assert (TB : tidy availablePieces afterBagels).
  { apply placeGroup_tidy; [| exact S].
    intros used p q J C. apply piecesOfType_spec in J.
    unfold chooseCenterFirst in C.
    assert (G : In p aiService.getValidPlacementSquares /\ ~ In p used).
    { destruct (aiService.getNextPosition used centerSquares) eqn:X.
      - assert (s = p) by congruence. subst s.
        apply getNextPosition_Some in X. destruct X as [X N].
        apply filter_In in X. tauto.
      - now apply getNextPosition_Some in C. }
    unfold decisionOk. cbn [fst snd]. destruct J as [J ->]. cbn [inZone].
    tauto. }
  assert (TF : tidy availablePieces final).
  { apply placeGroup_tidy; [| exact TB].
    intros used p q J C. apply piecesOfType_spec in J.
    apply getNextPosition_Some in C. unfold decisionOk. cbn [fst snd].
    destruct J as [J ->]. cbn [inZone]. tauto. }
  assert (full : forall x,
             tidy availablePieces x ->
             chooseAnywhere (snd x) = None ->
             (12 <= List.length (fst x))%nat).
  { intros x [M [D _]] N. apply getNextPosition_None in N.
    rewrite <- (length_map (@snd Piece Square)), <- M.
    change 12%nat with (List.length aiService.getValidPlacementSquares).
    apply NoDup_incl_length; [apply placement_squares_NoDup | exact N]. }
  destruct (placeGroup_grows chooseAnywhere
              (aiService.piecesOfType normal availablePieces) afterBagels)
    as [tail G].
  fold final in G.
  destruct T as [T | T].
  - destruct (@placeGroup_places chooseCenterFirst
                (aiService.piecesOfType bagel availablePieces) piece
                (proj2 (piecesOfType_spec bagel availablePieces piece)
                       (conj I T)) st) as [[p P] | N].
    + left. exists p. rewrite G. apply in_app_iff. now left.
    + right. fold afterBagels in N. unfold chooseCenterFirst in N.
      destruct (aiService.getNextPosition (snd afterBagels) centerSquares);
        [discriminate |].
      specialize (full afterBagels TB N).
      rewrite G, length_app in L. rewrite G, length_app. lia.
  - destruct (@placeGroup_places chooseAnywhere
                (aiService.piecesOfType normal availablePieces) piece
                (proj2 (piecesOfType_spec normal availablePieces piece)
                       (conj I T)) afterBagels) as [[p P] | N].
    + left. exists p. exact P.
    + right. fold final in N. specialize (full final TF N). lia.
Qed.

(** ** The automatic set-up of the board *)

Lemma cellAt_empty (r c : Z) :
  inBounds r c = true -> cellAt initializeEmptyBoard r c = Null.
Proof.
  intros B. apply inBounds_spec in B.
  assert (R : r = 0 \/ r = 1 \/ r = 2 \/ r = 3 \/ r = 4 \/ r = 5 \/ r = 6
              \/ r = 7) by lia.
  assert (C : c = 0 \/ c = 1 \/ c = 2 \/ c = 3 \/ c = 4 \/ c = 5 \/ c = 6
              \/ c = 7) by lia.
  repeat (destruct R as [-> | R]; [| try (subst r)]);
    repeat (destruct C as [-> | C]; [| try (subst c)]); reflexivity.
Qed.

Lemma placeInRows_spec (pieces : list Piece) (squares : list Square) :
  Forall (fun s => onBoard s = true) squares ->
  NoDup (filter darkSquare squares) ->
  forall (b : Board) (pieceIndex : nat),
    wfBoard b = true -> piecesOnBoard b = true ->
    exists b',
      placeInRows pieces squares b pieceIndex = Ret b' /\
      wfBoard b' = true /\ piecesOnBoard b' = true /\
      (forall k s,
          nth_error (filter darkSquare squares) k = Some s ->
          cellAt b' (row s) (col s)
          = match nth_error pieces (pieceIndex + k) with
            | Some p => Pc (withPosition p s)
            | None => cellAt b (row s) (col s)
            end) /\
      (forall r c,
          ~ In (mkSquare r c) (filter darkSquare squares) ->
          cellAt b' r c = cellAt b r c).
Proof.
  induction squares as [| s rest IH]; intros F D b idx W P.
  - exists b. cbn [placeInRows filter]. repeat split; auto.
    intros [| k] x; discriminate.
  - inversion F as [| x xs Fs Fr]. subst.
    cbn [placeInRows]. cbn [filter] in D |- *. fold (darkSquare s).
    destruct (darkSquare s) eqn:Dk; cbn [andb].
    + inversion D as [| x xs Ns Dr]. subst.
      destruct (idx <? List.length pieces)%nat eqn:L.
      * apply Nat.ltb_lt in L.
        destruct (nth_error pieces idx) as [p |] eqn:E;
          [| apply nth_error_None in E; lia].
        destruct (@boardSet_onBoard b (row s) (col s)
                    (Pc (withPosition p s)) W Fs) as [b1 S1].
        rewrite S1. cbn [bind].
        destruct (@boardSet_keeps_shape b b1 (row s) (col s)
                    (Pc (withPosition p s)) W P Fs eq_refl Fs S1)
          as [W1 P1].
        destruct (boardSet_spec _ _ _ _ S1) as [Here Else].
        destruct (IH Fr Dr b1 (S idx) W1 P1) as [b' [R [W' [P' [A B]]]]].
        exists b'. split; [exact R |]. split; [exact W' |].
        split; [exact P' |]. split.
        -- intros [| k] x X; cbn [nth_error] in X.
           ++ assert (x = s) by congruence. subst x.
              rewrite Nat.add_0_r, E. rewrite B; [exact Here |].
              now destruct s.
           ++ rewrite (A k x X).
              replace (idx + S k)%nat with (S idx + k)%nat by lia.
              destruct (nth_error pieces (S idx + k)); [reflexivity |].
              apply Else. apply nth_error_In in X.
              destruct (Z.eq_dec (row x) (row s)) as [Er | Nr];
                [| now left].
              destruct (Z.eq_dec (col x) (col s)) as [Ec | Nc];
                [| now right].
              exfalso. apply Ns. destruct x, s. cbn in Er, Ec. now subst.
        -- intros r c N. rewrite B by (intros I; apply N; now right).
           apply Else.
           destruct (Z.eq_dec r (row s)) as [Er | Nr]; [| now left].
           destruct (Z.eq_dec c (col s)) as [Ec | Nc]; [| now right].
           exfalso. apply N. left. destruct s. cbn in Er, Ec. now subst.
      * apply Nat.ltb_ge in L.
        destruct (IH Fr Dr b idx W P) as [b' [R [W' [P' [A B]]]]].
        exists b'. split; [exact R |]. split; [exact W' |].
        split; [exact P' |]. split.
        -- intros [| k] x X; cbn [nth_error] in X.
           ++ assert (x = s) by congruence. subst x.
              replace (nth_error pieces (idx + 0)) with (@None Piece)
                by (symmetry; apply nth_error_None; lia).
              apply B. now destruct s.
           ++ rewrite (A k x X).
              replace (nth_error pieces (idx + k)) with (@None Piece)
                by (symmetry; apply nth_error_None; lia).
              replace (nth_error pieces (idx + S k)) with (@None Piece)
                by (symmetry; apply nth_error_None; lia).
              reflexivity.
        -- intros r c N. apply B. intros I. apply N. now right.
    + exact (IH Fr D b idx W P).
Qed.

(** X16.  [setupBoardWithSelectedPieces] returns, for any draft lists, an
    8x8 board on which the k-th dark square of a player's three home rows
    holds that player's k-th generated piece, its position set to that
    square, as long as pieces remain (pieces beyond the twelfth are left
    out), and every other square of the grid is empty. *)
Theorem setupBoardWithSelectedPieces_layout (ctx : Context) :
  exists b,
    setupBoardWithSelectedPieces ctx = Ret b /\
    wfBoard b = true /\ piecesOnBoard b = true /\
    (forall who k s,
        nth_error (getInitialPlacementSquares who) k = Some s ->
        cellAt b (row s) (col s)
        = match nth_error (generatePiecesFromSelection ctx who) k with
          | Some p => Pc (withPosition p s)
          | None => Null
          end) /\
    (forall r c,
        inBounds r c = true ->
        ~ In (mkSquare r c) (getInitialPlacementSquares red) ->
        ~ In (mkSquare r c) (getInitialPlacementSquares blue) ->
        cellAt b r c = Null).
Proof.
  unfold setupBoardWithSelectedPieces. cbv zeta.
  assert (Fr : Forall (fun s => onBoard s = true) (rowSquares 0 3))
    by (vm_compute; repeat constructor).
  assert (Fb : Forall (fun s => onBoard s = true) (rowSquares 5 8))
    by (vm_compute; repeat constructor).
  assert (Er : filter darkSquare (rowSquares 0 3)
               = getInitialPlacementSquares red) by reflexivity.
  assert (Eb : filter darkSquare (rowSquares 5 8)
               = getInitialPlacementSquares blue) by reflexivity.
  assert (Dr : NoDup (getInitialPlacementSquares red)).
  { vm_compute.
    repeat (constructor; [cbn; intuition discriminate |]). constructor. }
  assert (Db : NoDup (getInitialPlacementSquares blue)).
  { vm_compute.
    repeat (constructor; [cbn; intuition discriminate |]). constructor. }
  assert (Apart : forall s, In s (getInitialPlacementSquares red) ->
                            In s (getInitialPlacementSquares blue) -> False).
  { intros s R B. vm_compute in R, B.
    repeat (destruct R as [<- | R]; [intuition discriminate |]).
    exact R. }
  rewrite <- Er in Dr. rewrite <- Eb in Db.
  destruct (@placeInRows_spec (generatePiecesFromSelection ctx red)
              (rowSquares 0 3) Fr Dr initializeEmptyBoard 0
              eq_refl eq_refl) as [b1 [R1 [W1 [P1 [A1 B1]]]]].
  destruct (@placeInRows_spec (generatePiecesFromSelection ctx blue)
              (rowSquares 5 8) Fb Db b1 0 W1 P1)
    as [b2 [R2 [W2 [P2 [A2 B2]]]]].
  rewrite Er in A1, B1. rewrite Eb in A2, B2.
  rewrite R1. cbn [bind]. exists b2.
  split; [exact R2 |]. split; [exact W2 |]. split; [exact P2 |]. split.
  - intros who k s X. destruct who.
    + rewrite B2.
      * rewrite (A1 k s X). cbn [Nat.add].
        destruct (nth_error (generatePiecesFromSelection ctx red) k);
          [reflexivity |].
        apply cellAt_empty. apply nth_error_In in X.
        rewrite Forall_forall in Fr. apply (Fr s).
        rewrite <- Er in X. apply filter_In in X. tauto.
      * intros I. apply (Apart s); [eapply nth_error_In; eassumption |].
        now destruct s.
    + rewrite (A2 k s X). cbn [Nat.add].
      destruct (nth_error (generatePiecesFromSelection ctx blue) k);
        [reflexivity |].
      rewrite B1.
      * apply cellAt_empty. apply nth_error_In in X.
        rewrite Forall_forall in Fb. apply (Fb s).
        rewrite <- Eb in X. apply filter_In in X. tauto.
      * intros I. apply (Apart s); [now destruct s |].
        eapply nth_error_In; eassumption.
  - intros r c B Nr Nb. rewrite (B2 r c Nb), (B1 r c Nr).
    now apply cellAt_empty.
Qed.

(** ** The generated roster *)

Lemma append_inv_head (p s s' : string) :
  (p ++ s)%string = (p ++ s')%string -> s = s'.
Proof.
  induction p as [| a p IH]; cbn [String.append]; intros E; [exact E |].
  apply IH. congruence.
Qed.

Lemma pieceId_inj (who : PlayerColor) (t t' : PieceType) (i j : nat) :
  pieceId who t i = pieceId who t' j -> t = t' /\ i = j.
Proof.
  unfold pieceId. intros E.
  apply append_inv_head in E. apply append_inv_head in E.
  assert (G : t = t' /\
              NilEmpty.string_of_uint (Nat.to_uint i)
              = NilEmpty.string_of_uint (Nat.to_uint j)).
  { destruct t, t'; cbn [typeName] in E;
      try (cbn [String.append] in E; discriminate E);
      (split; [reflexivity |]);
      apply append_inv_head in E; apply append_inv_head in E; exact E. }
  destruct G as [G D]. split; [exact G |].
  apply (f_equal NilEmpty.uint_of_string) in D.
  rewrite !NilEmpty.usu in D.
  assert (D' : Nat.to_uint i = Nat.to_uint j) by congruence.
  apply (f_equal Nat.of_uint) in D'.
  now rewrite !DecimalNat.Unsigned.of_to in D'.
Qed.

Lemma NoDup_map_inj (A B : Type) (f : A -> B) (l : list A) :
  (forall x y, f x = f y -> x = y) -> NoDup l -> NoDup (map f l).
Proof.
  intros Inj. induction 1 as [| x r N D IH]; cbn [map]; constructor;
    [| exact IH].
  intros I. apply in_map_iff in I. destruct I as [y [E I]].
  apply Inj in E. now subst.
Qed.

Lemma generated_ids (who : PlayerColor) (sels : list PieceSelection)
      (x : string) :
  In x (map id
          (flat_map
             (fun selection =>
                map (fun i => mkPiece (pieceId who (sel_type selection) i)
                                      (sel_type selection) who false
                                      (mkSquare 0 0))
                    (seq 0 (Z.to_nat (count selection))))
             sels)) ->
  exists s i, In s sels /\ x = pieceId who (sel_type s) i.
Proof.
  intros I. apply in_map_iff in I. destruct I as [p [<- I]].
  apply in_flat_map in I. destruct I as [s [S I]].
  apply in_map_iff in I. destruct I as [i [<- _]].
  exists s, i. split; [exact S | reflexivity].
Qed.

Lemma generated_ids_NoDup (who : PlayerColor) (sels : list PieceSelection) :
  NoDup (offered sels) ->
  NoDup (map id
           (flat_map
              (fun selection =>
                 map (fun i => mkPiece (pieceId who (sel_type selection) i)
                                       (sel_type selection) who false
                                       (mkSquare 0 0))
                     (seq 0 (Z.to_nat (count selection))))
              sels)).
Proof.
  unfold offered. induction sels as [| s rest IH]; cbn [map flat_map];
    intros D; [constructor |].
  inversion D as [| y ys N D' E]. subst.
  rewrite map_app. apply NoDup_app.
  - rewrite map_map. cbn [id]. apply NoDup_map_inj; [| apply seq_NoDup].
    intros i j E. now apply pieceId_inj in E.
  - now apply IH.
  - intros x I J. rewrite map_map in I. cbn [id] in I.
    apply in_map_iff in I. destruct I as [i [<- _]].
    apply generated_ids in J. destruct J as [s' [j [S E]]].
    apply pieceId_inj in E. destruct E as [E _].
    apply N. rewrite E. now apply in_map.
Qed.

Lemma generated_length (who : PlayerColor) (sels : list PieceSelection) :
  Forall (fun s => 0 <= count s <= max s) sels ->
  Z.of_nat
    (List.length
       (flat_map
          (fun selection =>
             map (fun i => mkPiece (pieceId who (sel_type selection) i)
                                   (sel_type selection) who false
                                   (mkSquare 0 0))
                 (seq 0 (Z.to_nat (count selection))))
          sels))
  = selectionTotal sels.
Proof.
  induction 1 as [| s rest C F IH]; cbn [flat_map]; [reflexivity |].
  rewrite length_app, length_map, length_seq, selectionTotal_cons. lia.
Qed.

(** X17.  In every reachable state [generatePiecesFromSelection] makes as
    many pieces as the player's draft list counts, twelve at most, with
    identifiers that all differ; every piece belongs to the player, is not
    crowned, stands on (0, 0) and is a normal piece, a bagel or a
    pancake. *)
Theorem generatePiecesFromSelection_roster
        (ctx : Context) (who : PlayerColor) :
  reachable ctx ->
  let pieces := generatePiecesFromSelection ctx who in
  Z.of_nat (List.length pieces)
  = selectionTotal (perPlayer (pieceSelections ctx) who) /\
  (List.length pieces <= 12)%nat /\
  NoDup (map id pieces) /\
  (forall p, In p pieces ->
             player p = who /\ crowned p = false /\
             position p = mkSquare 0 0 /\
             In (type p) [normal; bagel; pancake]).
Proof.
  intros R. cbv zeta. destruct (reachable_draft_lists R who) as [O [C T]].
  unfold generatePiecesFromSelection.
  pose proof (generated_length who C) as L.
  split; [exact L |]. split.
  - unfold TOTAL_PIECES_PER_PLAYER in T. lia.
  - split.
    + apply generated_ids_NoDup. rewrite O.
      repeat (constructor; [cbn; intuition discriminate |]). constructor.
    + intros p I. apply in_flat_map in I. destruct I as [s [S I]].
      apply in_map_iff in I. destruct I as [i [<- _]].
      cbn [player crowned position type].
      do 3 (split; [reflexivity |]).
      rewrite <- O. unfold offered. now apply in_map.
Qed.

(** ** The draft of the computer opponent *)

(** X18.  The draft of every tier asks for a variant the provider's draft
    lists do not offer: in every reachable state [togglePieceSelection]
    throws on it.  The Easy and Medium drafts ask for fifteen pieces, the
    Hard draft for twelve. *)
Theorem computer_draft_is_not_offered
        (ctx : Context) (difficulty : aiService.AIDifficulty) (idx : Z) :
  reachable ctx ->
  (exists t n,
      In (t, n) (aiService.getDraftSelections difficulty) /\ 0 < n /\
      togglePieceSelection ctx aiService.playerColor t idx = Throw) /\
  draftTotal (aiService.getDraftSelections difficulty)
  = match difficulty with aiService.Hard => 12 | _ => 15 end.
Proof.
  intros R.
  destruct (reachable_draft_lists R aiService.playerColor) as [O _].
  destruct (offered_three _ O) as [a [b [c [L [Ta [Tb Tc]]]]]].
  split; [| now destruct difficulty].
  exists vinyl. unfold togglePieceSelection. rewrite L. cbn [findIndex].
  rewrite Ta, Tb, Tc. cbn [PieceType_eqb].
  destruct difficulty; [exists 2 | exists 2 | exists 1];
    (split; [cbn; tauto | split; [lia | reflexivity]]).
Qed.

(** ** The books of a session *)

Lemma run_keeps_books (ctx ctx' : Context) (cmd : Command) :
  booksBalance (gameState ctx) ->
  run ctx cmd = Ret ctx' ->
  booksBalance (gameState ctx').
Proof.
  intros H.
  destruct cmd as [| | | | piece | | r c | who0 pieceType idx | piece r c];
    cbn [run].
  - intros [= <-]. split; [intros []; reflexivity | reflexivity].
  - intros [= <-]. split; [intros []; reflexivity | reflexivity].
  - intros [= <-]. unfold finishDraft.
    match goal with |- context [if ?t then _ else _] => destruct t end;
      exact H.
  - intros [= <-]. exact H.
  - unfold selectPiece.
    match goal with |- context [if ?t then _ else _] => destruct t end.
    + intros [= <-]. exact H.
    + destruct (getValidMovesForPiece _ _); cbn [bind]; try discriminate.
      intros [= <-]. exact H.
  - intros [= <-]. exact H.
  - unfold movePiece.
    destruct (selectedPiece ctx) as [sel |]; [| intros [= <-]; exact H].
    destruct (negb (gameActive (gameState ctx))); [intros [= <-]; exact H |].
    destruct (negb (existsb _ (validMoves ctx))); [intros [= <-]; exact H |].
    destruct (handleCapture _ _ _ _) as [cr | |]; cbn [bind];
      try discriminate.
    destruct (boardSet _ _ _ Null); cbn [bind]; try discriminate.
    destruct (boardSet _ r c _); cbn [bind]; try discriminate.
    destruct (checkWinCondition _ _); cbn [bind]; try discriminate.
    intros [= <-]. destruct H as [Hc Hh].
    pose proof (Hc red) as Hr. pose proof (Hc blue) as Hb.
    cbn [perPlayer] in Hr, Hb.
    unfold booksBalance.
    cbn [gameState capturedPieces scores moveHistory].
    rewrite filter_app, length_app. cbn [filter captured].
    destruct (capturedPiece cr) as [q |]; cbn [isSome List.length];
      destruct (currentPlayer (gameState ctx));
      cbn [setPlayer perPlayer ofRed ofBlue];
      (split; [intros []; cbn [perPlayer ofRed ofBlue];
               rewrite ?length_app; cbn [List.length]; lia | lia]).
  - unfold togglePieceSelection.
    destruct (findIndex _ _) as [i |]; [| discriminate].
    destruct (nth_error _ i) as [s |]; [| discriminate].
    intros [= <-]. exact H.
  - unfold placePiece.
    destruct (negb (GamePhase_eqb _ _)); [intros [= <-]; exact H |].
    destruct (boardSet _ _ _ _); cbn [bind]; try discriminate.
    intros [= <-]. exact H.
Qed.

(** X19.  In every state the provider can reach the books balance: each
    player's list of captured pieces is as long as that player's score, and
    the move history holds exactly as many capturing moves as the two
    scores sum to. *)
Theorem reachable_books_balance (ctx : Context) :
  reachable ctx -> booksBalance (gameState ctx).
Proof.
  induction 1 as [| ctx cmd ctx' _ IH E].
  - split; [intros []; reflexivity | reflexivity].
  - eapply run_keeps_books; eassumption.
Qed.

(** ** The further properties on sample positions *)

Lemma reachable_draft_lists_in_bounds_witness :
  offered (perPlayer (pieceSelections ctxAfterCapture) blue)
  = [normal; bagel; pancake] /\
  selectionsOk (perPlayer (pieceSelections ctxAfterCapture) blue).
Proof.
  apply (@reachable_draft_lists_in_bounds ctxAfterCapture).
  apply (@reachable_runAll sessionWithCapture initialContext);
    [apply reach_initial | vm_compute; reflexivity].
Defined.

Lemma togglePieceSelection_on_variants_witness :
  togglePieceSelection ctxAfterCapture red bomb 0 = Throw.
Proof.
  assert (R : reachable ctxAfterCapture).
  { apply (@reachable_runAll sessionWithCapture initialContext);
      [apply reach_initial | vm_compute; reflexivity]. }
  destruct (@togglePieceSelection_on_variants ctxAfterCapture red bomb 0 R)
    as [T _].
  apply T. left. reflexivity.
Defined.

Lemma movePiece_keeps_the_books_witness :
  exists ctx',
    movePiece ctxScenario 4 5 = Ret ctx' /\
    currentPlayer (gameState ctx') = blue /\
    ofRed (scores (gameState ctx')) + ofBlue (pieceCounts (gameState ctx'))
    = 12.
Proof.
  assert (E : exists ctx', movePiece ctxScenario 4 5 = Ret ctx')
    by (vm_compute; eexists; reflexivity).
  destruct E as [ctx' E]. exists ctx'. split; [exact E |].
  destruct (@movePiece_keeps_the_books ctxScenario ctx' redNormal23 4 5
              eq_refl eq_refl (or_intror (or_introl eq_refl)) E)
    as [Cu [_ [_ [_ [_ [Sum _]]]]]].
  split; [exact Cu | exact Sum].
Defined.

Lemma movePiece_writes_origin_and_destination_witness :
  exists ctx',
    movePiece ctxScenario 4 5 = Ret ctx' /\
    cellAt (board (gameState ctx')) 2 3 = Null /\
    cellAt (board (gameState ctx')) 3 4 = Pc blueNormal34.
Proof.
  assert (E : exists ctx', movePiece ctxScenario 4 5 = Ret ctx')
    by (vm_compute; eexists; reflexivity).
  destruct E as [ctx' E]. exists ctx'. split; [exact E |].
  destruct (@movePiece_writes_origin_and_destination ctxScenario ctx'
              redNormal23 4 5 eq_refl eq_refl
              (or_intror (or_introl eq_refl)) E)
    as [_ [Origin [_ Captured]]].
  split.
  - apply Origin. discriminate.
  - apply (Captured blueNormal34 (sq 3 4)). reflexivity.
Defined.

Lemma every_generated_square_is_free_witness :
  (0 <= 4 <= 7 /\ 0 <= 5 <= 7) /\ cellAt scenarioBoard 4 5 = Null.
Proof.
  apply (@every_generated_square_is_free (stateOf Play red scenarioBoard [])
           redNormal23 [sq 3 2; sq 4 5] eq_refl eq_refl eq_refl (sq 4 5)).
  right. left. reflexivity.
Defined.

Lemma selectPiece_then_movePiece_witness :
  exists ctx1 ctx2,
    selectPiece ctxRedToMove redNormal23 = Ret ctx1 /\
    movePiece ctx1 4 5 = Ret ctx2 /\
    currentPlayer (gameState ctx2) = blue /\
    movePiece ctx1 4 4 = Ret ctx1.
Proof.
  destruct (@selectPiece_then_movePiece ctxRedToMove ctxScenario redNormal23
              eq_refl eq_refl eq_refl eq_refl eq_refl eq_refl)
    as [ms [G [_ K]]].
  assert (M : ms = [sq 3 2; sq 4 5])
    by (vm_compute in G; injection G as <-; reflexivity).
  subst ms. exists ctxScenario.
  destruct (K 4 5) as [Yes _]. destruct (K 4 4) as [_ No].
  destruct (Yes (or_intror (or_introl eq_refl))) as [ctx2 [E [C _]]].
  exists ctx2. split; [reflexivity |]. split; [exact E |].
  split; [exact C |].
  apply No. intros [H | [H | []]]; discriminate.
Defined.

Lemma commands_on_the_grid_never_throw_witness :
  exists ctx', run ctxScenario (MovePiece 4 5) = Ret ctx' /\ stateOk ctx'.
Proof.
  destruct commands_on_the_grid_never_throw as [_ K].
  apply (K ctxScenario (MovePiece 4 5)); [| exact I].
  unfold stateOk.
  split; [reflexivity |]. split; [reflexivity |].
  split; [intros sel E; assert (sel = redNormal23) by (cbn in E; congruence);
          subst sel; reflexivity |].
  split; [repeat constructor |].
  split; [reflexivity | intros []; reflexivity].
Defined.

Lemma listed_jumps_are_the_captures_witness :
  Z.abs (col (sq 4 5) - col (position redNormal23)) = 2 <->
  exists q m, handleCapture scenarioBoard (position redNormal23) (sq 4 5)
                            redNormal23
              = Ret (mkCaptureResult (Some q) m).
Proof.
  apply (@listed_jumps_are_the_captures (stateOf Play red scenarioBoard [])
           redNormal23 [sq 3 2; sq 4 5] eq_refl eq_refl (or_introl eq_refl)
           eq_refl (sq 4 5)).
  right. left. reflexivity.
Defined.

Lemma column_distance_two_means_capture_witness :
  aiService.looksLikeCapture (redNormal23, sq 4 5) = true <->
  exists q m, handleCapture scenarioBoard (position redNormal23) (sq 4 5)
                            redNormal23
              = Ret (mkCaptureResult (Some q) m).
Proof.
  apply (@column_distance_two_means_capture scenarioBoard redNormal23
           (sq 4 5)); reflexivity.
Defined.

Lemma variants_without_rules_do_not_move_witness :
  getValidMovesForPiece (stateOf Play blue scenarioBoard []) blueBomb50
  = Ret [].
Proof.
  destruct variants_without_rules_do_not_move as [A _].
  destruct (A blueBomb50 (or_introl eq_refl)) as [G _]. apply G.
Defined.

Lemma getNextMove_is_accepted_by_the_state_machine_witness :
  exists m ctx1 ctx2,
    aiService.getNextMove aiService.Easy 0 (gameState ctxBlueToMove)
    = Ret (Some m) /\
    selectPiece ctxBlueToMove (piece m) = Ret ctx1 /\
    movePiece ctx1 (row (to m)) (col (to m)) = Ret ctx2 /\
    currentPlayer (gameState ctx2) = red.
Proof.
  assert (E : exists m,
             aiService.getNextMove aiService.Easy 0 (gameState ctxBlueToMove)
             = Ret (Some m))
    by (vm_compute; eexists; reflexivity).
  destruct E as [m E]. exists m.
  destruct (@getNextMove_is_accepted_by_the_state_machine aiService.Easy 0
              ctxBlueToMove m eq_refl eq_refl eq_refl eq_refl E)
    as [ctx1 [ctx2 [S [M [C _]]]]].
  exists ctx1, ctx2. auto.
Defined.

Lemma getInitialPlacementSquares_are_the_dark_home_squares_witness :
  In (sq 5 0) (getInitialPlacementSquares blue) /\
  ~ In (sq 5 1) (getInitialPlacementSquares blue).
Proof.
  destruct getInitialPlacementSquares_are_the_dark_home_squares as [M _].
  split.
  - apply (M blue (sq 5 0)). cbn. repeat split; lia.
  - intros I. apply (M blue (sq 5 1)) in I. cbn in I.
    destruct I as [_ [_ I]]. discriminate.
Defined.

Lemma base_placement_decisions_witness :
  NoDup (map snd (aiService.getPlacementDecisionsBase
                    [blueNew; bluePancake07; blueBomb50])).
Proof.
  destruct (base_placement_decisions [blueNew; bluePancake07; blueBomb50])
    as [_ [_ [_ [N _]]]].
  apply N. cbn. lia.
Defined.

Lemma hard_placement_decisions_witness :
  Forall (decisionOk [blueNew; bluePancake07; blueBomb50])
         (aiService.getPlacementDecisionsHard
            [blueNew; bluePancake07; blueBomb50]).
Proof.
  apply Forall_forall.
  exact (proj1 (proj2 (hard_placement_decisions
                         [blueNew; bluePancake07; blueBomb50]))).
Defined.

Lemma hard_placement_leaves_out_when_full_witness :
  (exists position,
      In (blueNew, position)
         (aiService.getPlacementDecisionsHard
            [blueBomb50; blueNew; bluePancake07])) \/
  List.length (aiService.getPlacementDecisionsHard
                 [blueBomb50; blueNew; bluePancake07]) = 12%nat.
Proof.
  apply (@hard_placement_leaves_out_when_full
           [blueBomb50; blueNew; bluePancake07] blueNew).
  - right. left. reflexivity.
  - right. reflexivity.
Defined.

Lemma setupBoardWithSelectedPieces_layout_witness :
  exists b,
    setupBoardWithSelectedPieces ctxAfterCapture = Ret b /\
    cellAt b 0 1 = Pc (mkPiece "red-normal-0" normal red false (sq 0 1)) /\
    cellAt b 3 4 = Null.
Proof.
  destruct (setupBoardWithSelectedPieces_layout ctxAfterCapture)
    as [b [E [_ [_ [A B]]]]].
  exists b. split; [exact E |]. split.
  - exact (A red 0%nat (sq 0 1) eq_refl).
  - apply B; [reflexivity | |]; vm_compute; intuition discriminate.
Defined.

Lemma generatePiecesFromSelection_roster_witness :
  Z.of_nat (List.length (generatePiecesFromSelection ctxAfterCapture red))
  = 12 /\
  NoDup (map id (generatePiecesFromSelection ctxAfterCapture red)).
Proof.
  assert (R : reachable ctxAfterCapture).
  { apply (@reachable_runAll sessionWithCapture initialContext);
      [apply reach_initial | vm_compute; reflexivity]. }
  destruct (@generatePiecesFromSelection_roster ctxAfterCapture red R)
    as [L [_ [N _]]].
  split; [exact L | exact N].
Defined.

Lemma computer_draft_is_not_offered_witness :
  exists t n,
    In (t, n) (aiService.getDraftSelections aiService.Medium) /\ 0 < n /\
    togglePieceSelection ctxAfterCapture aiService.playerColor t 0 = Throw.
Proof.
  assert (R : reachable ctxAfterCapture).
  { apply (@reachable_runAll sessionWithCapture initialContext);
      [apply reach_initial | vm_compute; reflexivity]. }
  exact (proj1 (@computer_draft_is_not_offered ctxAfterCapture
                  aiService.Medium 0 R)).
Defined.

Lemma reachable_books_balance_witness :
  booksBalance (gameState ctxAfterCapture) /\
  ofRed (scores (gameState ctxAfterCapture)) = 1.
Proof.
  split; [| reflexivity].
  apply (@reachable_books_balance ctxAfterCapture).
  apply (@reachable_runAll sessionWithCapture initialContext);
    [apply reach_initial | vm_compute; reflexivity].
Defined.
